(** * Composite-key reconciliation of fee-schedule records

    A shallow embedding of
    [backend/app/cpt_automated_scripts/database_utils.py] (the Preparer and
    the upsert engine) and of the in-batch deduplication loop of
    [backend/app/cpt_automated_scripts/Novitas/database.py], with the
    properties the specification states about them. *)

From stdpp Require Import gmap strings list fin_maps pretty.
From Stdlib Require Import Ascii ZArith Lia.

Open Scope string_scope.
Open Scope list_scope.
Open Scope nat_scope.

(** ** Python values and records *)

(** The primitive values a record field holds: [None], a [str] or an [int].
    Floating-point rate fields are payload that none of the modelled
    functions inspects; they are not represented. On these three types
    Python's [==] is structural equality, which is what the dictionaries
    keyed by tuples below rely on. *)
Inductive pyval : Type :=
  | PNone
  | PStr (s : string)
  | PInt (z : Z).

Global Instance pyval_eq_dec : EqDecision pyval.
Proof. solve_decision. Defined.

Global Instance pyval_countable : Countable pyval.
Proof.
  refine (inj_countable'
    (λ v, match v with
          | PNone => inl ()
          | PStr s => inr (inl s)
          | PInt z => inr (inr z)
          end)
    (λ c, match c with
          | inl _ => PNone
          | inr (inl s) => PStr s
          | inr (inr z) => PInt z
          end) _).
  by intros [].
Defined.

(** A record is a Python [dict] from field names to values. *)
Abbreviation record := (gmap string pyval).

(** [record.get(k)]: the value, or [None] when the key is absent. *)
Definition get (r : record) (k : string) : pyval := default PNone (r !! k).

(** [record.get(k, d)]. *)
Definition get_or (r : record) (k : string) (d : pyval) : pyval :=
  default d (r !! k).

(** Python truthiness ([bool(v)]). *)
Definition truthy (v : pyval) : bool :=
  match v with
  | PNone => false
  | PStr s => negb (String.eqb s "")
  | PInt z => negb (Z.eqb z 0)
  end.

(** [a or b]. *)
Definition py_or (a b : pyval) : pyval := if truthy a then a else b.

(** [str(v)]. *)
Definition py_str (v : pyval) : string :=
  match v with
  | PNone => "None"
  | PStr s => s
  | PInt z => pretty z
  end.

(** ** String helpers: [str.strip], [str.lower], [in] *)

(** [c.isspace()] on the code points below 256. *)
Definition is_py_space (c : ascii) : bool :=
  let n := nat_of_ascii c in
  (((9 <=? n) && (n <=? 13)) || ((28 <=? n) && (n <=? 32))
   || (n =? 133) || (n =? 160))%nat.

Fixpoint lstrip (s : string) : string :=
  match s with
  | String c s' => if is_py_space c then lstrip s' else s
  | EmptyString => EmptyString
  end.

Fixpoint rstrip (s : string) : string :=
  match s with
  | String c s' =>
      match rstrip s' with
      | EmptyString => if is_py_space c then EmptyString else String c EmptyString
      | t => String c t
      end
  | EmptyString => EmptyString
  end.

(** [s.strip()]. *)
Definition strip (s : string) : string := rstrip (lstrip s).

Definition lower_char (c : ascii) : ascii :=
  let n := nat_of_ascii c in
  if (((65 <=? n) && (n <=? 90))
      || ((192 <=? n) && (n <=? 222) && negb (n =? 215)))%nat
  then ascii_of_nat (n + 32)%nat else c.

(** [s.lower()] on the code points below 256. *)
Fixpoint lower (s : string) : string :=
  match s with
  | String c s' => String (lower_char c) (lower s')
  | EmptyString => EmptyString
  end.

Fixpoint starts_with (p s : string) : bool :=
  match p, s with
  | EmptyString, _ => true
  | String a p', String b s' => Ascii.eqb a b && starts_with p' s'
  | String _ _, EmptyString => false
  end.

(** [p in s] for strings. *)
Fixpoint contains (p s : string) : bool :=
  starts_with p s ||
  match s with
  | String _ s' => contains p s'
  | EmptyString => false
  end.

(** ** The Preparer: [prepare_record_for_insertion] *)

(** The guard of the first [if]: the record is kept when [code] is truthy
    and, if a string, not blank. *)
Definition code_ok (code : pyval) : bool :=
  truthy code &&
  match code with
  | PStr s => negb (String.eqb (strip s) "")
  | _ => true
  end.

(** ['k' not in record or not record.get('k')]. *)
Definition missing_or_falsy (r : record) (k : string) : bool :=
  match r !! k with
  | None => true
  | Some v => negb (truthy v)
  end.

(** The [elif]/[else] arms of the release-date block: promote [rel_date]
    or skip the record. *)
Definition from_rel_date (r : record) : option record :=
  if negb (missing_or_falsy r "rel_date")
  then Some (<["release_date" := get r "rel_date"]> r)
  else None.

Definition prepare_record_for_insertion
    (record0 : record) (source_name : string)
    (existing_release_date : pyval) (has_geozip : bool)
    : option record :=
  let code := get record0 "code" in
  if negb (code_ok code) then None
  else
    let r1 := <["source" := PStr source_name]> record0 in
    let r2 :=
      if negb has_geozip then <["geozip" := PNone]> r1
      else if missing_or_falsy r1 "geozip" then <["geozip" := PNone]> r1
      else r1 in
    if missing_or_falsy r2 "release_date" then
      if truthy existing_release_date
      then Some (<["release_date" := existing_release_date]> r2)
      else from_rel_date r2
    else Some r2.

(** ** The in-batch deduplication loop of [insert_records] *)

(** Composite keys are 4-tuples [(source, code, release_date, geozip)]. *)
Abbreviation key := (pyval * pyval * pyval * pyval)%type.

(** The stored identity of a record: its four key fields as they are. *)
Definition composite_key (r : record) : key :=
  (get r "source", get r "code", get r "release_date", get r "geozip").

(** The key the loop computes:
    [geozip = record.get('geozip') or None],
    [release_date = record.get('release_date') or record.get('rel_date', 'Unknown')]. *)
Definition dedup_key (r : record) : key :=
  let geozip := py_or (get r "geozip") PNone in
  let release_date :=
    py_or (get r "release_date") (get_or r "rel_date" (PStr "Unknown")) in
  (get r "source", get r "code", release_date, geozip).

Record dedup_state : Type := mk_dedup {
  seen_keys : gmap key nat;
  deduplicated_records : list record;
  duplicates_removed : nat
}.

Definition dedup_init : dedup_state := mk_dedup ∅ [] 0.

(** One iteration of [for record in validated_records]. The list
    assignment [deduplicated_records[index] = record] is always in range,
    since [seen_keys] only stores positions of appended entries. *)
Definition dedup_step (st : dedup_state) (r : record) : dedup_state :=
  let k := dedup_key r in
  match seen_keys st !! k with
  | Some index =>
      mk_dedup (seen_keys st)
               (<[index := r]> (deduplicated_records st))
               (S (duplicates_removed st))
  | None =>
      mk_dedup (<[k := length (deduplicated_records st)]> (seen_keys st))
               (deduplicated_records st ++ [r])
               (duplicates_removed st)
  end.

Definition dedup (validated_records : list record) : dedup_state :=
  fold_left dedup_step validated_records dedup_init.

(** ** Storage calls: state, exceptions and the client interface *)

(** A raised [Exception]; [str(e)] is its message. *)
Inductive exn : Type := Exception (msg : string).

Definition exn_str (e : exn) : string := let 'Exception m := e in m.

Global Instance exn_eq_dec : EqDecision exn.
Proof. solve_decision. Defined.

(** A computation over a storage state [St] that returns or raises. A
    raise keeps the state reached so far: nothing is rolled back. *)
Definition M (St A : Type) : Type := St → St * (exn + A).

Definition ret {St A} (a : A) : M St A := λ s, (s, inr a).

Definition raise {St A} (e : exn) : M St A := λ s, (s, inl e).

Definition bind {St A B} (m : M St A) (f : A → M St B) : M St B :=
  λ s, match m s with
       | (s', inr a) => f a s'
       | (s', inl e) => (s', inl e)
       end.

(** [try: m  except Exception as e: h e]. *)
Definition try_catch {St A} (m : M St A) (h : exn → M St A) : M St A :=
  λ s, match m s with
       | (s', inr a) => (s', inr a)
       | (s', inl e) => h e s'
       end.

Notation "'let*' x ':=' m 'in' k" := (bind m (λ x, k))
  (at level 10, x name, m at level 100, k at level 200,
   format "'let*'  x  ':='  m  'in'  '/' k").

(** The six storage operations the module invokes on the Supabase client
    (each is a query builder chain ending in [.execute()]):
    - [select_release_date t src]:
      [table(t).select("release_date").eq("source", src).limit(1)];
    - [select_keys t src d codes]:
      [table(t).select("id, code, source, release_date, geozip")
       .eq("source", src).eq("release_date", d).in_("code", codes)];
    - [count_rows t src d]: [table(t).select("id", count="exact")
       .eq("source", src).eq("release_date", d)], giving [response.count];
    - [insert_rows t rs]: [table(t).insert(rs)] with a list;
    - [insert_row t r]: [table(t).insert(r)] with one record;
    - [update_row t r i]: [table(t).update(r).eq("id", i)]. *)
Class Client (St : Type) : Type := {
  select_release_date : string → string → M St (list record);
  select_keys : string → string → pyval → list pyval → M St (list record);
  count_rows : string → string → pyval → M St (option nat);
  insert_rows : string → list record → M St unit;
  insert_row : string → record → M St unit;
  update_row : string → record → pyval → M St unit
}.

(** ** The upsert engine *)

(** The result dictionary of [upsert_records_with_composite_key]; [table]
    and [message] are absent from some of the returned dictionaries. *)
Record result : Type := mk_result {
  status : string;
  records_inserted : nat;
  records_updated : nat;
  records_upserted : nat;
  records_failed : nat;
  failed_chunks : list nat;
  table : option string;
  message : option string
}.

Global Instance result_eq_dec : EqDecision result.
Proof. solve_decision. Defined.

(** Key of a stored row and of a chunk record in [_process_chunk]: [code]
    goes through [str] on both sides, the other fields are taken as is. *)
Definition lookup_key (r : record) : key :=
  (get r "source", PStr (py_str (get r "code")),
   get r "release_date", get r "geozip").

(** [for existing in response.data: existing_records[key] = existing.get('id')]. *)
Definition build_lookup (data : list record) : gmap key pyval :=
  fold_left (λ m existing, <[lookup_key existing := get existing "id"]> m)
            data ∅.

(** The partition loop: [(records_to_insert, records_to_update)], in chunk
    order; a matched record gets [record['id']] set to the stored row id. *)
Fixpoint classify (existing_records : gmap key pyval) (chunk : list record)
    : list record * list record :=
  match chunk with
  | [] => ([], [])
  | r :: rest =>
      let '(ins, upd) := classify existing_records rest in
      match existing_records !! lookup_key r with
      | Some i => (ins, <["id" := i]> r :: upd)
      | None => (r :: ins, upd)
      end
  end.

(** The test on [str(individual_error)] in the fallback loop. *)
Definition is_conflict (e : exn) : bool :=
  let error_str := exn_str e in
  contains "409" error_str
  || contains "duplicate key" (lower error_str)
  || contains "unique constraint" (lower error_str).

Definition SAMPLE_SIZE : nat := 50.

(** [range(start, stop, step)] for a positive step. *)
Definition py_range (start stop step : nat) : list nat :=
  (λ k, start + k * step) <$> seq 0 ((stop - start + (step - 1)) / step).

Section Engine.
Context {St : Type} `{!Client St}.

(** The fallback of a failed batch insert: one [insert] per record; a
    conflict counts as an update, any other failure is dropped. *)
Fixpoint fallback_inserts (table_name : string) (rs : list record)
    (chunk_inserted chunk_updated : nat) : M St (nat * nat) :=
  match rs with
  | [] => ret (chunk_inserted, chunk_updated)
  | r :: rest =>
      let* c :=
        try_catch
          (let* _ := insert_row table_name r in
           ret (S chunk_inserted, chunk_updated))
          (λ individual_error,
             if is_conflict individual_error
             then ret (chunk_inserted, S chunk_updated)
             else ret (chunk_inserted, chunk_updated)) in
      fallback_inserts table_name rest c.1 c.2
  end.

(** The update loop: [record.pop('id')], then one [update] per record; a
    failure is logged and the record is not counted. *)
Fixpoint update_existing (table_name : string) (rs : list record)
    (chunk_updated : nat) : M St nat :=
  match rs with
  | [] => ret chunk_updated
  | r :: rest =>
      let* u :=
        try_catch
          (match r !! "id" with
           | Some record_id =>
               let* _ := update_row table_name (delete "id" r) record_id in
               ret (S chunk_updated)
           | None => raise (Exception "KeyError: 'id'")
           end)
          (λ _, ret chunk_updated) in
      update_existing table_name rest u
  end.

(** Lines 294-322 of [_process_chunk]: the batch existence check. It
    queries with the [release_date] of the first record of the chunk; a
    failed query leaves the lookup empty. *)
Definition existing_lookup (table_name source_name : string)
    (chunk : list record) : M St (gmap key pyval) :=
  let codes_in_chunk :=
    filter (λ c, truthy c) ((λ r, get r "code") <$> chunk) in
  let release_date_in_chunk :=
    match chunk with r :: _ => get r "release_date" | [] => PNone end in
  if bool_decide (codes_in_chunk ≠ []) && truthy release_date_in_chunk
  then try_catch
         (let* data := select_keys table_name source_name
                         release_date_in_chunk codes_in_chunk in
          ret (build_lookup data))
         (λ _, ret ∅)
  else ret ∅.

(** Lines 348-366: the batch insert and its fallback. *)
Definition insert_new (table_name : string)
    (records_to_insert : list record) : M St (nat * nat) :=
  match records_to_insert with
  | [] => ret (0, 0)
  | _ :: _ =>
      try_catch
        (let* _ := insert_rows table_name records_to_insert in
         ret (length records_to_insert, 0))
        (λ _, fallback_inserts table_name records_to_insert 0 0)
  end.

(** [_process_chunk]. The caller's records are dictionaries shared with
    the chunk; the only trace the function leaves on them is that a
    matched record ends without an ['id'] entry. *)
Definition _process_chunk (table_name source_name : string)
    (chunk : list record) : M St (nat * nat) :=
  let* existing_records := existing_lookup table_name source_name chunk in
  let '(records_to_insert, records_to_update) :=
    classify existing_records chunk in
  let* counts := insert_new table_name records_to_insert in
  let* chunk_updated :=
    update_existing table_name records_to_update counts.2 in
  ret (counts.1, chunk_updated).

(** The distinct truthy release dates of the records. Python iterates
    the [set] in an unspecified order; the model fixes one. *)
Definition release_dates_of (records : list record) : list pyval :=
  remove_dups (filter (λ d, truthy d)
                      ((λ r, get r "release_date") <$> records)).

Fixpoint count_existing (table_name source_name : string)
    (release_dates : list pyval) (total_existing : nat) : M St nat :=
  match release_dates with
  | [] => ret total_existing
  | release_date :: rest =>
      let* c := count_rows table_name source_name release_date in
      count_existing table_name source_name rest
        (match c with
         | Some n => total_existing + n
         | None => total_existing
         end)
  end.

Definition _check_all_records_exist (table_name source_name : string)
    (records : list record) : M St bool :=
  try_catch
    (let release_dates := release_dates_of records in
     match release_dates with
     | [] => ret false
     | _ :: _ =>
         let* total_existing :=
           count_existing table_name source_name release_dates 0 in
         ret (Nat.leb (length records) total_existing)
     end)
    (λ _, ret false).
End Engine.

(** The running totals of the chunk loop. *)
Record totals : Type := mk_totals {
  total_inserted : nat;
  total_updated : nat;
  total_failed : nat;
  failed : list nat
}.

Definition chunk_done (t : totals) (c : nat * nat) : totals :=
  mk_totals (total_inserted t + c.1) (total_updated t + c.2)
            (total_failed t) (failed t).

Definition chunk_failed (t : totals) (chunk_len chunk_num : nat) : totals :=
  mk_totals (total_inserted t) (total_updated t)
            (total_failed t + chunk_len) (failed t ++ [chunk_num]).

(** The dictionary returned after the chunk loop. *)
Definition final_result (table_name : string) (t : totals) : result :=
  mk_result
    (if Nat.eqb (total_failed t) 0 then "success" else "partial_success")
    (total_inserted t) (total_updated t)
    (total_inserted t + total_updated t)
    (total_failed t) (failed t) (Some table_name) None.

Definition no_records_result : result :=
  mk_result "no_records" 0 0 0 0 [] None None.

Definition already_synced_result (table_name : string) (sample_updated : nat)
    : result :=
  mk_result "already_synced" 0 sample_updated sample_updated 0 []
    (Some table_name)
    (Some "Database already synchronized - detected via 50-record sample").

Section Upsert.
Context {St : Type} `{!Client St}.

(** The body of [upsert_records_with_composite_key] is written over the
    chunk processor it calls. A Python call can raise whatever its callee
    raises, and the [try] around the call in the chunk loop is there for
    that; the processor is a parameter so that the loop is verified
    against every behaviour of the callee, [_process_chunk] included. *)
Variable process_chunk : string → string → list record → M St (nat * nat).

(** [for i in range(start_index, len(records), chunk_size)], over the
    indices still to visit. *)
Fixpoint chunk_loop (table_name source_name : string)
    (records : list record) (start_index chunk_size : nat)
    (indices : list nat) (t : totals) : M St totals :=
  match indices with
  | [] => ret t
  | i :: rest =>
      let chunk := take chunk_size (drop i records) in
      let chunk_num := (i - start_index) / chunk_size + 1 in
      let* t' :=
        try_catch
          (let* c := process_chunk table_name source_name chunk in
           ret (chunk_done t c))
          (λ _, ret (chunk_failed t (length chunk) chunk_num)) in
      chunk_loop table_name source_name records start_index chunk_size
                 rest t'
  end.

(** Lines 190-228: the loop and the final dictionary. [range] raises
    [ValueError] on a zero step and is empty on a negative one. *)
Definition process_remaining (table_name source_name : string)
    (records : list record) (chunk_size : Z)
    (start_index sample_inserted sample_updated : nat) : M St result :=
  if Z.eqb chunk_size 0
  then raise (Exception "range() arg 3 must not be zero")
  else
    let indices :=
      if Z.ltb chunk_size 0 then []
      else py_range start_index (length records) (Z.to_nat chunk_size) in
    let* t :=
      chunk_loop table_name source_name records start_index
                 (Z.to_nat chunk_size) indices
                 (mk_totals sample_inserted sample_updated 0 []) in
    ret (final_result table_name t).

Definition upsert_engine (table_name source_name : string)
    (records : list record) (chunk_size : Z) : M St result :=
  match records with
  | [] => ret no_records_result
  | _ :: _ =>
      if Nat.ltb SAMPLE_SIZE (length records) then
        let sample := take SAMPLE_SIZE records in
        let* s := process_chunk table_name source_name sample in
        let* synced :=
          if Nat.eqb s.1 0 && Nat.ltb 0 s.2
          then _check_all_records_exist table_name source_name records
          else ret false in
        if synced
        then ret (already_synced_result table_name s.2)
        else process_remaining table_name source_name records chunk_size
                               SAMPLE_SIZE s.1 s.2
      else process_remaining table_name source_name records chunk_size
                             0 0 0
  end.
End Upsert.

(** [upsert_records_with_composite_key(client, table_name, source_name,
    records, chunk_size)]. *)
Definition upsert_records_with_composite_key {St : Type} `{!Client St}
    (table_name source_name : string) (records : list record)
    (chunk_size : Z) : M St result :=
  upsert_engine _process_chunk table_name source_name records chunk_size.

(** [get_existing_release_date]. *)
Definition get_existing_release_date {St : Type} `{!Client St}
    (table_name source_name : string) : M St pyval :=
  try_catch
    (let* data := select_release_date table_name source_name in
     match data with
     | first :: _ =>
         let existing_date := get first "release_date" in
         if truthy existing_date then ret existing_date else ret PNone
     | [] => ret PNone
     end)
    (λ _, ret PNone).

(** [_validate_and_prepare_records] of the Novitas handler
    ([has_geozip=False]); [if prepared:] holds for every returned
    dictionary, which has at least the [source] entry. *)
Definition _validate_and_prepare_records {St : Type} `{!Client St}
    (table_name source_name : string) (records : list record)
    : M St (list record) :=
  let* existing_release_date :=
    get_existing_release_date table_name source_name in
  ret (omap (λ r, prepare_record_for_insertion r source_name
                    existing_release_date false) records).

(** ** An in-memory store *)

(** Modelled from the spec: the storage collaborator, which is the hosted
    Supabase service and not part of the repository. The spec (sections 3
    and 6) asks for six operations over rows that carry a surrogate [id]
    and are unique on [(source, code, release_date, geozip)], a null
    geozip being equal only to a null geozip. The model is one table (the
    table name is not inspected); values are compared structurally; an
    insert assigns the next [id], overriding any [id] the record carries;
    an update overwrites the fields of the payload in the rows with that
    [id]; a write that would leave two rows with one composite key raises
    and changes nothing. *)
Record mem_store : Type := mk_store {
  rows : list record;
  next_id : Z
}.

Global Instance mem_store_eq_dec : EqDecision mem_store.
Proof. solve_decision. Defined.

Definition mem_empty : mem_store := mk_store [] 1.

Definition unique_violation : exn :=
  Exception "duplicate key value violates unique constraint".

Definition keys_unique (rs : list record) : bool :=
  bool_decide (NoDup (composite_key <$> rs)).

Definition row_matches (source_name : string) (release_date : pyval)
    (row : record) : bool :=
  bool_decide (get row "source" = PStr source_name)
  && bool_decide (get row "release_date" = release_date).

(** [select("c1, c2, ...")]: the named columns, null where unset. *)
Definition project (cols : list string) (row : record) : record :=
  list_to_map ((λ c, (c, get row c)) <$> cols).

Definition mem_select_release_date (source_name : string)
    : M mem_store (list record) :=
  λ st, (st, inr (take 1 (project ["release_date"] <$>
           filter (λ row, get row "source" = PStr source_name) (rows st)))).

Definition mem_select_keys (source_name : string) (release_date : pyval)
    (codes : list pyval) : M mem_store (list record) :=
  λ st, (st, inr (project ["id"; "code"; "source"; "release_date"; "geozip"] <$>
           filter (λ row, row_matches source_name release_date row
                          && bool_decide (get row "code" ∈ codes))
                  (rows st))).

Definition mem_count_rows (source_name : string) (release_date : pyval)
    : M mem_store (option nat) :=
  λ st, (st, inr (Some (length
           (filter (λ row, row_matches source_name release_date row)
                   (rows st))))).

Definition mem_insert_rows (rs : list record) : M mem_store unit :=
  λ st,
    let new_rows :=
      (rows st ++ imap (λ k r, <["id" := PInt (next_id st + Z.of_nat k)]> r) rs)%list in
    if keys_unique new_rows
    then (mk_store new_rows (next_id st + Z.of_nat (length rs)), inr ())
    else (st, inl unique_violation).

Definition mem_update_row (payload : record) (i : pyval) : M mem_store unit :=
  λ st,
    let new_rows :=
      (λ row, if bool_decide (get row "id" = i) then payload ∪ row else row)
        <$> rows st in
    if keys_unique new_rows
    then (mk_store new_rows (next_id st), inr ())
    else (st, inl unique_violation).

Global Instance mem_client : Client mem_store := {
  select_release_date _ := mem_select_release_date;
  select_keys _ := mem_select_keys;
  count_rows _ := mem_count_rows;
  insert_rows _ := mem_insert_rows;
  insert_row _ r := mem_insert_rows [r];
  update_row _ := mem_update_row
}.

(** The same store behind a connection that can fail: every write call
    consumes one entry of [write_faults]; [Some msg] makes that call raise
    [Exception msg] without reaching the store. Reads never fail. *)
Record faulty_store : Type := mk_faulty {
  base : mem_store;
  write_faults : list (option string)
}.

Global Instance faulty_store_eq_dec : EqDecision faulty_store.
Proof. solve_decision. Defined.

Definition read_through {A} (m : M mem_store A) : M faulty_store A :=
  λ fs, let '(st, a) := m (base fs) in (mk_faulty st (write_faults fs), a).

Definition write_through (m : M mem_store unit) : M faulty_store unit :=
  λ fs,
    match write_faults fs with
    | Some msg :: rest => (mk_faulty (base fs) rest, inl (Exception msg))
    | None :: rest => let '(st, a) := m (base fs) in (mk_faulty st rest, a)
    | [] => let '(st, a) := m (base fs) in (mk_faulty st [], a)
    end.

Global Instance faulty_client : Client faulty_store := {
  select_release_date _ src := read_through (mem_select_release_date src);
  select_keys _ src d codes := read_through (mem_select_keys src d codes);
  count_rows _ src d := read_through (mem_count_rows src d);
  insert_rows _ rs := write_through (mem_insert_rows rs);
  insert_row _ r := write_through (mem_insert_rows [r]);
  update_row _ r i := write_through (mem_update_row r i)
}.

(** ** Scenario data and the notions the properties are stated with *)

Definition mk_record (source code release_date : string) (geozip : pyval)
    (rate : Z) : record :=
  list_to_map [("source", PStr source); ("code", PStr code);
               ("release_date", PStr release_date); ("geozip", geozip);
               ("rate", PInt rate)].

(** A store that already tracks release "January 2025" for source "X",
    and a freshly extracted record that only carries a [rel_date] label. *)
Definition tracked_store : mem_store :=
  mk_store [<["id" := PInt 1]> (mk_record "X" "99213" "January 2025" PNone 50)] 2.

Definition unlabelled_record : record :=
  list_to_map [("code", PStr "99213"); ("rel_date", PStr "Jan 2025");
               ("rate", PInt 55)].

(** A record of a source without geozip data that carries a stray one. *)
Definition stray_geozip_record : record :=
  mk_record "raw" "99213" "Jan 2025" (PStr "070") 50.

(** The record after the [source] and [geozip] assignments. *)
Definition stamped (r : record) (source_name : string) (has_geozip : bool)
    : record :=
  let r1 := <["source" := PStr source_name]> r in
  if negb has_geozip then <["geozip" := PNone]> r1
  else if missing_or_falsy r1 "geozip" then <["geozip" := PNone]> r1
  else r1.

(** A record the Preparer returned. *)
Definition prepared (r : record) : Prop :=
  ∃ r0 source_name existing_release_date has_geozip,
    prepare_record_for_insertion r0 source_name existing_release_date
      has_geozip = Some r.

(** The distinct keys of a list in the order of their first occurrence. *)
Fixpoint first_seen (ks : list key) : list key :=
  match ks with
  | [] => []
  | k :: rest => k :: filter (λ k', k' ≠ k) (first_seen rest)
  end.

(** The last record of [l] whose key under [kf] is [k]. *)
Definition last_with (kf : record → key) (k : key) (l : list record)
    : option record :=
  last (filter (λ r, kf r = k) l).

(** The batch of the dedup scenario: the first and third records share a
    key, the third carries the newer rate. *)
Definition scenario_batch : list record :=
  [mk_record "X" "99213" "Jan 2025" PNone 50;
   mk_record "X" "99214" "Jan 2025" PNone 70;
   mk_record "X" "99213" "Jan 2025" PNone 55].

(** Two records of one batch with different release dates, and the store
    after both have been inserted. *)
Definition jan_record : record := mk_record "X" "99213" "January 2025" PNone 50.
Definition feb_record : record := mk_record "X" "99214" "February 2025" PNone 70.

Definition two_release_store : mem_store :=
  mk_store [<["id" := PInt 1]> jan_record; <["id" := PInt 2]> feb_record] 3.

(** A stored row whose geozip is the empty string, and a record with the
    same source, code and release date whose geozip is null. *)
Definition blank_geozip_row : record :=
  <["id" := PInt 7]> (mk_record "X" "99213" "January 2025" (PStr "") 50).

(** The individual inserts of the fallback as a trace: the outcome of one
    [insert] per record, in order, and the state they leave. *)
Fixpoint individual_inserts {St : Type} `{!Client St} (table_name : string)
    (rs : list record) (s : St) : St * list (exn + unit) :=
  match rs with
  | [] => (s, [])
  | r :: rest =>
      let '(s1, o) := insert_row table_name r s in
      let '(s2, os) := individual_inserts table_name rest s1 in
      (s2, o :: os)
  end.

(** An individual insert went through. *)
Definition went_through (o : exn + unit) : bool :=
  match o with inr _ => true | inl _ => false end.

(** An individual insert failed on a uniqueness violation. *)
Definition hit_conflict (o : exn + unit) : bool :=
  match o with inr _ => false | inl e => is_conflict e end.

(** An individual insert failed for another reason. *)
Definition failed_otherwise (o : exn + unit) : bool :=
  match o with inr _ => false | inl e => negb (is_conflict e) end.

Definition count_of {A} (f : A → bool) (l : list A) : nat :=
  length (filter (λ x, f x) l).

(** A connection on which the next four writes time out, and one fresh
    record to write. *)
Definition timeouts_store : faulty_store :=
  mk_faulty mem_empty
    [Some "timed out"; Some "timed out"; Some "timed out"; Some "timed out"].

(** Consecutive slices of [cs] elements, the last one possibly shorter;
    the fuel is the number of elements left. *)
Fixpoint chunks_fuel {A} (fuel cs : nat) (l : list A) : list (list A) :=
  match fuel with
  | 0 => []
  | S fuel' =>
      match l with
      | [] => []
      | _ :: _ => take cs l :: chunks_fuel fuel' cs (drop cs l)
      end
  end.

Definition chunks_of {A} (cs : nat) (l : list A) : list (list A) :=
  chunks_fuel (length l) cs l.

(** The chunk processor run over the chunks in order, as a trace: one
    outcome per chunk, each started in the state the previous one left. *)
Fixpoint chunk_outcomes {St : Type}
    (process_chunk : string → string → list record → M St (nat * nat))
    (table_name source_name : string) (chunks : list (list record)) (s : St)
    : St * list (exn + nat * nat) :=
  match chunks with
  | [] => (s, [])
  | c :: rest =>
      let '(s1, o) := process_chunk table_name source_name c s in
      let '(s2, os) :=
        chunk_outcomes process_chunk table_name source_name rest s1 in
      (s2, o :: os)
  end.

Definition chunk_raised {A} (o : exn + A) : bool :=
  match o with inl _ => true | inr _ => false end.

Definition inserted_in (o : exn + nat * nat) : nat :=
  match o with inr c => c.1 | inl _ => 0 end.

Definition updated_in (o : exn + nat * nat) : nat :=
  match o with inr c => c.2 | inl _ => 0 end.

(** The records of the chunks that raised. *)
Fixpoint failed_records (chunks : list (list record))
    (os : list (exn + nat * nat)) : nat :=
  match chunks, os with
  | c :: chunks', o :: os' =>
      (if chunk_raised o then length c else 0) + failed_records chunks' os'
  | _, _ => 0
  end.

(** The numbers of the chunks that raised, the first chunk being [n]. *)
Fixpoint failed_numbers (n : nat) (os : list (exn + nat * nat)) : list nat :=
  match os with
  | [] => []
  | o :: os' =>
      if chunk_raised o then n :: failed_numbers (S n) os'
      else failed_numbers (S n) os'
  end.

(** A chunk processor that raises on every chunk holding [feb_record] and
    otherwise is [_process_chunk]; and five records for five chunks of one. *)
Definition raising_on_feb : string → string → list record → M mem_store (nat * nat) :=
  λ t src chunk,
    if bool_decide (feb_record ∈ chunk)
    then raise (Exception "TypeError: unhashable type")
    else _process_chunk t src chunk.

Definition five_records : list record :=
  [mk_record "X" "10" "January 2025" PNone 1;
   feb_record;
   mk_record "X" "30" "January 2025" PNone 3;
   mk_record "X" "40" "January 2025" PNone 4;
   mk_record "X" "50" "January 2025" PNone 5].

(** The stored rows that match [(source, release_date)]. *)
Definition existing_rows (source_name : string) (release_date : pyval)
    (st : mem_store) : nat :=
  length (filter (λ row, row_matches source_name release_date row) (rows st)).

(** [n] records of source "X" and release "January 2025" with codes
    "0", "1", ... *)
Definition numbered_records (n : nat) : list record :=
  (λ k, mk_record "X" (pretty k) "January 2025" PNone (Z.of_nat k)) <$> seq 0 n.

(** The rows an insert of [rs] creates when the next free id is [first]. *)
Definition with_ids (first : Z) (rs : list record) : list record :=
  imap (λ k r, <["id" := PInt (first + Z.of_nat k)]> r) rs.

(** The store holds exactly the records [rs], inserted in this order into
    an empty store. *)
Definition stored (rs : list record) (st : mem_store) : Prop :=
  rows st = with_ids 1 rs ∧ next_id st = (1 + Z.of_nat (length rs))%Z.

(** The key of the existence check is a function of the composite key. *)
Definition str_code (k : key) : key :=
  let '(source, code, release_date, geozip) := k in
  (source, PStr (py_str code), release_date, geozip).

(** The loop invariant after the records [l] have been visited. *)
Record dedup_inv (l : list record) (st : dedup_state) : Prop := {
  inv_keys : dedup_key <$> deduplicated_records st
             = first_seen (dedup_key <$> l);
  inv_seen : ∀ k i, seen_keys st !! k = Some i
                    ↔ (dedup_key <$> deduplicated_records st) !! i = Some k;
  inv_last : ∀ i r, deduplicated_records st !! i = Some r
                    → last_with dedup_key (dedup_key r) l = Some r;
  inv_count : duplicates_removed st + length (deduplicated_records st)
              = length l
}.

(** ** The handlers of the sources *)

(** The deduplication loop is the same in every handler but for the key it
    computes; [dedup_step] and [dedup] above are its instance at the key of
    the Novitas handler. *)
Definition dedup_step_by (kf : record → key) (st : dedup_state) (r : record)
    : dedup_state :=
  let k := kf r in
  match seen_keys st !! k with
  | Some index =>
      mk_dedup (seen_keys st)
               (<[index := r]> (deduplicated_records st))
               (S (duplicates_removed st))
  | None =>
      mk_dedup (<[k := length (deduplicated_records st)]> (seen_keys st))
               (deduplicated_records st ++ [r])
               (duplicates_removed st)
  end.

Definition dedup_by (kf : record → key) (validated_records : list record)
    : dedup_state :=
  fold_left (dedup_step_by kf) validated_records dedup_init.

(** The key of the Horizon ASC loop:
    [geozip = record.get('geozip') or None],
    [data_type = record.get('data_type') or 'ASC Commercial'],
    [key = (source, code, geozip, data_type)]. *)
Definition horizon_dedup_key (r : record) : key :=
  let geozip := py_or (get r "geozip") PNone in
  let data_type := py_or (get r "data_type") (PStr "ASC Commercial") in
  (get r "source", get r "code", geozip, data_type).

(** [_validate_and_prepare_records] as the Novitas, Medicare Clinical Fees,
    Horizon ASC and Fair Health handlers have it, [has_geozip] being the
    constant each of them passes to the Preparer. ([_validate_data_source],
    which some of them call first, only logs.) *)
Definition validate_and_prepare {St : Type} `{!Client St} (has_geozip : bool)
    (table_name source_name : string) (records : list record)
    : M St (list record) :=
  let* existing_release_date :=
    get_existing_release_date table_name source_name in
  ret (omap (λ r, prepare_record_for_insertion r source_name
                    existing_release_date has_geozip) records).

(** What [insert_records] returns: the three-entry dictionary
    [{"status": ..., "records_inserted": 0, "table": ...}] of the two early
    exits, or the dictionary of the engine. *)
Inductive summary : Type :=
  | Short (status : string) (table_name : string)
  | Full (r : result).

(** [insert_records] of the Novitas, New Jersey DOBI, Fair Health Facility
    and Horizon ASC handlers, over the validation and the loop key of the
    handler. The engine is always called with [chunk_size=1000]. *)
Definition insert_records_with {St : Type} `{!Client St}
    (validate : string → string → list record → M St (list record))
    (kf : record → key) (table_name source_name : string)
    (records : list record) : M St summary :=
  match records with
  | [] => ret (Short "no_records" table_name)
  | _ :: _ =>
      let* validated_records := validate table_name source_name records in
      match validated_records with
      | [] => ret (Short "no_valid_records" table_name)
      | _ :: _ =>
          let* result :=
            upsert_records_with_composite_key table_name source_name
              (deduplicated_records (dedup_by kf validated_records)) 1000 in
          ret (Full result)
      end
  end.

Global Instance summary_eq_dec : EqDecision summary.
Proof. solve_decision. Defined.

Module Novitas.
Definition table_name : string :=
  "new_updated_historical_medical_benchmarking_data".
Definition source_name : string := "Novitas".

Definition insert_records {St : Type} `{!Client St} (records : list record)
    : M St summary :=
  insert_records_with _validate_and_prepare_records dedup_key
    table_name source_name records.
End Novitas.

Module Horizon_ASC.
Definition table_name : string := "new_updated_medical_benchmarking_data".
Definition source_name : string := "Horizon_ASC".

Definition _validate_and_prepare_records {St : Type} `{!Client St}
    : string → string → list record → M St (list record) :=
  validate_and_prepare true.

Definition insert_records {St : Type} `{!Client St} (records : list record)
    : M St summary :=
  insert_records_with _validate_and_prepare_records horizon_dedup_key
    table_name source_name records.
End Horizon_ASC.

Module New_Jersey_DOBI.
Definition NJ_DOBI_RELEASE_DATE : string := "January 2024".
Definition table_name : string :=
  "new_updated_historical_medical_benchmarking_data".
Definition source_name : string := "New Jersey DOBI".

(** The loop body before the Preparer is called: a record without a
    [rel_date] gets the fallback date as its [rel_date]. *)
Definition with_fallback_rel_date (fallback_date : pyval) (r : record)
    : record :=
  if missing_or_falsy r "rel_date" then <["rel_date" := fallback_date]> r
  else r.

Definition _validate_and_prepare_records {St : Type} `{!Client St}
    (table_name source_name : string) (records : list record)
    : M St (list record) :=
  let* existing_release_date :=
    get_existing_release_date table_name source_name in
  let fallback_date :=
    py_or existing_release_date (PStr NJ_DOBI_RELEASE_DATE) in
  ret (omap (λ r, prepare_record_for_insertion
                    (with_fallback_rel_date fallback_date r) source_name
                    existing_release_date false) records).

Definition insert_records {St : Type} `{!Client St} (records : list record)
    : M St summary :=
  insert_records_with _validate_and_prepare_records dedup_key
    table_name source_name records.
End New_Jersey_DOBI.

Module Fair_Health_Physicians.
Definition TABLE_NAME : string :=
  "new_updated_historical_medical_benchmarking_data".
Definition SOURCE_NAME : string := "Fair Health Physicians".

Definition _validate_and_prepare_records {St : Type} `{!Client St}
    : string → string → list record → M St (list record) :=
  validate_and_prepare true.

(** The dictionaries this handler returns: [{"records_inserted": 0,
    "table": ...}] on no input, the same with ["success": False] when
    nothing is valid, and otherwise the dictionary of the engine with
    [result['success'] = result.get('status') == 'success']. *)
Inductive physician_summary : Type :=
  | NoRecords (table_name : string)
  | NoValidRecords (table_name : string) (success : bool)
  | Upserted (r : result) (success : bool).

Global Instance physician_summary_eq_dec : EqDecision physician_summary.
Proof. solve_decision. Defined.

Definition insert_records {St : Type} `{!Client St} (records : list record)
    : M St physician_summary :=
  match records with
  | [] => ret (NoRecords TABLE_NAME)
  | _ :: _ =>
      let* validated_records :=
        _validate_and_prepare_records TABLE_NAME SOURCE_NAME records in
      match validated_records with
      | [] => ret (NoValidRecords TABLE_NAME false)
      | _ :: _ =>
          let* result :=
            upsert_records_with_composite_key TABLE_NAME SOURCE_NAME
              (deduplicated_records (dedup_by dedup_key validated_records))
              1000 in
          ret (Upserted result (String.eqb (status result) "success"))
      end
  end.
End Fair_Health_Physicians.

(** A record the Preparer returned for the source [source_name]. *)
Definition prepared_for (source_name : string) (has_geozip : bool)
    (r : record) : Prop :=
  ∃ r0 existing_release_date,
    prepare_record_for_insertion r0 source_name existing_release_date
      has_geozip = Some r.

(** A store that holds the first 50 of 51 numbered records and one row
    of another code instead of the last. *)
Definition other_code_record : record :=
  mk_record "X" "other" "January 2025" PNone 0.

Definition short_store : mem_store :=
  mk_store (with_ids 1 (take 50 (numbered_records 51) ++ [other_code_record]))
           52.

(** The loop invariant for an arbitrary key function. *)
Record dedup_inv_by (kf : record → key) (l : list record) (st : dedup_state)
    : Prop := {
  inv_by_keys : kf <$> deduplicated_records st = first_seen (kf <$> l);
  inv_by_seen : ∀ k i, seen_keys st !! k = Some i
                       ↔ (kf <$> deduplicated_records st) !! i = Some k;
  inv_by_last : ∀ i r, deduplicated_records st !! i = Some r
                       → last_with kf (kf r) l = Some r;
  inv_by_count : duplicates_removed st + length (deduplicated_records st)
                 = length l
}.

(** Two Horizon ASC records that differ in their release date only. *)
Definition horizon_2024 : record :=
  <["data_type" := PStr "ASC Commercial"]>
    (mk_record "Horizon_ASC" "29881" "January 2024" (PStr "USA") 1200).

Definition horizon_2025 : record :=
  <["data_type" := PStr "ASC Commercial"]>
    (mk_record "Horizon_ASC" "29881" "January 2025" (PStr "USA") 1300).

(** What the summary of an [insert_records] run can be: one of the two
    early exits, or the dictionary of an engine run without failures. *)
Definition clean_summary (records : list record) (sm : summary) : Prop :=
  match sm with
  | Short st _ =>
      (st = "no_records" ∧ records = [])
      ∨ (st = "no_valid_records" ∧ records ≠ [])
  | Full res =>
      records ≠ []
      ∧ records_failed res = 0
      ∧ failed_chunks res = []
      ∧ (status res = "success" ∨ status res = "already_synced")
  end.

(** Two freshly extracted records of different releases that carry a
    [rel_date] label only. *)
Definition jan_label_record : record :=
  list_to_map [("code", PStr "99213"); ("rel_date", PStr "January 2025");
               ("rate", PInt 50)].

Definition feb_label_record : record :=
  list_to_map [("code", PStr "99214"); ("rel_date", PStr "February 2025");
               ("rate", PInt 70)].

(** What one [update(record).eq('id', record_id)] of the update loop does
    to a stored row: the row with the [id] of the matched record takes the
    fields of the record, the others stay. *)
Definition apply_update (x row : record) : record :=
  if bool_decide (get row "id" = get x "id") then delete "id" x ∪ row
  else row.

(** The release date the existence check of a chunk queries with. *)
Definition chunk_release_date (chunk : list record) : pyval :=
  match chunk with r :: _ => get r "release_date" | [] => PNone end.

(** The two stored records with newer rates. *)
Definition jan_record_repriced : record :=
  mk_record "X" "99213" "January 2025" PNone 65.

Definition feb_record_repriced : record :=
  mk_record "X" "99214" "February 2025" PNone 85.

(** * Properties *)

(** Closed decidable facts are settled by evaluation. *)
Ltac by_compute := apply (bool_decide_unpack _); vm_compute; exact I.

(** ** The Preparer *)

Lemma missing_or_falsy_insert_ne (r : record) k k' v :
  k ≠ k' → missing_or_falsy (<[k := v]> r) k' = missing_or_falsy r k'.
Proof. intros Hne. unfold missing_or_falsy. by rewrite lookup_insert_ne. Qed.

Lemma missing_or_falsy_get (r : record) k :
  missing_or_falsy r k = negb (truthy (get r k)).
Proof. unfold missing_or_falsy, get. by destruct (r !! k). Qed.

Lemma stamped_release_date r src hg :
  stamped r src hg !! "release_date" = r !! "release_date".
Proof.
  unfold stamped.
  destruct hg; simpl; [case_match|]; by rewrite ?lookup_insert_ne.
Qed.

Lemma stamped_rel_date r src hg :
  stamped r src hg !! "rel_date" = r !! "rel_date".
Proof.
  unfold stamped.
  destruct hg; simpl; [case_match|]; by rewrite ?lookup_insert_ne.
Qed.

Lemma stamped_geozip_forced r src :
  stamped r src false !! "geozip" = Some PNone.
Proof. unfold stamped. simpl. by rewrite lookup_insert_eq. Qed.

Lemma stamped_geozip_kept r src :
  stamped r src true !! "geozip" =
  if missing_or_falsy r "geozip" then Some PNone else r !! "geozip".
Proof.
  unfold stamped. simpl. rewrite missing_or_falsy_insert_ne by done.
  case_match; [by rewrite lookup_insert_eq | by rewrite lookup_insert_ne].
Qed.

Lemma stamped_source r src hg :
  stamped r src hg !! "source" = Some (PStr src).
Proof.
  unfold stamped.
  destruct hg; simpl; [case_match|];
    by rewrite ?(lookup_insert_ne _ "geozip"), ?lookup_insert_eq.
Qed.

Lemma stamped_code r src hg : stamped r src hg !! "code" = r !! "code".
Proof.
  unfold stamped.
  destruct hg; simpl; [case_match|]; by rewrite ?lookup_insert_ne.
Qed.

(** The Preparer, case by case. *)
Lemma prepare_unfold r src ex hg :
  prepare_record_for_insertion r src ex hg =
  if negb (code_ok (get r "code")) then None
  else if missing_or_falsy r "release_date" then
    if truthy ex then Some (<["release_date" := ex]> (stamped r src hg))
    else if negb (missing_or_falsy r "rel_date")
    then Some (<["release_date" := get r "rel_date"]> (stamped r src hg))
    else None
  else Some (stamped r src hg).
Proof.
  assert (Hrd : missing_or_falsy (stamped r src hg) "release_date"
                = missing_or_falsy r "release_date").
  { unfold missing_or_falsy. by rewrite stamped_release_date. }
  assert (Hrel : from_rel_date (stamped r src hg) =
                 if negb (missing_or_falsy r "rel_date")
                 then Some (<["release_date" := get r "rel_date"]>
                              (stamped r src hg))
                 else None).
  { unfold from_rel_date, missing_or_falsy, get.
    by rewrite stamped_rel_date. }
  change (prepare_record_for_insertion r src ex hg) with
    (if negb (code_ok (get r "code")) then None
     else if missing_or_falsy (stamped r src hg) "release_date" then
       if truthy ex then Some (<["release_date" := ex]> (stamped r src hg))
       else from_rel_date (stamped r src hg)
     else Some (stamped r src hg)).
  by rewrite Hrd, Hrel.
Qed.

(** What [get_existing_release_date] returns is [None] or truthy, so for
    the Preparer's [existing_release_date] "non-null" and "truthy" agree. *)
Lemma get_existing_release_date_result {St} `{!Client St} t src s s' v :
  get_existing_release_date t src s = (s', inr v) →
  v = PNone ∨ truthy v = true.
Proof.
  unfold get_existing_release_date, try_catch, bind, ret.
  destruct (select_release_date t src s) as [s1 [e|[|first data]]];
    simpl; intros Heq; simplify_eq; auto.
  destruct (truthy (get first "release_date")) eqn:Ht; simplify_eq; auto.
Qed.

(** C6. Release-date resolution of the Preparer. For a record that passes
    the code check: a release_date already on the record (a non-empty
    value) is left as it is; otherwise a non-null (non-empty)
    [existing_release_date] is assigned; otherwise a [rel_date] carried by
    the record is promoted; otherwise the record is rejected. With
    "January 2025" tracked in the store for source "X", a record that only
    carries [rel_date = "Jan 2025"] comes out with
    [release_date = "January 2025"]. *)
Theorem prepare_release_date_resolution
    (r : record) (src : string) (ex : pyval) (hg : bool) :
  code_ok (get r "code") = true →
  (missing_or_falsy r "release_date" = false →
     ∃ out, prepare_record_for_insertion r src ex hg = Some out
            ∧ out !! "release_date" = r !! "release_date")
  ∧ (missing_or_falsy r "release_date" = true → truthy ex = true →
     ∃ out, prepare_record_for_insertion r src ex hg = Some out
            ∧ out !! "release_date" = Some ex)
  ∧ (missing_or_falsy r "release_date" = true → truthy ex = false →
     missing_or_falsy r "rel_date" = false →
     ∃ out, prepare_record_for_insertion r src ex hg = Some out
            ∧ out !! "release_date" = r !! "rel_date")
  ∧ (missing_or_falsy r "release_date" = true → truthy ex = false →
     missing_or_falsy r "rel_date" = true →
     prepare_record_for_insertion r src ex hg = None)
  ∧ (∃ out,
       _validate_and_prepare_records "t" "X" [unlabelled_record] tracked_store
         = (tracked_store, inr [out])
       ∧ out !! "release_date" = Some (PStr "January 2025")
       ∧ get unlabelled_record "rel_date" = PStr "Jan 2025").
Proof.
  intros Hcode. rewrite prepare_unfold, Hcode. simpl.
  repeat split.
  - intros ->. eexists; split; [done|]. apply stamped_release_date.
  - intros -> ->. eexists; split; [done|]. apply lookup_insert_eq.
  - intros -> -> Hrel. rewrite Hrel. simpl.
    eexists; split; [done|]. rewrite lookup_insert_eq.
    unfold missing_or_falsy in Hrel. unfold get.
    by destruct (r !! "rel_date").
  - by intros -> -> ->.
  - exists (<["release_date" := PStr "January 2025"]>
              (stamped unlabelled_record "X" false)).
    split_and!; by_compute.
Qed.

Lemma prepare_release_date_resolution_witness :
  ∃ out, prepare_record_for_insertion unlabelled_record "X"
           (PStr "January 2025") false = Some out
         ∧ out !! "release_date" = Some (PStr "January 2025").
Proof.
  apply (prepare_release_date_resolution unlabelled_record "X"
           (PStr "January 2025") false); by_compute.
Defined.

(** C8. Geozip forcing of the Preparer. Whenever the Preparer returns a
    record: with [has_geozip] false its geozip is null whatever the input
    carried; with [has_geozip] true and the input geozip missing or falsy
    it is set to null; with [has_geozip] true and a truthy input geozip it
    is the input's. *)
Theorem prepare_geozip_forcing
    (r : record) (src : string) (ex : pyval) (hg : bool) (out : record) :
  prepare_record_for_insertion r src ex hg = Some out →
  (hg = false → out !! "geozip" = Some PNone)
  ∧ (hg = true → missing_or_falsy r "geozip" = true →
     out !! "geozip" = Some PNone)
  ∧ (hg = true → missing_or_falsy r "geozip" = false →
     out !! "geozip" = r !! "geozip").
Proof.
  rewrite prepare_unfold. intros Hout.
  assert (Hgz : out !! "geozip" = stamped r src hg !! "geozip").
  { repeat case_match; simplify_eq; by rewrite ?lookup_insert_ne. }
  rewrite Hgz. repeat split.
  - intros ->. apply stamped_geozip_forced.
  - intros -> Hm. by rewrite stamped_geozip_kept, Hm.
  - intros -> Hm. by rewrite stamped_geozip_kept, Hm.
Qed.

Lemma prepare_geozip_forcing_witness :
  get stray_geozip_record "geozip" = PStr "070"
  ∧ ∃ out, prepare_record_for_insertion stray_geozip_record "X" PNone false
             = Some out
           ∧ out !! "geozip" = Some PNone.
Proof.
  split; [by_compute|].
  exists (stamped stray_geozip_record "X" false).
  assert (H : prepare_record_for_insertion stray_geozip_record "X" PNone false
              = Some (stamped stray_geozip_record "X" false))
    by by_compute.
  split; [exact H|].
  exact (proj1 (prepare_geozip_forcing _ _ _ _ _ H) eq_refl).
Defined.

(** ** The deduplication loop *)

Lemma first_seen_elem k ks : k ∈ first_seen ks ↔ k ∈ ks.
Proof.
  revert k. induction ks as [|a ks IH]; intros k; simpl; [done|].
  rewrite !elem_of_cons, list_elem_of_filter, IH.
  destruct (decide (k = a)); tauto.
Qed.

Lemma first_seen_NoDup ks : NoDup (first_seen ks).
Proof.
  induction ks as [|a ks IH]; simpl; [constructor|].
  constructor; [|by apply NoDup_filter].
  rewrite list_elem_of_filter. tauto.
Qed.

Lemma first_seen_snoc ks k :
  first_seen (ks ++ [k]) =
  if decide (k ∈ ks) then first_seen ks else first_seen ks ++ [k].
Proof.
  induction ks as [|a ks IH]; simpl; [done|].
  rewrite IH.
  destruct (decide (k ∈ a :: ks)) as [Hin|Hnin];
    destruct (decide (k ∈ ks)) as [Hin'|Hnin']; try done.
  - apply elem_of_cons in Hin as [->|?]; [|done].
    rewrite filter_app, filter_cons_False by (intros ?; done).
    by rewrite filter_nil, app_nil_r.
  - exfalso. apply Hnin. by right.
  - rewrite filter_app, filter_cons_True; [done|].
    intros ->. apply Hnin. by left.
Qed.

Lemma last_with_snoc_eq kf k l r :
  kf r = k → last_with kf k (l ++ [r]) = Some r.
Proof.
  intros Hk. unfold last_with.
  rewrite filter_app, filter_cons_True, filter_nil by done. apply last_snoc.
Qed.

Lemma last_with_snoc_ne kf k l r :
  kf r ≠ k → last_with kf k (l ++ [r]) = last_with kf k l.
Proof.
  intros Hk. unfold last_with.
  by rewrite filter_app, filter_cons_False, filter_nil, app_nil_r by done.
Qed.

Lemma dedup_inv_init : dedup_inv [] dedup_init.
Proof. split; simpl; done. Qed.

Lemma dedup_inv_step l st r :
  dedup_inv l st → dedup_inv (l ++ [r]) (dedup_step st r).
Proof.
  intros [Hkeys Hseen Hlast Hcount].
  assert (Hnd : NoDup (dedup_key <$> deduplicated_records st)).
  { rewrite Hkeys. apply first_seen_NoDup. }
  unfold dedup_step.
  destruct (seen_keys st !! dedup_key r) as [index|] eqn:Hlk.
  - pose proof (proj1 (Hseen _ _) Hlk) as Hidx.
    assert (Hin : dedup_key r ∈ dedup_key <$> l).
    { apply first_seen_elem. rewrite <- Hkeys.
      by eapply list_elem_of_lookup_2. }
    assert (Hsame : dedup_key <$> <[index := r]> (deduplicated_records st)
                    = dedup_key <$> deduplicated_records st).
    { rewrite list_fmap_insert. by apply list_insert_id. }
    split; simpl.
    + rewrite Hsame, fmap_app. simpl.
      by rewrite first_seen_snoc, decide_True.
    + by rewrite Hsame.
    + intros i r' Hi.
      destruct (decide (i = index)) as [->|Hne].
      * assert (index < length (deduplicated_records st)) as Hlt.
        { apply lookup_lt_Some in Hidx. by rewrite length_fmap in Hidx. }
        rewrite list_lookup_insert_eq in Hi by done. simplify_eq.
        by apply last_with_snoc_eq.
      * rewrite list_lookup_insert_ne in Hi by done.
        rewrite last_with_snoc_ne; [by eapply Hlast|].
        intros Heq. apply Hne. symmetry.
        eapply NoDup_lookup; [exact Hnd|exact Hidx|].
        rewrite list_lookup_fmap, Hi. simpl. by rewrite Heq.
    + rewrite length_insert, length_app. simpl. lia.
  - assert (Hnin : dedup_key r ∉ dedup_key <$> deduplicated_records st).
    { intros [i Hi]%list_elem_of_lookup_1.
      apply Hseen in Hi. congruence. }
    assert (Hnin' : dedup_key r ∉ dedup_key <$> l).
    { by rewrite <- first_seen_elem, <- Hkeys. }
    split; simpl.
    + rewrite !fmap_app. simpl.
      by rewrite first_seen_snoc, decide_False, Hkeys.
    + intros k i. rewrite fmap_app. simpl.
      rewrite lookup_insert. case_decide as Hk.
      * subst k. split.
        -- intros [= <-]. rewrite lookup_app_r, length_fmap by
             (by rewrite length_fmap).
           by rewrite Nat.sub_diag.
        -- intros Hi. f_equal.
           apply lookup_snoc_Some in Hi as [[_ Hi]|[Hi _]].
           ++ exfalso. apply Hnin. by eapply list_elem_of_lookup_2.
           ++ by rewrite length_fmap in Hi.
      * rewrite Hseen. split.
        -- apply lookup_app_l_Some.
        -- intros Hi. apply lookup_snoc_Some in Hi as [[_ Hi]|[_ Hi]];
             [done|congruence].
    + intros i r' Hi.
      apply lookup_snoc_Some in Hi as [[_ Hi]|[_ <-]].
      * rewrite last_with_snoc_ne; [by eapply Hlast|].
        intros Heq. apply Hnin. rewrite Heq.
        apply list_elem_of_fmap_2. by eapply list_elem_of_lookup_2.
      * by apply last_with_snoc_eq.
    + rewrite !length_app. simpl. lia.
Qed.

Lemma dedup_inv_fold l l0 st :
  dedup_inv l0 st → dedup_inv (l0 ++ l) (fold_left dedup_step l st).
Proof.
  revert l0 st. induction l as [|r l IH]; intros l0 st Hinv; simpl.
  - by rewrite app_nil_r.
  - rewrite (assoc_L _ l0 [r] l : l0 ++ r :: l = (l0 ++ [r]) ++ l).
    apply IH. by apply dedup_inv_step.
Qed.

Lemma dedup_inv_dedup l : dedup_inv l (dedup l).
Proof. apply (dedup_inv_fold l [] dedup_init), dedup_inv_init. Qed.

(** What the Preparer guarantees about the key fields of its output. *)
Lemma stamped_geozip_cases r src hg :
  get (stamped r src hg) "geozip" = PNone
  ∨ truthy (get (stamped r src hg) "geozip") = true.
Proof.
  unfold get at 1 2. destruct hg.
  - rewrite stamped_geozip_kept.
    destruct (missing_or_falsy r "geozip") eqn:Hm; [by left|right].
    rewrite missing_or_falsy_get in Hm. unfold get in Hm.
    by apply negb_false_iff.
  - rewrite stamped_geozip_forced. by left.
Qed.

Lemma prepared_fields r :
  prepared r →
  truthy (get r "release_date") = true
  ∧ (get r "geozip" = PNone ∨ truthy (get r "geozip") = true).
Proof.
  intros (r0 & src & ex & hg & H). rewrite prepare_unfold in H.
  pose proof (stamped_geozip_cases r0 src hg) as Hgz.
  assert (Hkeep : ∀ v, get (<["release_date" := v]> (stamped r0 src hg)) "geozip"
                       = get (stamped r0 src hg) "geozip").
  { intros v. unfold get. by rewrite lookup_insert_ne. }
  destruct (negb (code_ok (get r0 "code"))); [done|].
  destruct (missing_or_falsy r0 "release_date") eqn:Hrd.
  - destruct (truthy ex) eqn:Hex.
    + simplify_eq. rewrite Hkeep. split; [|done].
      unfold get. by rewrite lookup_insert_eq.
    + destruct (missing_or_falsy r0 "rel_date") eqn:Hrel; simpl in H; [done|].
      simplify_eq. rewrite Hkeep. split; [|done].
      unfold get at 1. rewrite lookup_insert_eq. simpl.
      rewrite missing_or_falsy_get in Hrel. by apply negb_false_iff.
  - simplify_eq. split; [|done].
    unfold get. rewrite stamped_release_date.
    rewrite missing_or_falsy_get in Hrd. by apply negb_false_iff.
Qed.

(** On Preparer outputs the key of the loop is the composite key itself. *)
Lemma prepared_dedup_key r : prepared r → dedup_key r = composite_key r.
Proof.
  intros [Hrd Hgz]%prepared_fields.
  unfold dedup_key, composite_key, py_or. rewrite Hrd.
  destruct Hgz as [->| ->]; done.
Qed.

Lemma prepared_dedup_keys l :
  Forall prepared l → dedup_key <$> l = composite_key <$> l.
Proof.
  induction 1 as [|r l Hr _ IH]; [done|].
  by rewrite !fmap_cons, IH, prepared_dedup_key.
Qed.

Lemma dedup_output_subset l r :
  r ∈ deduplicated_records (dedup l) → r ∈ l.
Proof.
  intros [i Hi]%list_elem_of_lookup_1.
  apply (inv_last _ _ (dedup_inv_dedup l)) in Hi.
  unfold last_with in Hi.
  apply last_Some_elem_of, list_elem_of_filter in Hi. tauto.
Qed.

Lemma last_with_ext kf kf' k l :
  (∀ r, r ∈ l → kf r = kf' r) → last_with kf k l = last_with kf' k l.
Proof.
  intros Hext. unfold last_with. f_equal.
  induction l as [|r l IH]; [done|].
  rewrite !filter_cons, IH by (intros; apply Hext; by right).
  rewrite (Hext r) by left. done.
Qed.

(** C2. Deduplication of a list of prepared records: the output holds
    exactly one record per distinct composite key
    [(source, code, release_date, geozip)] of the input; each output record
    is the last input record with its key; the output keys come in the
    order in which they are first seen in the input; and
    [duplicates_removed] is [len(input) - len(output)]. *)
Theorem dedup_correct (l : list record) :
  Forall prepared l →
  let out := deduplicated_records (dedup l) in
  NoDup (composite_key <$> out)
  ∧ (∀ k, k ∈ composite_key <$> out ↔ k ∈ composite_key <$> l)
  ∧ (∀ r, r ∈ out → last_with composite_key (composite_key r) l = Some r)
  ∧ composite_key <$> out = first_seen (composite_key <$> l)
  ∧ length out ≤ length l
  ∧ duplicates_removed (dedup l) = length l - length out.
Proof.
  intros Hprep. simpl.
  destruct (dedup_inv_dedup l) as [Hkeys Hseen Hlast Hcount].
  set (out := deduplicated_records (dedup l)) in *.
  assert (Hout : Forall prepared out).
  { apply Forall_forall. intros r Hr.
    eapply (proj1 (Forall_forall _ _) Hprep), dedup_output_subset, Hr. }
  assert (Hk : composite_key <$> out = first_seen (composite_key <$> l)).
  { by rewrite <- !prepared_dedup_keys. }
  split_and!.
  - rewrite Hk. apply first_seen_NoDup.
  - intros k. rewrite Hk. apply first_seen_elem.
  - intros r [i Hi]%list_elem_of_lookup_1.
    rewrite <- (prepared_dedup_key r)
      by (eapply (proj1 (Forall_forall _ _) Hout), list_elem_of_lookup_2, Hi).
    rewrite <- (last_with_ext dedup_key composite_key); [by eapply Hlast|].
    intros r' Hr'. apply prepared_dedup_key.
    by eapply (proj1 (Forall_forall _ _) Hprep).
  - done.
  - lia.
  - lia.
Qed.

Lemma scenario_batch_prepared : Forall prepared scenario_batch.
Proof.
  unfold scenario_batch.
  repeat (apply Forall_cons_2;
          [match goal with
           | |- prepared ?r => exists r, "X", PNone, false
           end; by_compute|]).
  apply Forall_nil_2.
Defined.

Lemma dedup_correct_witness :
  deduplicated_records (dedup scenario_batch)
    = [mk_record "X" "99213" "Jan 2025" PNone 55;
       mk_record "X" "99214" "Jan 2025" PNone 70]
  ∧ duplicates_removed (dedup scenario_batch)
    = length scenario_batch
      - length (deduplicated_records (dedup scenario_batch)).
Proof.
  split; [by_compute|].
  apply (dedup_correct scenario_batch scenario_batch_prepared).
Defined.

(** ** The existence check of [_process_chunk] *)

Lemma filter_none {A} (P : A → Prop) `{∀ x, Decision (P x)} (l : list A) :
  (∀ x, x ∈ l → ¬ P x) → filter P l = [].
Proof.
  induction l as [|x l IH]; intros Hl; [done|].
  rewrite filter_cons_False by (apply Hl; left).
  apply IH. intros y Hy. apply Hl. by right.
Qed.

Lemma build_lookup_fold (data : list record) (m : gmap key pyval) (k : key) :
  fold_left (λ m existing, <[lookup_key existing := get existing "id"]> m)
            data m !! k
  = match last (filter (λ row, lookup_key row = k) data) with
    | Some row => Some (get row "id")
    | None => m !! k
    end.
Proof.
  revert m. induction data as [|row data IH]; intros m; simpl; [done|].
  rewrite IH, filter_cons. case_decide as Hk.
  - rewrite last_cons. destruct (last (filter _ data)); [done|].
    subst k. apply lookup_insert_eq.
  - destruct (last (filter _ data)); [done|]. by apply lookup_insert_ne.
Qed.

(** The lookup maps a key to the [id] of the last response row with it. *)
Lemma build_lookup_spec (data : list record) (k : key) :
  build_lookup data !! k
  = (λ row, get row "id") <$> last (filter (λ row, lookup_key row = k) data).
Proof.
  unfold build_lookup. rewrite build_lookup_fold.
  by destruct (last _).
Qed.

Lemma build_lookup_Some (data : list record) (k : key) (i : pyval) :
  build_lookup data !! k = Some i →
  ∃ row, row ∈ data ∧ lookup_key row = k ∧ get row "id" = i.
Proof.
  rewrite build_lookup_spec.
  destruct (last _) as [row|] eqn:Hl; simpl; [|done].
  intros [= <-]. exists row.
  apply last_Some_elem_of, list_elem_of_filter in Hl. tauto.
Qed.

Lemma build_lookup_None (data : list record) (k : key) :
  build_lookup data !! k = None ↔ k ∉ lookup_key <$> data.
Proof.
  rewrite build_lookup_spec, fmap_None, last_None, list_elem_of_fmap.
  split.
  - intros Hf (row & -> & Hin).
    by eapply (filter_nil_not_elem_of _ _ row Hf).
  - intros Hn. apply filter_none.
    intros row Hin Hk. apply Hn. by exists row.
Qed.

Lemma classify_fst (ex : gmap key pyval) (chunk : list record) :
  (classify ex chunk).1 = filter (λ r, ex !! lookup_key r = None) chunk.
Proof.
  induction chunk as [|r chunk IH]; simpl; [done|].
  destruct (classify ex chunk) as [ins upd]. simpl in IH. subst ins.
  rewrite filter_cons. destruct (ex !! lookup_key r); by case_decide.
Qed.

Lemma classify_snd (ex : gmap key pyval) (chunk : list record) :
  (classify ex chunk).2
  = omap (λ r, (λ i, <["id" := i]> r) <$> ex !! lookup_key r) chunk.
Proof.
  induction chunk as [|r chunk IH]; simpl; [done|].
  destruct (classify ex chunk) as [ins upd]. simpl in IH. subst upd.
  by destruct (ex !! lookup_key r).
Qed.

Lemma classify_lengths (ex : gmap key pyval) (chunk : list record) :
  length (classify ex chunk).1 + length (classify ex chunk).2 = length chunk.
Proof.
  induction chunk as [|r chunk IH]; simpl; [done|].
  destruct (classify ex chunk) as [ins upd].
  destruct (ex !! lookup_key r); simpl in *; lia.
Qed.

(** C5. Null-geozip isolation. Existence check: the key of a record whose
    geozip is null differs from the key of every response row whose geozip
    is not null (the empty string included); such a record is classified
    for insert when no response row has a null geozip, and when it is
    matched the matching row has a null geozip. Deduplication: among the
    validated records the loop runs on, a record with a null geozip shares
    its key only with records whose geozip is null. Nothing maps a null
    geozip to the empty string. *)
Theorem null_geozip_isolation :
  (∀ (r row : record),
     get r "geozip" = PNone → get row "geozip" ≠ PNone →
     lookup_key row ≠ lookup_key r)
  ∧ (∀ (data chunk : list record) (r : record),
       r ∈ chunk → get r "geozip" = PNone →
       (∀ row, row ∈ data → get row "geozip" ≠ PNone) →
       r ∈ (classify (build_lookup data) chunk).1)
  ∧ (∀ (data : list record) (r : record) (i : pyval),
       get r "geozip" = PNone →
       build_lookup data !! lookup_key r = Some i →
       ∃ row, row ∈ data ∧ get row "geozip" = PNone ∧ get row "id" = i)
  ∧ (∀ (raw : list record) (src : string) (ex : pyval) (hg : bool)
       (r1 r2 : record),
       let validated :=
         omap (λ r, prepare_record_for_insertion r src ex hg) raw in
       r1 ∈ validated → r2 ∈ validated →
       get r1 "geozip" = PNone → dedup_key r1 = dedup_key r2 →
       get r2 "geozip" = PNone)
  ∧ (∀ r : record, get r "geozip" = PNone →
       (lookup_key r).2 = PNone ∧ (dedup_key r).2 = PNone).
Proof.
  assert (H1 : ∀ r row : record,
             get r "geozip" = PNone → get row "geozip" ≠ PNone →
             lookup_key row ≠ lookup_key r).
  { intros r row Hr Hrow Heq. apply Hrow. rewrite <- Hr.
    unfold lookup_key in Heq. by simplify_eq. }
  split_and!; [exact H1|..].
  - intros data chunk r Hin Hr Hdata.
    rewrite classify_fst. apply list_elem_of_filter. split; [|done].
    apply build_lookup_None. intros (row & Hk & Hrow)%list_elem_of_fmap.
    by eapply H1; [exact Hr|apply Hdata, Hrow|].
  - intros data r i Hr (row & Hrow & Hk & Hid)%build_lookup_Some.
    exists row. split_and!; [done| |done].
    unfold lookup_key in Hk. simplify_eq. congruence.
  - intros raw src ex hg r1 r2 validated Hr1 Hr2 Hgz Hk.
    assert (Hp : ∀ r, r ∈ validated → prepared r).
    { intros r (r0 & _ & Hr)%list_elem_of_omap. by exists r0, src, ex, hg. }
    rewrite !prepared_dedup_key in Hk by auto.
    unfold composite_key in Hk. simplify_eq. congruence.
  - intros r Hr. unfold lookup_key, dedup_key, py_or. simpl.
    by rewrite Hr.
Qed.

Lemma null_geozip_isolation_witness :
  jan_record ∈ (classify (build_lookup [blank_geozip_row]) [jan_record]).1.
Proof.
  apply (proj1 (proj2 null_geozip_isolation) [blank_geozip_row] [jan_record]).
  - by left.
  - by_compute.
  - intros row ->%list_elem_of_singleton. by_compute.
Defined.

Lemma get_project_keys (row : record) (c : string) :
  c ∈ ["id"; "code"; "source"; "release_date"; "geozip"] →
  get (project ["id"; "code"; "source"; "release_date"; "geozip"] row) c
  = get row c.
Proof.
  intros Hc. unfold project, get at 1. simpl.
  repeat (apply elem_of_cons in Hc as [->|Hc];
          [by rewrite ?lookup_insert_ne, ?lookup_insert_eq by done|]).
  by apply elem_of_nil in Hc.
Qed.

(** The in-memory store honours the filters of the existence query. *)
Lemma mem_select_keys_sound t src d codes (s s' : mem_store) data :
  select_keys t src d codes s = (s', inr data) →
  ∀ row, row ∈ data →
    get row "source" = PStr src ∧ get row "release_date" = d
    ∧ get row "code" ∈ codes.
Proof.
  simpl. unfold mem_select_keys. intros [= <- <-] row.
  intros (row' & -> & Hin)%list_elem_of_fmap.
  apply list_elem_of_filter in Hin as [Hm _].
  apply andb_prop_elim in Hm as [Hm Hc].
  apply andb_prop_elim in Hm as [Hs Hd].
  apply bool_decide_unpack in Hs, Hd, Hc.
  rewrite !get_project_keys by set_solver. done.
Qed.

Section FirstReleaseDate.
Context {St : Type} `{!Client St}.

(** The storage honours [.eq("release_date", d)]. *)
Hypothesis select_keys_filters :
  ∀ t src d codes (s s' : St) data,
    select_keys t src d codes s = (s', inr data) →
    ∀ row, row ∈ data → get row "release_date" = d.

(** C10. The existence check of a chunk is keyed by the release date of
    its first record: the check always returns a lookup, every key of
    that lookup carries the first record's [release_date], and therefore
    a record of the chunk whose [release_date] differs from the first
    record's is not found in the lookup and is classified for insert,
    whatever the store holds. *)
Theorem chunk_lookup_uses_first_release_date
    (t src : string) (r0 : record) (rest : list record) (s : St) :
  ∃ s' ex,
    existing_lookup t src (r0 :: rest) s = (s', inr ex)
    ∧ (∀ k i, ex !! k = Some i → k.1.2 = get r0 "release_date")
    ∧ (∀ r, r ∈ r0 :: rest →
         get r "release_date" ≠ get r0 "release_date" →
         ex !! lookup_key r = None
         ∧ r ∈ (classify ex (r0 :: rest)).1).
Proof.
  assert (Hkeys : ∃ s' ex,
            existing_lookup t src (r0 :: rest) s = (s', inr ex)
            ∧ ∀ k i, ex !! k = Some i → k.1.2 = get r0 "release_date").
  { unfold existing_lookup.
    destruct (bool_decide _ && truthy _).
    - unfold try_catch, bind, ret.
      destruct (select_keys _ _ _ _ s) as [s1 [e|data]] eqn:Hsel.
      + exists s1, ∅. split; [done|]. intros k i. by rewrite lookup_empty.
      + exists s1, (build_lookup data). split; [done|].
        intros k i (row & Hrow & <- & _)%build_lookup_Some.
        simpl. by eapply select_keys_filters.
    - exists s, ∅. split; [done|]. intros k i. by rewrite lookup_empty. }
  destruct Hkeys as (s' & ex & Hex & Hk).
  exists s', ex. split_and!; [done..|].
  intros r Hr Hne.
  assert (Hnone : ex !! lookup_key r = None).
  { destruct (ex !! lookup_key r) as [i|] eqn:Hl; [|done].
    apply Hk in Hl. by destruct Hne. }
  split; [done|]. rewrite classify_fst. by apply list_elem_of_filter.
Qed.
End FirstReleaseDate.

Lemma chunk_lookup_uses_first_release_date_witness :
  composite_key feb_record ∈ composite_key <$> rows two_release_store
  ∧ ∃ s' ex,
      existing_lookup "t" "X" [jan_record; feb_record] two_release_store
        = (s', inr ex)
      ∧ feb_record ∈ (classify ex [jan_record; feb_record]).1.
Proof.
  split.
  - by_compute.
  - destruct (chunk_lookup_uses_first_release_date (St := mem_store)
                (λ t src d codes s s' data Hsel row Hrow,
                   proj1 (proj2 (mem_select_keys_sound t src d codes s s' data
                                   Hsel row Hrow)))
                "t" "X" jan_record [feb_record] two_release_store)
      as (s' & ex & Hex & _ & Hins).
    exists s', ex. split; [exact Hex|].
    apply Hins; [right; left|]. by_compute.
Defined.

(** ** The write phase of [_process_chunk] *)

Lemma count_of_cons {A} (f : A → bool) (x : A) (l : list A) :
  count_of f (x :: l) = (if f x then 1 else 0) + count_of f l.
Proof.
  unfold count_of. rewrite filter_cons. destruct (f x).
  - by rewrite decide_True.
  - by rewrite decide_False by (by intros []).
Qed.

Lemma outcome_counts (os : list (exn + unit)) :
  count_of went_through os + count_of hit_conflict os
  + count_of failed_otherwise os = length os.
Proof.
  induction os as [|o os IH]; [done|].
  rewrite !count_of_cons. simpl length.
  destruct o as [e|[]]; simpl; [destruct (is_conflict e); simpl|]; lia.
Qed.

Section WritePhase.
Context {St : Type} `{!Client St}.

Lemma individual_inserts_length t (rs : list record) (s : St) :
  length (individual_inserts t rs s).2 = length rs.
Proof.
  revert s. induction rs as [|r rs IH]; intros s; simpl; [done|].
  destruct (insert_row t r s) as [s1 o].
  specialize (IH s1). destruct (individual_inserts t rs s1) as [s2 os].
  simpl in *. by rewrite IH.
Qed.

(** The fallback loop in closed form. *)
Lemma fallback_inserts_spec t (rs : list record) (i u : nat) (s : St) :
  fallback_inserts t rs i u s
  = ((individual_inserts t rs s).1,
     inr (i + count_of went_through (individual_inserts t rs s).2,
          u + count_of hit_conflict (individual_inserts t rs s).2)).
Proof.
  revert i u s. induction rs as [|r rs IH]; intros i u s; simpl.
  - unfold ret, count_of. simpl. by rewrite !Nat.add_0_r.
  - unfold bind at 1, try_catch, bind, ret.
    destruct (insert_row t r s) as [s1 [e|[]]]; simpl;
      [destruct (is_conflict e) eqn:He|]; simpl; rewrite IH;
      destruct (individual_inserts t rs s1) as [s2 os]; simpl;
      rewrite !count_of_cons; simpl; rewrite ?He; simpl;
      do 2 f_equal; f_equal; lia.
Qed.

(** The update loop never raises and counts what went through. *)
Lemma update_existing_total t (rs : list record) (u : nat) (s : St) :
  ∃ s' n, update_existing t rs u s = (s', inr (u + n)) ∧ n ≤ length rs.
Proof.
  revert u s. induction rs as [|r rs IH]; intros u s; simpl.
  - exists s, 0. unfold ret. by rewrite Nat.add_0_r.
  - unfold bind at 1, try_catch.
    destruct (r !! "id") as [record_id|].
    + unfold bind, ret.
      destruct (update_row t (delete "id" r) record_id s) as [s1 [e|[]]];
        simpl.
      * destruct (IH u s1) as (s' & n & -> & Hn). exists s', n.
        split; [done|lia].
      * destruct (IH (S u) s1) as (s' & n & -> & Hn). exists s', (S n).
        split; [do 2 f_equal; lia|lia].
    + unfold raise, ret. simpl.
      destruct (IH u s) as (s' & n & -> & Hn). exists s', n.
      split; [done|lia].
Qed.

Lemma existing_lookup_total t src (chunk : list record) (s : St) :
  ∃ s' ex, existing_lookup t src chunk s = (s', inr ex).
Proof.
  unfold existing_lookup. destruct (_ && _); [|by eexists _, _].
  unfold try_catch, bind, ret.
  destruct (select_keys _ _ _ _ s) as [s1 [e|data]]; by eexists _, _.
Qed.

Lemma insert_new_total t (rs : list record) (s : St) :
  ∃ s' i u, insert_new t rs s = (s', inr (i, u)) ∧ i + u ≤ length rs.
Proof.
  destruct rs as [|r rs]; [by exists s, 0, 0|].
  unfold insert_new, try_catch, bind, ret.
  destruct (insert_rows t (r :: rs) s) as [s1 [e|[]]].
  - rewrite fallback_inserts_spec. eexists _, _, _. split; [done|].
    pose proof (outcome_counts (individual_inserts t (r :: rs) s1).2).
    rewrite individual_inserts_length in *. lia.
  - eexists _, _, _. split; [done|]. lia.
Qed.

(** [_process_chunk] returns on every chunk and in every state: each
    storage call in it sits in a [try] of its own. *)
Lemma process_chunk_total t src (chunk : list record) (s : St) :
  ∃ s' i u, _process_chunk t src chunk s = (s', inr (i, u))
            ∧ i + u ≤ length chunk.
Proof.
  unfold _process_chunk. unfold bind at 1.
  destruct (existing_lookup_total t src chunk s) as (s0 & ex & ->).
  pose proof (classify_lengths ex chunk) as Hlen.
  destruct (classify ex chunk) as [ins upd]. simpl in Hlen.
  unfold bind at 1.
  destruct (insert_new_total t ins s0) as (s1 & i & u & -> & Hiu).
  unfold bind, ret. simpl.
  destruct (update_existing_total t upd u s1) as (s2 & n & -> & Hn).
  exists s2, i, (u + n). split; [done|lia].
Qed.
End WritePhase.

(** ** The chunk loop *)

Lemma py_range_shift (start stop step : nat) :
  py_range start stop step = (λ j, start + j) <$> py_range 0 (stop - start) step.
Proof.
  unfold py_range. rewrite Nat.sub_0_r, <- list_fmap_compose.
  by apply list_fmap_ext.
Qed.

Lemma py_range_nil (step : nat) : 0 < step → py_range 0 0 step = [].
Proof.
  intros Hs. unfold py_range. simpl.
  by rewrite Nat.div_small by lia.
Qed.

Lemma py_range_cons (stop step : nat) :
  0 < step → 0 < stop →
  py_range 0 stop step = 0 :: ((λ j, step + j) <$> py_range 0 (stop - step) step).
Proof.
  intros Hs Hn. unfold py_range. rewrite !Nat.sub_0_r.
  assert (Hdiv : (stop + (step - 1)) / step
                 = S ((stop - step + (step - 1)) / step)).
  { destruct (decide (stop < step)) as [Hlt|Hge].
    - replace (stop - step) with 0 by lia.
      rewrite (Nat.div_small (0 + (step - 1))) by lia.
      replace (stop + (step - 1)) with ((stop - 1) + 1 * step) by lia.
      rewrite Nat.div_add by lia. rewrite Nat.div_small by lia. done.
    - replace (stop + (step - 1)) with ((stop - step + (step - 1)) + 1 * step)
        by lia.
      rewrite Nat.div_add by lia. lia. }
  rewrite Hdiv. simpl seq. rewrite fmap_cons. f_equal.
  rewrite <- fmap_S_seq, <- !list_fmap_compose.
  apply list_fmap_ext. intros _ k _. simpl. lia.
Qed.

Lemma chunks_fuel_range {A} (fuel cs : nat) (l : list A) :
  0 < cs → length l ≤ fuel →
  chunks_fuel fuel cs l
  = (λ i, take cs (drop i l)) <$> py_range 0 (length l) cs.
Proof.
  intros Hcs. revert l. induction fuel as [|fuel IH]; intros l Hlen.
  - destruct l; simpl in *; [|lia]. by rewrite py_range_nil.
  - destruct l as [|x l]; [by rewrite py_range_nil|].
    rewrite py_range_cons by (simpl; lia).
    change (chunks_fuel (S fuel) cs (x :: l))
      with (take cs (x :: l) :: chunks_fuel fuel cs (drop cs (x :: l))).
    rewrite fmap_cons. f_equal.
    rewrite IH by (rewrite length_drop; simpl in *; lia).
    rewrite length_drop, <- list_fmap_compose.
    apply list_fmap_ext. intros _ j _. simpl. by rewrite drop_drop.
Qed.

(** The slices [records[i:i + chunk_size]] the loop visits are the
    consecutive chunks of the records from [start_index] on. *)
Lemma loop_chunks {A} (records : list A) (start cs : nat) :
  0 < cs →
  (λ i, take cs (drop i records)) <$> py_range start (length records) cs
  = chunks_of cs (drop start records).
Proof.
  intros Hcs. unfold chunks_of.
  rewrite chunks_fuel_range, length_drop by done.
  rewrite py_range_shift, <- list_fmap_compose.
  apply list_fmap_ext. intros _ j _. simpl. by rewrite drop_drop.
Qed.

Lemma chunks_fuel_nonempty {A} (fuel cs : nat) (l : list A) (c : list A) :
  0 < cs → c ∈ chunks_fuel fuel cs l → 0 < length c.
Proof.
  intros Hcs. revert l. induction fuel as [|fuel IH]; intros l; simpl.
  - by intros ?%elem_of_nil.
  - destruct l as [|x l]; [by intros ?%elem_of_nil|].
    intros [->|Hc]%elem_of_cons; [|by eapply IH].
    rewrite length_take. simpl. lia.
Qed.

Section ChunkLoop.
Context {St : Type}.
Variable process : string → string → list record → M St (nat * nat).

Lemma chunk_outcomes_length t src (chunks : list (list record)) (s : St) :
  length (chunk_outcomes process t src chunks s).2 = length chunks.
Proof.
  revert s. induction chunks as [|c chunks IH]; intros s; simpl; [done|].
  destruct (process t src c s) as [s1 o]. specialize (IH s1).
  destruct (chunk_outcomes process t src chunks s1). simpl in *. lia.
Qed.

(** The loop in closed form, over the indices [start + k * cs] for [k]
    from [a] on. *)
Lemma chunk_loop_spec t src (records : list record) (start cs a n : nat)
    (tot : totals) (s : St) :
  0 < cs →
  let chunks :=
    (λ i, take cs (drop i records)) <$> ((λ k, start + k * cs) <$> seq a n) in
  let run := chunk_outcomes process t src chunks s in
  chunk_loop process t src records start cs
             ((λ k, start + k * cs) <$> seq a n) tot s
  = (run.1,
     inr (mk_totals
            (total_inserted tot + sum_list (inserted_in <$> run.2))
            (total_updated tot + sum_list (updated_in <$> run.2))
            (total_failed tot + failed_records chunks run.2)
            (failed tot ++ failed_numbers (S a) run.2))).
Proof.
  intros Hcs. revert a tot s. induction n as [|n IH]; intros a tot s.
  - simpl. unfold ret. destruct tot. simpl.
    by rewrite !Nat.add_0_r, app_nil_r.
  - simpl seq. rewrite !fmap_cons. simpl chunk_loop. simpl chunk_outcomes.
    assert (Hnum : (start + a * cs - start) / cs + 1 = S a).
    { replace (start + a * cs - start) with (a * cs) by lia.
      rewrite Nat.div_mul by lia. lia. }
    rewrite Hnum. unfold bind at 1, try_catch, bind at 1, ret.
    destruct (process t src (take cs (drop (start + a * cs) records)) s)
      as [s1 [e|c]]; simpl.
    + rewrite IH. simpl.
      destruct (chunk_outcomes process t src _ s1) as [s2 os]. simpl.
      do 3 f_equal; try lia. by rewrite <- app_assoc.
    + rewrite IH. simpl.
      destruct (chunk_outcomes process t src _ s1) as [s2 os]. simpl.
      do 3 f_equal; try lia; symmetry; apply Nat.add_assoc.
Qed.

Lemma failed_records_zero (chunks : list (list record))
    (os : list (exn + nat * nat)) :
  length os = length chunks →
  (∀ c, c ∈ chunks → 0 < length c) →
  failed_records chunks os = 0 ↔ ∀ o, o ∈ os → chunk_raised o = false.
Proof.
  revert os. induction chunks as [|c chunks IH]; intros [|o os] Hlen Hne;
    simpl in *; try lia.
  - split; [|done]. by intros _ o ?%elem_of_nil.
  - assert (Hc : 0 < length c) by (apply Hne; left).
    specialize (IH os ltac:(lia) ltac:(intros; apply Hne; by right)).
    destruct (chunk_raised o) eqn:Ho; simpl.
    + split; [lia|]. intros Hall.
      specialize (Hall o ltac:(left)). congruence.
    + rewrite IH. split.
      * intros Hall o' [->|?]%elem_of_cons; auto.
      * intros Hall o' Ho'. apply Hall. by right.
Qed.

Lemma failed_records_pos (chunks : list (list record))
    (os : list (exn + nat * nat)) :
  0 < failed_records chunks os → ∃ o, o ∈ os ∧ chunk_raised o = true.
Proof.
  revert os. induction chunks as [|c chunks IH]; intros [|o os]; simpl;
    try lia.
  destruct (chunk_raised o) eqn:Ho.
  - intros _. exists o. split; [left|done].
  - intros (o' & Ho' & Hr)%IH. exists o'. split; [by right|done].
Qed.

(** The loop and the final dictionary in closed form. *)
Lemma process_remaining_spec t src (records : list record)
    (cs start si su : nat) (s : St) :
  0 < cs →
  let chunks := chunks_of cs (drop start records) in
  let run := chunk_outcomes process t src chunks s in
  process_remaining process t src records (Z.of_nat cs) start si su s
  = (run.1,
     inr (final_result t
            (mk_totals (si + sum_list (inserted_in <$> run.2))
                       (su + sum_list (updated_in <$> run.2))
                       (failed_records chunks run.2)
                       (failed_numbers 1 run.2)))).
Proof.
  intros Hcs chunks run. unfold process_remaining.
  rewrite (proj2 (Z.eqb_neq _ 0)) by lia.
  rewrite (proj2 (Z.ltb_ge _ 0)) by lia.
  rewrite Nat2Z.id. unfold bind, py_range.
  rewrite chunk_loop_spec by done.
  fold (py_range start (length records) cs).
  rewrite loop_chunks by done. fold chunks. fold run. done.
Qed.

(** C4. Partial failure containment in the chunk loop (lines 190-228),
    for any behaviour of the chunk processor. Every chunk of the records
    after [start_index] is processed in turn, whether or not an earlier
    one raised; a chunk that raises adds its full length to
    [records_failed] and its number to [failed_chunks]; the chunks that
    return add their inserts and updates; the status is ["success"]
    exactly when no chunk raised and ["partial_success"] exactly when at
    least one did. *)
Theorem partial_failure_containment t src (records : list record)
    (cs start si su : nat) (s : St) :
  0 < cs →
  let chunks := chunks_of cs (drop start records) in
  let run := chunk_outcomes process t src chunks s in
  ∃ res,
    process_remaining process t src records (Z.of_nat cs) start si su s
      = (run.1, inr res)
    ∧ length run.2 = length chunks
    ∧ records_failed res = failed_records chunks run.2
    ∧ failed_chunks res = failed_numbers 1 run.2
    ∧ records_inserted res = si + sum_list (inserted_in <$> run.2)
    ∧ records_updated res = su + sum_list (updated_in <$> run.2)
    ∧ (status res = "success" ↔ ∀ o, o ∈ run.2 → chunk_raised o = false)
    ∧ (status res = "partial_success"
       ↔ ∃ o, o ∈ run.2 ∧ chunk_raised o = true).
Proof.
  intros Hcs chunks run.
  pose proof (process_remaining_spec t src records cs start si su s Hcs)
    as Hspec. cbv zeta in Hspec. fold chunks in Hspec. fold run in Hspec.
  rewrite Hspec. clear Hspec.
  pose proof (chunk_outcomes_length t src chunks s) as Hlen. fold run in Hlen.
  assert (Hzero : failed_records chunks run.2 = 0
                  ↔ ∀ o, o ∈ run.2 → chunk_raised o = false).
  { apply failed_records_zero; [done|].
    intros c Hc. by eapply chunks_fuel_nonempty. }
  eexists. split; [reflexivity|]. simpl.
  split_and!; try done.
  - rewrite <- Hzero. destruct (failed_records chunks run.2); simpl; [done|].
    split; [discriminate|lia].
  - destruct (failed_records chunks run.2) eqn:Hf; simpl.
    + split; [discriminate|]. intros (o & Ho & Hr).
      rewrite (proj1 Hzero eq_refl o Ho) in Hr. discriminate.
    + split; [intros _|done].
      apply (failed_records_pos chunks). lia.
Qed.
End ChunkLoop.

Lemma partial_failure_containment_witness :
  ∃ s' res,
    process_remaining raising_on_feb "t" "X" five_records 1 0 0 0 mem_empty
      = (s', inr res)
    ∧ status res = "partial_success"
    ∧ failed_chunks res = [2]
    ∧ records_failed res = 1
    ∧ records_inserted res = 4.
Proof.
  pose proof (partial_failure_containment raising_on_feb "t" "X"
                five_records 1 0 0 0 mem_empty ltac:(lia)) as H.
  cbv zeta in H.
  destruct H as (res & Hrun & _ & Hf & Hn & Hi & _ & _ & Hs).
  eexists _, res. split; [exact Hrun|]. split_and!.
  - apply Hs. exists (inl (Exception "TypeError: unhashable type")).
    split; [|done]. by_compute.
  - rewrite Hn. by_compute.
  - rewrite Hf. by_compute.
  - rewrite Hi. by_compute.
Defined.

(** ** The fallback of a failed batch insert *)

Section Fallback.
Context {St : Type} `{!Client St}.

(** [_process_chunk] when the batch insert raises, in closed form: the
    records to insert are inserted one by one from the state the failed
    batch left; [chunk_inserted] counts the inserts that went through,
    and [chunk_updated] the conflicts plus the [n] updates that went
    through. *)
Lemma process_chunk_fallback (t src : string) (chunk : list record)
    (s s0 s1 : St)
    (ex : gmap key pyval) (e : exn) :
  existing_lookup t src chunk s = (s0, inr ex) →
  (classify ex chunk).1 ≠ [] →
  insert_rows t (classify ex chunk).1 s0 = (s1, inl e) →
  let run := individual_inserts t (classify ex chunk).1 s1 in
  insert_new t (classify ex chunk).1 s0
    = (run.1, inr (count_of went_through run.2,
                   count_of hit_conflict run.2))
  ∧ ∃ s2 n,
      _process_chunk t src chunk s
        = (s2, inr (count_of went_through run.2,
                    count_of hit_conflict run.2 + n))
      ∧ n ≤ length (classify ex chunk).2.
Proof.
  intros Hex Hne Hbatch run.
  assert (Hnew : insert_new t (classify ex chunk).1 s0
                 = (run.1, inr (count_of went_through run.2,
                                count_of hit_conflict run.2))).
  { unfold insert_new. destruct (classify ex chunk).1 as [|r rs]; [done|].
    unfold try_catch, bind. rewrite Hbatch.
    by rewrite fallback_inserts_spec. }
  split; [done|].
  unfold _process_chunk. unfold bind at 1. rewrite Hex.
  destruct (classify ex chunk) as [ins upd] eqn:Hcl. simpl in *.
  unfold bind at 1. rewrite Hnew. unfold bind, ret. simpl.
  destruct (update_existing_total t upd (count_of hit_conflict run.2) run.1)
    as (s2 & n & -> & Hn).
  by exists s2, n.
Qed.
End Fallback.

(** C7. Insert-race fallback. When the batch insert of a chunk raises,
    every record to insert is inserted individually, once and in order;
    the chunk still returns; an individual insert that fails with a
    uniqueness violation (a message with "409", "duplicate key" or "unique
    constraint") adds one to the update count and nothing to the failures. *)
Theorem insert_race_fallback {St : Type} `{!Client St}
    (t src : string) (chunk : list record) (s s0 s1 : St)
    (ex : gmap key pyval) (e : exn) :
  existing_lookup t src chunk s = (s0, inr ex) →
  (classify ex chunk).1 ≠ [] →
  insert_rows t (classify ex chunk).1 s0 = (s1, inl e) →
  let run := individual_inserts t (classify ex chunk).1 s1 in
  length run.2 = length (classify ex chunk).1
  ∧ (∃ s2 n,
       _process_chunk t src chunk s
         = (s2, inr (count_of went_through run.2,
                     count_of hit_conflict run.2 + n))
       ∧ n ≤ length (classify ex chunk).2)
  ∧ (∀ msg, hit_conflict (inl (Exception msg))
            = contains "409" msg
              || contains "duplicate key" (lower msg)
              || contains "unique constraint" (lower msg)).
Proof.
  intros Hex Hne Hbatch run. split_and!.
  - apply individual_inserts_length.
  - by eapply process_chunk_fallback.
  - done.
Qed.

Lemma insert_race_fallback_witness :
  is_conflict unique_violation = true
  ∧ ∃ s2 u,
      _process_chunk "t" "X" [jan_record; feb_record] two_release_store
        = (s2, inr (0, u))
      ∧ 1 ≤ u.
Proof.
  split; [by_compute|].
  pose (ex := build_lookup
                [project ["id"; "code"; "source"; "release_date"; "geozip"]
                   (<["id" := PInt 1]> jan_record)]).
  assert (Hex : existing_lookup "t" "X" [jan_record; feb_record]
                  two_release_store = (two_release_store, inr ex))
    by by_compute.
  assert (Hins : (classify ex [jan_record; feb_record]).1 = [feb_record])
    by by_compute.
  destruct (insert_race_fallback "t" "X" [jan_record; feb_record]
              two_release_store two_release_store two_release_store ex
              unique_violation Hex)
    as (_ & (s2 & n & Hrun & _) & _).
  - rewrite Hins. discriminate.
  - rewrite Hins. by_compute.
  - assert (Hc1 : count_of went_through
                    (individual_inserts "t" (classify ex [jan_record; feb_record]).1
                       two_release_store).2 = 0) by by_compute.
    assert (Hc2 : count_of hit_conflict
                    (individual_inserts "t" (classify ex [jan_record; feb_record]).1
                       two_release_store).2 = 1) by by_compute.
    rewrite Hc1, Hc2 in Hrun.
    exists s2, (1 + n). split; [exact Hrun|lia].
Defined.

(** C9. Records lost in the fallback. When the batch insert of a chunk
    raises, a record whose individual insert fails for a reason other than
    a uniqueness violation is in neither count the chunk returns, and the
    chunk returns normally, so it adds nothing to [records_failed] either:
    inserted plus updated plus those records is at most the chunk length.
    On a connection whose writes time out, a run over two records ends
    with status "success", no failure recorded, and inserted + updated +
    failed below the number of records. *)
Theorem fallback_drops_other_failures :
  (∀ (St : Type) (C : Client St) (t src : string) (chunk : list record)
     (s s0 s1 : St) (ex : gmap key pyval) (e : exn),
     existing_lookup t src chunk s = (s0, inr ex) →
     (classify ex chunk).1 ≠ [] →
     insert_rows t (classify ex chunk).1 s0 = (s1, inl e) →
     let run := individual_inserts t (classify ex chunk).1 s1 in
     ∃ s2 i u,
       _process_chunk t src chunk s = (s2, inr (i, u))
       ∧ i + u + count_of failed_otherwise run.2 ≤ length chunk)
  ∧ (∃ s' res,
       upsert_records_with_composite_key "t" "X" [jan_record; feb_record]
         1000 timeouts_store = (s', inr res)
       ∧ status res = "success"
       ∧ failed_chunks res = []
       ∧ records_inserted res + records_updated res + records_failed res
         < length [jan_record; feb_record]).
Proof.
  split.
  - intros St C t src chunk s s0 s1 ex e Hex Hne Hbatch run.
    destruct (process_chunk_fallback t src chunk s s0 s1 ex e Hex Hne Hbatch)
      as (_ & s2 & n & Hrun & Hn).
    fold run in Hrun. eexists _, _, _. split; [exact Hrun|].
    pose proof (outcome_counts run.2) as Hc.
    pose proof (individual_inserts_length t (classify ex chunk).1 s1) as Hl.
    fold run in Hl. pose proof (classify_lengths ex chunk). lia.
  - exists (mk_faulty mem_empty [Some "timed out"]),
           (final_result "t" (mk_totals 0 0 0 [])).
    split_and!; by_compute.
Qed.

(** ** The early exit *)

Lemma check_all_total {St : Type} `{!Client St} (t src : string)
    (records : list record) (s : St) :
  ∃ s' b, _check_all_records_exist t src records s = (s', inr b).
Proof.
  unfold _check_all_records_exist, try_catch.
  destruct (release_dates_of records) as [|d ds]; [by eexists _, _|].
  unfold bind, ret.
  destruct (count_existing t src (d :: ds) 0 s) as [s1 [e|n]];
    by eexists _, _.
Qed.

Lemma mem_count_existing (t src : string) (dates : list pyval) (n : nat)
    (s : mem_store) :
  count_existing t src dates n s
  = (s, inr (n + sum_list ((λ d, existing_rows src d s) <$> dates))).
Proof.
  revert n. induction dates as [|d dates IH]; intros n; simpl.
  - unfold ret. by rewrite Nat.add_0_r.
  - unfold bind. simpl. unfold mem_count_rows. rewrite IH.
    unfold existing_rows. do 2 f_equal. symmetry. apply Nat.add_assoc.
Qed.

(** On the in-memory store the aggregate check compares the number of
    records with the rows matching their distinct release dates. *)
Lemma mem_check_all (t src : string) (records : list record) (s : mem_store) :
  _check_all_records_exist t src records s
  = (s, inr (bool_decide (release_dates_of records ≠ [])
             && Nat.leb (length records)
                  (sum_list ((λ d, existing_rows src d s)
                               <$> release_dates_of records)))).
Proof.
  unfold _check_all_records_exist, try_catch.
  destruct (release_dates_of records) as [|d ds] eqn:Hd; [done|].
  unfold bind. rewrite mem_count_existing. unfold ret. simpl.
  done.
Qed.

Lemma final_result_status (t : string) (tot : totals) :
  status (final_result t tot) ≠ "already_synced".
Proof. unfold final_result. simpl. by destruct (Nat.eqb _ 0). Qed.

Lemma process_remaining_status {St : Type}
    (process : string → string → list record → M St (nat * nat))
    (t src : string) (records : list record) (cs : Z) (start si su : nat)
    (s s' : St) (res : result) :
  process_remaining process t src records cs start si su s = (s', inr res) →
  status res ≠ "already_synced".
Proof.
  unfold process_remaining. destruct (Z.eqb cs 0); [done|].
  unfold bind, ret.
  destruct (chunk_loop _ _ _ _ _ _ _ _ _) as [s1 [e|tot]]; [done|].
  intros [= <- <-]. apply final_result_status.
Qed.

Lemma upsert_unfold {St : Type} `{!Client St} (t src : string)
    (records : list record) (cs : Z) :
  records ≠ [] →
  upsert_records_with_composite_key t src records cs
  = if Nat.ltb SAMPLE_SIZE (length records) then
      let* c := _process_chunk t src (take SAMPLE_SIZE records) in
      let* synced :=
        if Nat.eqb c.1 0 && Nat.ltb 0 c.2
        then _check_all_records_exist t src records
        else ret false in
      if synced then ret (already_synced_result t c.2)
      else process_remaining _process_chunk t src records cs SAMPLE_SIZE c.1 c.2
    else process_remaining _process_chunk t src records cs 0 0 0.
Proof. by destruct records. Qed.

(** No storage failure fails a chunk: [_process_chunk] returns on every
    chunk, so a run of [upsert_records_with_composite_key] with a positive
    chunk size always returns, with no failed chunk and never with status
    "partial_success". *)
Lemma process_chunk_outcomes_return {St : Type} `{!Client St} (t src : string)
    (chunks : list (list record)) (s : St) (n : nat) :
  failed_records chunks (chunk_outcomes _process_chunk t src chunks s).2 = 0
  ∧ failed_numbers n (chunk_outcomes _process_chunk t src chunks s).2 = [].
Proof.
  revert s n. induction chunks as [|c chunks IH]; intros s n; [done|].
  simpl. destruct (process_chunk_total t src c s) as (s1 & i & u & -> & _).
  specialize (IH s1 (S n)).
  destruct (chunk_outcomes _process_chunk t src chunks s1) as [s2 os].
  simpl in *. destruct IH as [-> ->]. done.
Qed.

Lemma storage_failures_never_fail_a_chunk {St : Type} `{!Client St}
    (t src : string) (records : list record) (n : nat) (s : St) :
  0 < n →
  ∃ s' res,
    upsert_records_with_composite_key t src records (Z.of_nat n) s
      = (s', inr res)
    ∧ records_failed res = 0
    ∧ failed_chunks res = []
    ∧ status res ≠ "partial_success".
Proof.
  intros Hn.
  assert (Hrem : ∀ start si su s0,
            ∃ s' res,
              process_remaining _process_chunk t src records (Z.of_nat n)
                start si su s0 = (s', inr res)
              ∧ records_failed res = 0 ∧ failed_chunks res = []
              ∧ status res ≠ "partial_success").
  { intros start si su s0. rewrite process_remaining_spec by done. cbv zeta.
    destruct (process_chunk_outcomes_return t src
                (chunks_of n (drop start records)) s0 1) as [Hf Hl].
    eexists _, _. split; [reflexivity|]. simpl. by rewrite Hf, Hl. }
  destruct (decide (records = [])) as [->|Hne].
  { by exists s, no_records_result. }
  rewrite upsert_unfold by done.
  destruct (Nat.ltb SAMPLE_SIZE (length records)); [|apply Hrem].
  unfold bind at 1.
  destruct (process_chunk_total t src (take SAMPLE_SIZE records) s)
    as (s1 & i & u & -> & _).
  cbn [fst snd]. unfold bind at 1.
  destruct (Nat.eqb i 0 && Nat.ltb 0 u).
  - destruct (check_all_total t src records s1) as (s2 & b & ->).
    destruct b; [by eexists _, _|apply Hrem].
  - unfold ret. apply Hrem.
Qed.

(** C3. Early-exit sampling, on the in-memory store. The run returns
    status "already_synced" if and only if there are more than 50 records,
    the chunk algorithm on the first 50 yields no insert and at least one
    update, and the rows matching [(source, release_date)], summed over
    the distinct (non-empty) release dates of all the records, are at
    least as many as the records. In that case the store is left as the
    sample left it: the other records are not processed. Otherwise the
    chunk loop runs over the records after the sample (over all of them
    when there are at most 50) and its totals start from the sample's. *)
Theorem early_exit_sampling (t src : string) (records : list record)
    (cs : Z) (s : mem_store) :
  let sample := _process_chunk t src (take SAMPLE_SIZE records) s in
  let matching :=
    sum_list ((λ d, existing_rows src d sample.1)
                <$> release_dates_of records) in
  let early :=
    SAMPLE_SIZE < length records
    ∧ inserted_in sample.2 = 0 ∧ 0 < updated_in sample.2
    ∧ length records ≤ matching in
  ((∃ s' res,
      upsert_records_with_composite_key t src records cs s = (s', inr res)
      ∧ status res = "already_synced") ↔ early)
  ∧ (early →
     upsert_records_with_composite_key t src records cs s
     = (sample.1, inr (already_synced_result t (updated_in sample.2))))
  ∧ (¬ early → SAMPLE_SIZE < length records →
     upsert_records_with_composite_key t src records cs s
     = process_remaining _process_chunk t src records cs SAMPLE_SIZE
         (inserted_in sample.2) (updated_in sample.2) sample.1)
  ∧ (length records ≤ SAMPLE_SIZE → records ≠ [] →
     upsert_records_with_composite_key t src records cs s
     = process_remaining _process_chunk t src records cs 0 0 0 s)
  ∧ (∀ n, cs = Z.of_nat n → 0 < n → ¬ early → SAMPLE_SIZE < length records →
     ∃ res,
       upsert_records_with_composite_key t src records cs s
       = ((chunk_outcomes _process_chunk t src
             (chunks_of n (drop SAMPLE_SIZE records)) sample.1).1, inr res)
       ∧ status res ≠ "already_synced").
Proof.
  intros sample matching early.
  destruct (decide (records = [])) as [->|Hne].
  { assert (Hno : ¬ early) by (unfold early; simpl; lia).
    split_and!; try (simpl; unfold SAMPLE_SIZE; intros; lia); try done.
    split; [|done]. by intros (s' & res & [= <- <-] & Hst). }
  rewrite upsert_unfold by done.
  destruct (Nat.ltb SAMPLE_SIZE (length records)) eqn:Hlen.
  2: { apply Nat.ltb_ge in Hlen.
       assert (Hno : ¬ early) by (unfold early; lia).
       split_and!; try done; try (intros; lia).
       split; [|done].
       intros (s' & res & Hrun & Hst).
       by apply process_remaining_status in Hrun. }
  apply Nat.ltb_lt in Hlen.
  destruct (process_chunk_total t src (take SAMPLE_SIZE records) s)
    as (s1 & i & u & Hsample & _).
  assert (Hs1 : sample = (s1, inr (i, u))) by exact Hsample.
  assert (Hs1a : sample.1 = s1) by (by rewrite Hs1).
  assert (Hs1b : sample.2 = inr (i, u)) by (by rewrite Hs1).
  assert (Hearly : early ↔ i = 0 ∧ 0 < u ∧ length records ≤ matching).
  { unfold early. rewrite Hs1. simpl. tauto. }
  assert (Hm : matching = sum_list ((λ d, existing_rows src d s1)
                                      <$> release_dates_of records)).
  { unfold matching. by rewrite Hs1. }
  assert (Hsynced :
    (if Nat.eqb i 0 && Nat.ltb 0 u
     then _check_all_records_exist t src records else ret false) s1
    = (s1, inr (bool_decide early))).
  { destruct (Nat.eqb i 0 && Nat.ltb 0 u) eqn:Hiu.
    - apply andb_true_iff in Hiu as [Hi%Nat.eqb_eq Hu%Nat.ltb_lt].
      rewrite mem_check_all, <- Hm. do 2 f_equal.
      destruct (Nat.leb (length records) matching) eqn:Hle.
      + apply Nat.leb_le in Hle. rewrite andb_true_r.
        rewrite (bool_decide_true early) by (apply Hearly; done).
        apply bool_decide_true. intros Hd. rewrite Hd in Hm.
        simpl in Hm. lia.
      + apply Nat.leb_gt in Hle. rewrite andb_false_r.
        symmetry. apply bool_decide_false. rewrite Hearly. lia.
    - unfold ret. do 2 f_equal. symmetry. apply bool_decide_false.
      rewrite Hearly. intros (-> & Hu & _).
      apply Nat.ltb_lt in Hu. rewrite Hu in Hiu. done. }
  assert (Hrun :
    (let* c := _process_chunk t src (take SAMPLE_SIZE records) in
     let* synced :=
       if Nat.eqb c.1 0 && Nat.ltb 0 c.2
       then _check_all_records_exist t src records
       else ret false in
     if synced then ret (already_synced_result t c.2)
     else process_remaining _process_chunk t src records cs SAMPLE_SIZE
            c.1 c.2) s
    = if bool_decide early
      then (s1, inr (already_synced_result t u))
      else process_remaining _process_chunk t src records cs SAMPLE_SIZE
             i u s1).
  { unfold bind at 1. rewrite Hsample. cbn [fst snd].
    unfold bind at 1. rewrite Hsynced.
    by destruct (bool_decide early). }
  rewrite Hrun. clear Hrun Hsynced.
  destruct (bool_decide early) eqn:Hdec;
    rewrite Hs1a, Hs1b; cbn [fst snd inserted_in updated_in].
  - apply bool_decide_eq_true in Hdec.
    split_and!; try done; try (intros; lia).
    split; [done|]. intros _. by eexists _, _.
  - apply bool_decide_eq_false in Hdec.
    split_and!; try done; try (intros; lia).
    + split; [|done]. intros (s' & res & Hrun' & Hst).
      by apply process_remaining_status in Hrun'.
    + intros n -> Hn _ _.
      rewrite process_remaining_spec by done. cbv zeta.
      eexists. split; [reflexivity|]. apply final_result_status.
Qed.

(** ** Two runs against the in-memory store *)

Lemma get_insert_ne (r : record) (k k' : string) (v : pyval) :
  k ≠ k' → get (<[k := v]> r) k' = get r k'.
Proof. intros Hne. unfold get. by rewrite lookup_insert_ne. Qed.

Lemma composite_key_id (r : record) (v : pyval) :
  composite_key (<["id" := v]> r) = composite_key r.
Proof. unfold composite_key. by rewrite !get_insert_ne. Qed.

Lemma lookup_key_composite (r : record) :
  lookup_key r = str_code (composite_key r).
Proof. done. Qed.

Lemma lookup_key_id (r : record) (v : pyval) :
  lookup_key (<["id" := v]> r) = lookup_key r.
Proof. by rewrite !lookup_key_composite, composite_key_id. Qed.

Lemma lookup_key_project (row : record) :
  lookup_key (project ["id"; "code"; "source"; "release_date"; "geozip"] row)
  = lookup_key row.
Proof. unfold lookup_key. by rewrite !get_project_keys by set_solver. Qed.

Lemma NoDup_lookup_composite (l : list record) :
  NoDup (lookup_key <$> l) → NoDup (composite_key <$> l).
Proof.
  intros Hnd. apply (NoDup_fmap_1 str_code).
  rewrite <- list_fmap_compose. exact Hnd.
Qed.

Lemma with_ids_cons (first : Z) (r : record) (rs : list record) :
  with_ids first (r :: rs)
  = <["id" := PInt first]> r :: with_ids (first + 1) rs.
Proof.
  unfold with_ids. rewrite imap_cons. f_equal.
  - by rewrite Z.add_0_r.
  - apply imap_ext. intros k x _. simpl. do 2 f_equal. lia.
Qed.

Lemma with_ids_app (first : Z) (l1 l2 : list record) :
  with_ids first (l1 ++ l2)
  = with_ids first l1 ++ with_ids (first + Z.of_nat (length l1)) l2.
Proof.
  unfold with_ids. rewrite imap_app. f_equal.
  apply imap_ext. intros k x _. simpl. do 2 f_equal. lia.
Qed.

Lemma with_ids_keys (f : record → key) (first : Z) (rs : list record) :
  (∀ r v, f (<["id" := v]> r) = f r) →
  f <$> with_ids first rs = f <$> rs.
Proof.
  intros Hf. revert first. induction rs as [|r rs IH]; intros first; [done|].
  by rewrite with_ids_cons, !fmap_cons, IH, Hf.
Qed.

Lemma with_ids_elem (first : Z) (rs : list record) (row : record) :
  row ∈ with_ids first rs ↔
  ∃ k r, rs !! k = Some r ∧ row = <["id" := PInt (first + Z.of_nat k)]> r.
Proof.
  unfold with_ids. rewrite elem_of_lookup_imap. naive_solver.
Qed.

Lemma with_ids_length (first : Z) (rs : list record) :
  length (with_ids first rs) = length rs.
Proof. apply length_imap. Qed.

Lemma get_id_with_id (r : record) (v : pyval) : get (<["id" := v]> r) "id" = v.
Proof. unfold get. by rewrite lookup_insert_eq. Qed.

Lemma chunks_fuel_concat {A} (fuel cs : nat) (l : list A) :
  0 < cs → length l ≤ fuel → concat (chunks_fuel fuel cs l) = l.
Proof.
  intros Hcs. revert l. induction fuel as [|fuel IH]; intros l Hlen.
  - by destruct l; simpl in *; [|lia].
  - destruct l as [|x l]; [done|].
    change (chunks_fuel (S fuel) cs (x :: l))
      with (take cs (x :: l) :: chunks_fuel fuel cs (drop cs (x :: l))).
    rewrite concat_cons, IH by (rewrite length_drop; simpl in *; lia).
    apply take_drop.
Qed.

Lemma chunks_of_concat {A} (cs : nat) (l : list A) :
  0 < cs → concat (chunks_of cs l) = l.
Proof. intros Hcs. by apply chunks_fuel_concat. Qed.

(** The existence check on the in-memory store: reading leaves the store
    as it is, and every entry of the lookup comes from a stored row. *)
Lemma mem_existing_lookup (t src : string) (c : list record) (st : mem_store) :
  ∃ ex, existing_lookup t src c st = (st, inr ex)
        ∧ ∀ k i, ex !! k = Some i →
            ∃ row, row ∈ rows st ∧ lookup_key row = k ∧ get row "id" = i.
Proof.
  unfold existing_lookup. destruct (_ && _).
  - simpl. unfold mem_select_keys, try_catch, bind, ret.
    eexists. split; [reflexivity|].
    intros k i (row' & Hrow' & Hk & Hid)%build_lookup_Some.
    apply list_elem_of_fmap in Hrow' as (row & -> & Hrow).
    apply list_elem_of_filter in Hrow as [_ Hrow].
    exists row. rewrite lookup_key_project in Hk.
    rewrite get_project_keys in Hid by set_solver. done.
  - exists ∅. split; [done|]. intros k i. by rewrite lookup_empty.
Qed.

Lemma classify_all_new (ex : gmap key pyval) (c : list record) :
  (∀ r, r ∈ c → ex !! lookup_key r = None) → classify ex c = (c, []).
Proof.
  induction c as [|r c IH]; intros Hnew; simpl; [done|].
  rewrite IH by (intros; apply Hnew; by right).
  by rewrite Hnew by left.
Qed.

Lemma classify_elems (ex : gmap key pyval) (c : list record) :
  (∀ r, r ∈ (classify ex c).1 → r ∈ c)
  ∧ (∀ x, x ∈ (classify ex c).2 →
       ∃ r i, r ∈ c ∧ ex !! lookup_key r = Some i ∧ x = <["id" := i]> r).
Proof.
  rewrite classify_fst, classify_snd. split.
  - intros r Hr. apply list_elem_of_filter in Hr. tauto.
  - intros x (r & Hr & Hx)%list_elem_of_omap.
    destruct (ex !! lookup_key r) as [i|] eqn:Hi; simplify_eq/=.
    by exists r, i.
Qed.

Lemma stored_keys_unique (rs : list record) (st : mem_store) :
  stored rs st → NoDup (composite_key <$> rs) → keys_unique (rows st) = true.
Proof.
  intros [Hrows _] Hnd. unfold keys_unique. apply bool_decide_eq_true.
  rewrite Hrows, with_ids_keys; [done|]. apply composite_key_id.
Qed.

(** Inserting records whose keys are new extends the store by them. *)
Lemma mem_insert_fresh (L c : list record) (st : mem_store) :
  stored L st → NoDup (composite_key <$> (L ++ c)) →
  ∃ st', mem_insert_rows c st = (st', inr ()) ∧ stored (L ++ c) st'.
Proof.
  intros [Hrows Hnext] Hnd. unfold mem_insert_rows.
  fold (with_ids (next_id st) c).
  assert (Hnew : rows st ++ with_ids (next_id st) c = with_ids 1 (L ++ c)).
  { by rewrite with_ids_app, Hrows, Hnext. }
  rewrite Hnew.
  assert (Hu : keys_unique (with_ids 1 (L ++ c)) = true).
  { unfold keys_unique. apply bool_decide_eq_true.
    rewrite with_ids_keys; [done|]. apply composite_key_id. }
  rewrite Hu. eexists. split; [reflexivity|].
  split; simpl; [done|]. rewrite Hnext, length_app. lia.
Qed.

(** Inserting a record whose key is stored violates uniqueness. *)
Lemma mem_insert_conflict (c : list record) (st : mem_store) (r : record) :
  r ∈ c → composite_key r ∈ composite_key <$> rows st →
  mem_insert_rows c st = (st, inl unique_violation).
Proof.
  intros Hr Hin. unfold mem_insert_rows.
  fold (with_ids (next_id st) c).
  assert (Hu : keys_unique (rows st ++ with_ids (next_id st) c) = false).
  { unfold keys_unique. apply bool_decide_eq_false.
    rewrite fmap_app. intros (_ & Hdisj & _)%NoDup_app.
    apply (Hdisj _ Hin).
    rewrite with_ids_keys by apply composite_key_id.
    by apply list_elem_of_fmap_2. }
  by rewrite Hu.
Qed.

Lemma mem_fallback_conflicts (t : string) (ins : list record) (i u : nat)
    (st : mem_store) :
  (∀ r, r ∈ ins → composite_key r ∈ composite_key <$> rows st) →
  fallback_inserts t ins i u st = (st, inr (i, u + length ins)).
Proof.
  revert u. induction ins as [|r ins IH]; intros u Hin; simpl.
  - unfold ret. by rewrite Nat.add_0_r.
  - unfold bind at 1, try_catch, bind. simpl.
    rewrite (mem_insert_conflict [r] st r) by (by left || (apply Hin; by left)).
    change (is_conflict unique_violation) with true. unfold ret. simpl.
    rewrite IH by (intros; apply Hin; by right).
    do 3 f_equal. lia.
Qed.

Lemma payload_union_row (r : record) (i : pyval) :
  delete "id" (<["id" := i]> r) ∪ <["id" := i]> r = <["id" := i]> r.
Proof.
  apply map_eq. intros x. rewrite lookup_union.
  destruct (decide (x = "id")) as [->|Hne].
  - rewrite lookup_delete_eq, lookup_insert_eq. done.
  - rewrite lookup_delete_ne, !lookup_insert_ne by done.
    by destruct (r !! x).
Qed.

(** Updating a row with the record it was inserted from changes nothing. *)
Lemma mem_update_same (rs : list record) (st : mem_store) (k : nat)
    (r : record) :
  stored rs st → NoDup (composite_key <$> rs) → rs !! k = Some r →
  mem_update_row (delete "id" (<["id" := PInt (1 + Z.of_nat k)]> r))
                 (PInt (1 + Z.of_nat k)) st
  = (st, inr ()).
Proof.
  intros Hst Hnd Hk. unfold mem_update_row.
  assert (Hsame :
    (λ row, if bool_decide (get row "id" = PInt (1 + Z.of_nat k))
            then delete "id" (<["id" := PInt (1 + Z.of_nat k)]> r) ∪ row
            else row) <$> rows st = rows st).
  { rewrite <- (list_fmap_id (rows st)) at 2.
    apply list_fmap_ext. intros j row Hj. simpl.
    destruct Hst as [Hrows _]. rewrite Hrows in Hj. unfold with_ids in Hj.
    rewrite list_lookup_imap in Hj.
    destruct (rs !! j) as [r'|] eqn:Hr'; simplify_eq/=.
    rewrite get_id_with_id. case_bool_decide as Hid; [|done].
    assert (j = k) as -> by (simplify_eq; lia).
    simplify_eq. apply payload_union_row. }
  rewrite Hsame, (stored_keys_unique rs st) by done.
  by destruct st.
Qed.

Lemma mem_update_existing_all (t : string) (rs upd : list record) (u : nat)
    (st : mem_store) :
  stored rs st → NoDup (composite_key <$> rs) →
  (∀ x, x ∈ upd →
     ∃ k r, rs !! k = Some r ∧ x = <["id" := PInt (1 + Z.of_nat k)]> r) →
  update_existing t upd u st = (st, inr (u + length upd)).
Proof.
  intros Hst Hnd. revert u. induction upd as [|x upd IH]; intros u Hupd; simpl.
  - unfold ret. by rewrite Nat.add_0_r.
  - destruct (Hupd x ltac:(left)) as (k & r & Hk & ->).
    unfold bind at 1, try_catch. rewrite lookup_insert_eq.
    unfold bind, ret. simpl.
    rewrite (mem_update_same rs st k r) by done.
    rewrite IH by (intros; apply Hupd; by right).
    do 2 f_equal. lia.
Qed.

Lemma NoDup_fmap_eq {A B} (f : A → B) (l : list A) (x y : A) :
  NoDup (f <$> l) → x ∈ l → y ∈ l → f x = f y → x = y.
Proof.
  intros Hnd [a Ha]%list_elem_of_lookup_1 [b Hb]%list_elem_of_lookup_1 Hf.
  assert (a = b) as ->; [|congruence].
  eapply NoDup_lookup; [exact Hnd| |].
  - by rewrite list_lookup_fmap, Ha.
  - by rewrite list_lookup_fmap, Hb, Hf.
Qed.

Lemma stored_row_keys (f : record → key) (rs : list record) (st : mem_store) :
  (∀ r v, f (<["id" := v]> r) = f r) →
  stored rs st → f <$> rows st = f <$> rs.
Proof. intros Hf [-> _]. by apply with_ids_keys. Qed.

(** A chunk of records that are new to the store: all are inserted by the
    batch insert, none is updated. *)
Lemma first_run_chunk (t src : string) (L c : list record) (st : mem_store) :
  stored L st → NoDup (lookup_key <$> (L ++ c)) →
  ∃ st', _process_chunk t src c st = (st', inr (length c, 0))
         ∧ stored (L ++ c) st'.
Proof.
  intros Hst Hnd.
  destruct (mem_existing_lookup t src c st) as (ex & Hex & Hfrom).
  assert (Hnew : ∀ r, r ∈ c → ex !! lookup_key r = None).
  { intros r Hr. destruct (ex !! lookup_key r) as [i|] eqn:Hi; [|done].
    exfalso. apply Hfrom in Hi as (row & Hrow & Hk & _).
    rewrite fmap_app in Hnd. apply NoDup_app in Hnd as (_ & Hdisj & _).
    apply (Hdisj (lookup_key r)); [|by apply list_elem_of_fmap_2].
    rewrite <- (stored_row_keys lookup_key L st) by (done || apply lookup_key_id).
    rewrite <- Hk. by apply list_elem_of_fmap_2. }
  unfold _process_chunk. unfold bind at 1. rewrite Hex.
  rewrite classify_all_new by done.
  destruct c as [|r c].
  - exists st. rewrite app_nil_r. by split.
  - destruct (mem_insert_fresh L (r :: c) st Hst) as (st' & Hins & Hst').
    { by apply NoDup_lookup_composite. }
    exists st'. split; [|done].
    unfold bind at 1, insert_new, try_catch, bind at 1. simpl insert_rows.
    rewrite Hins. done.
Qed.

(** A chunk of records that the store already holds: none is inserted,
    every one counts as an update (by a stored-row match or by the
    conflict of its individual insert), and the store is unchanged. *)
Lemma second_run_chunk (t src : string) (rs c : list record) (st : mem_store) :
  stored rs st → NoDup (lookup_key <$> rs) → (∀ r, r ∈ c → r ∈ rs) →
  _process_chunk t src c st = (st, inr (0, length c)).
Proof.
  intros Hst Hnd Hsub.
  pose proof (NoDup_lookup_composite rs Hnd) as Hndc.
  destruct (mem_existing_lookup t src c st) as (ex & Hex & Hfrom).
  destruct (classify_elems ex c) as [Hins Hupd].
  pose proof (classify_lengths ex c) as Hlen.
  unfold _process_chunk. unfold bind at 1. rewrite Hex.
  destruct (classify ex c) as [ins upd]. simpl in *.
  assert (Hnew : insert_new t ins st = (st, inr (0, length ins))).
  { assert (Hkeys : ∀ r, r ∈ ins →
                      composite_key r ∈ composite_key <$> rows st).
    { intros r Hr.
      rewrite (stored_row_keys composite_key rs st)
        by (done || apply composite_key_id).
      apply list_elem_of_fmap_2. auto. }
    destruct ins as [|r ins]; [done|].
    unfold insert_new, try_catch, bind. simpl insert_rows.
    rewrite (mem_insert_conflict (r :: ins) st r)
      by (by left || (apply Hkeys; by left)).
    by rewrite mem_fallback_conflicts. }
  unfold bind at 1. rewrite Hnew. unfold bind, ret. simpl.
  rewrite (mem_update_existing_all t rs upd (length ins) st); try done.
  - do 3 f_equal. lia.
  - intros x (r & i & Hr & Hi & ->)%Hupd.
    apply Hfrom in Hi as (row & Hrow & Hk & Hid).
    destruct Hst as [Hrows _]. rewrite Hrows in Hrow.
    apply with_ids_elem in Hrow as (k & r' & Hk' & ->).
    rewrite lookup_key_id in Hk. rewrite get_id_with_id in Hid. subst i.
    assert (r' = r) as ->.
    { eapply (NoDup_fmap_eq lookup_key rs); eauto.
      by eapply list_elem_of_lookup_2. }
    by exists k, r.
Qed.

Lemma first_run_chunks (t src : string) (chunks : list (list record))
    (L : list record) (st : mem_store) :
  stored L st → NoDup (lookup_key <$> (L ++ concat chunks)) →
  ∃ st', chunk_outcomes _process_chunk t src chunks st
         = (st', (λ c, inr (length c, 0)) <$> chunks)
         ∧ stored (L ++ concat chunks) st'.
Proof.
  revert L st. induction chunks as [|c chunks IH]; intros L st Hst Hnd.
  - exists st. simpl. by rewrite app_nil_r.
  - rewrite concat_cons, app_assoc in Hnd |- *.
    destruct (first_run_chunk t src L c st Hst) as (st1 & Hc & Hst1).
    { rewrite fmap_app in Hnd. by apply NoDup_app in Hnd as [? _]. }
    destruct (IH (L ++ c) st1 Hst1 Hnd) as (st' & Hrest & Hst').
    exists st'. split; [|done]. simpl. by rewrite Hc, Hrest.
Qed.

Lemma second_run_chunks (t src : string) (chunks : list (list record))
    (rs : list record) (st : mem_store) :
  stored rs st → NoDup (lookup_key <$> rs) →
  (∀ r, r ∈ concat chunks → r ∈ rs) →
  chunk_outcomes _process_chunk t src chunks st
  = (st, (λ c, inr (0, length c)) <$> chunks).
Proof.
  intros Hst Hnd. induction chunks as [|c chunks IH]; intros Hsub; [done|].
  simpl. rewrite (second_run_chunk t src rs c st) by
    (try done; intros r Hr; apply Hsub; rewrite concat_cons;
     apply elem_of_app; by left).
  rewrite IH by (intros r Hr; apply Hsub; rewrite concat_cons;
                 apply elem_of_app; by right).
  done.
Qed.

Lemma all_returned (f : list record → nat * nat)
    (chunks : list (list record)) (n : nat) :
  failed_records chunks ((λ c, inr (f c)) <$> chunks) = 0
  ∧ failed_numbers n ((λ c, inr (f c)) <$> chunks) = []
  ∧ sum_list (inserted_in <$> ((λ c, inr (f c)) <$> chunks))
    = sum_list ((λ c, (f c).1) <$> chunks)
  ∧ sum_list (updated_in <$> ((λ c, inr (f c)) <$> chunks))
    = sum_list ((λ c, (f c).2) <$> chunks).
Proof.
  revert n. induction chunks as [|c chunks IH]; intros n; [done|].
  destruct (IH (S n)) as (H1 & H2 & H3 & H4).
  rewrite !fmap_cons. simpl. rewrite H1, H2. split_and!; try done.
  - f_equal. exact H3.
  - f_equal. exact H4.
Qed.

Lemma sum_lengths {A} (chunks : list (list A)) :
  sum_list (length <$> chunks) = length (concat chunks).
Proof.
  induction chunks as [|c chunks IH]; [done|].
  rewrite fmap_cons, concat_cons, length_app. simpl. by rewrite IH.
Qed.

Lemma sum_zeros {A} (l : list A) : sum_list ((λ _, 0) <$> l) = 0.
Proof. induction l as [|x l IH]; [done|]. by rewrite fmap_cons. Qed.

(** The chunk loop of a first run: the records after [start] are all
    inserted, once the records before it are stored. *)
Lemma remaining_first_run (t src : string) (rs : list record)
    (n start si su : nat) (st : mem_store) :
  0 < n → stored (take start rs) st → NoDup (lookup_key <$> rs) →
  ∃ st' res,
    process_remaining _process_chunk t src rs (Z.of_nat n) start si su st
      = (st', inr res)
    ∧ stored rs st'
    ∧ records_inserted res = si + length (drop start rs)
    ∧ records_updated res = su.
Proof.
  intros Hn Hst Hnd. rewrite process_remaining_spec by done. cbv zeta.
  destruct (first_run_chunks t src (chunks_of n (drop start rs))
              (take start rs) st Hst) as (st' & Hrun & Hst').
  { by rewrite chunks_of_concat, take_drop. }
  rewrite chunks_of_concat, take_drop in Hst' by done.
  rewrite Hrun. cbn [fst snd].
  destruct (all_returned (λ c, (length c, 0)) (chunks_of n (drop start rs)) 1)
    as (_ & _ & Hi & Hu).
  eexists _, _. split; [reflexivity|]. split; [done|]. simpl.
  rewrite Hi, Hu. simpl.
  rewrite sum_zeros.
  change (λ c : list record, length c) with (@length record).
  rewrite sum_lengths, chunks_of_concat by done. lia.
Qed.

(** The chunk loop of a second run: the records after [start] are all
    counted as updates and the store is left as it is. *)
Lemma remaining_second_run (t src : string) (rs : list record)
    (n start si su : nat) (st : mem_store) :
  0 < n → stored rs st → NoDup (lookup_key <$> rs) →
  ∃ res,
    process_remaining _process_chunk t src rs (Z.of_nat n) start si su st
      = (st, inr res)
    ∧ records_inserted res = si
    ∧ records_updated res = su + length (drop start rs).
Proof.
  intros Hn Hst Hnd. rewrite process_remaining_spec by done. cbv zeta.
  rewrite (second_run_chunks t src _ rs st) by
    (try done; rewrite chunks_of_concat by done;
     intros r Hr; by eapply subseteq_drop).
  cbn [fst snd].
  destruct (all_returned (λ c, (0, length c)) (chunks_of n (drop start rs)) 1)
    as (_ & _ & Hi & Hu).
  eexists. split; [reflexivity|]. simpl.
  rewrite Hi, Hu. simpl.
  rewrite sum_zeros.
  change (λ c : list record, length c) with (@length record).
  rewrite sum_lengths, chunks_of_concat by done. lia.
Qed.

Lemma stored_empty : stored [] mem_empty.
Proof. by split. Qed.

Lemma stored_length (rs : list record) (st : mem_store) :
  stored rs st → length (rows st) = length rs.
Proof. intros [-> _]. apply with_ids_length. Qed.

Lemma NoDup_fmap_take {A B} (f : A → B) (n : nat) (l : list A) :
  NoDup (f <$> l) → NoDup (f <$> take n l).
Proof.
  intros Hnd. rewrite <- (take_drop n l), fmap_app in Hnd.
  by apply NoDup_app in Hnd as [? _].
Qed.

(** The first run against the empty store inserts every record. *)
Lemma first_run (t src : string) (rs : list record) (n : nat) :
  0 < n → NoDup (lookup_key <$> rs) →
  ∃ s1 res1,
    upsert_records_with_composite_key t src rs (Z.of_nat n) mem_empty
      = (s1, inr res1)
    ∧ stored rs s1
    ∧ records_inserted res1 = length rs.
Proof.
  intros Hn Hnd.
  destruct (decide (rs = [])) as [->|Hne].
  { exists mem_empty, no_records_result.
    split_and!; done || apply stored_empty. }
  rewrite upsert_unfold by done.
  destruct (Nat.ltb SAMPLE_SIZE (length rs)) eqn:Hlen.
  - apply Nat.ltb_lt in Hlen.
    destruct (first_run_chunk t src [] (take SAMPLE_SIZE rs) mem_empty
                stored_empty) as (sa & Hsample & Hsa).
    { by apply NoDup_fmap_take. }
    simpl in Hsa. rewrite length_take, Nat.min_l in Hsample by lia.
    unfold bind at 1. rewrite Hsample. cbn [fst snd].
    change (Nat.eqb SAMPLE_SIZE 0 && Nat.ltb 0 0) with false.
    unfold bind, ret.
    destruct (remaining_first_run t src rs n SAMPLE_SIZE SAMPLE_SIZE 0 sa
                Hn Hsa Hnd) as (s1 & res1 & Hrun & Hs1 & Hi & _).
    exists s1, res1. split_and!; try done.
    rewrite Hi, length_drop. lia.
  - apply Nat.ltb_ge in Hlen.
    destruct (remaining_first_run t src rs n 0 0 0 mem_empty Hn
                stored_empty Hnd) as (s1 & res1 & Hrun & Hs1 & Hi & _).
    exists s1, res1. split_and!; try done; rewrite Hi; simpl; done.
Qed.

(** A run against a store that holds exactly the records inserts nothing,
    leaves the store as it is, and either counts every record as updated
    or reports "already_synced". *)
Lemma second_run (t src : string) (rs : list record) (n : nat)
    (s1 : mem_store) :
  0 < n → NoDup (lookup_key <$> rs) → stored rs s1 →
  ∃ res2,
    upsert_records_with_composite_key t src rs (Z.of_nat n) s1
      = (s1, inr res2)
    ∧ records_inserted res2 = 0
    ∧ (records_updated res2 = length rs ∨ status res2 = "already_synced").
Proof.
  intros Hn Hnd Hs1.
  destruct (decide (rs = [])) as [->|Hne].
  { exists no_records_result. split_and!; try done. by left. }
  rewrite upsert_unfold by done.
  destruct (Nat.ltb SAMPLE_SIZE (length rs)) eqn:Hlen.
  - apply Nat.ltb_lt in Hlen.
    pose proof (second_run_chunk t src rs (take SAMPLE_SIZE rs) s1 Hs1 Hnd)
      as Hsample.
    rewrite length_take, Nat.min_l in Hsample by lia.
    unfold bind at 1.
    rewrite Hsample by (intros r Hr; by eapply subseteq_take).
    cbn [fst snd].
    change (Nat.eqb 0 0 && Nat.ltb 0 SAMPLE_SIZE) with true.
    unfold bind at 1. rewrite mem_check_all.
    destruct (bool_decide _ && Nat.leb _ _).
    + eexists. split; [reflexivity|]. split; [done|]. by right.
    + destruct (remaining_second_run t src rs n SAMPLE_SIZE 0 SAMPLE_SIZE s1
                  Hn Hs1 Hnd) as (res2 & Hrun & Hi & Hu).
      exists res2. split_and!; try done.
      left. rewrite Hu, length_drop. lia.
  - apply Nat.ltb_ge in Hlen.
    destruct (remaining_second_run t src rs n 0 0 0 s1 Hn Hs1 Hnd)
      as (res2 & Hrun & Hi & Hu).
    exists res2. split_and!; try done; left; rewrite Hu; simpl; done.
Qed.

(** What the deduplication loop hands to the engine is deduplicated in
    the sense used below, when the codes are strings as the data model has
    them: [str] leaves them as they are, so the key of the existence check
    is the composite key. *)
Lemma dedup_output_is_deduplicated (l : list record) :
  Forall prepared l →
  Forall (λ r, ∃ c, get r "code" = PStr c) l →
  NoDup (lookup_key <$> deduplicated_records (dedup l)).
Proof.
  intros Hprep Hstr.
  assert (Hout : ∀ r, r ∈ deduplicated_records (dedup l) →
                   lookup_key r = dedup_key r).
  { intros r Hr%dedup_output_subset.
    rewrite prepared_dedup_key by (by eapply (proj1 (Forall_forall _ _) Hprep)).
    destruct (proj1 (Forall_forall _ _) Hstr r Hr) as [c Hc].
    unfold lookup_key, composite_key. by rewrite Hc. }
  rewrite (list_fmap_ext lookup_key dedup_key)
    by (intros i r Hi; apply Hout; by eapply list_elem_of_lookup_2).
  rewrite (inv_keys _ _ (dedup_inv_dedup l)). apply first_seen_NoDup.
Qed.

(** C1. Idempotence of reconciliation, on the in-memory store. For a
    deduplicated record set (no two records agree on the key the engine
    compares, [(source, str(code), release_date, geozip)]) and a positive
    chunk size: the run against the empty store returns, inserts every
    record and leaves one row per record; the second run with the same
    records returns with [records_inserted = 0] and
    [records_updated = len(records)] (or status "already_synced"), and
    leaves the store, hence its row count, as the first run left it. *)
Theorem reconcile_idempotent (t src : string) (records : list record)
    (chunk_size : Z) :
  (0 < chunk_size)%Z →
  NoDup (lookup_key <$> records) →
  ∃ s1 res1 s2 res2,
    upsert_records_with_composite_key t src records chunk_size mem_empty
      = (s1, inr res1)
    ∧ upsert_records_with_composite_key t src records chunk_size s1
      = (s2, inr res2)
    ∧ records_inserted res1 = length records
    ∧ length (rows s1) = length records
    ∧ records_inserted res2 = 0
    ∧ (records_updated res2 = length records
       ∨ status res2 = "already_synced")
    ∧ length (rows s2) = length (rows s1)
    ∧ s2 = s1.
Proof.
  intros Hcs Hnd.
  rewrite <- (Z2Nat.id chunk_size) by lia.
  assert (Hn : 0 < Z.to_nat chunk_size) by lia.
  destruct (first_run t src records _ Hn Hnd) as (s1 & res1 & Hrun1 & Hs1 & Hi1).
  destruct (second_run t src records _ s1 Hn Hnd Hs1)
    as (res2 & Hrun2 & Hi2 & Hu2).
  exists s1, res1, s1, res2. split_and!; try done.
  by apply stored_length.
Qed.

Lemma reconcile_idempotent_witness :
  ∃ s1 res1 s2 res2,
    upsert_records_with_composite_key "t" "X"
      (deduplicated_records (dedup scenario_batch)) 1000 mem_empty
      = (s1, inr res1)
    ∧ upsert_records_with_composite_key "t" "X"
        (deduplicated_records (dedup scenario_batch)) 1000 s1
      = (s2, inr res2)
    ∧ records_inserted res1
      = length (deduplicated_records (dedup scenario_batch))
    ∧ length (rows s1) = length (deduplicated_records (dedup scenario_batch))
    ∧ records_inserted res2 = 0
    ∧ (records_updated res2
       = length (deduplicated_records (dedup scenario_batch))
       ∨ status res2 = "already_synced")
    ∧ length (rows s2) = length (rows s1)
    ∧ s2 = s1.
Proof.
  apply (reconcile_idempotent "t" "X"
           (deduplicated_records (dedup scenario_batch)) 1000).
  - reflexivity.
  - by_compute.
Defined.

(** The early exit at work: 51 records against the store a first run
    filled are reported "already_synced" after the 50-record sample. *)
Example second_run_already_synced :
  ∃ s1 res1 s2,
    upsert_records_with_composite_key "t" "X" (numbered_records 51) 1000
      mem_empty = (s1, inr res1)
    ∧ records_inserted res1 = 51
    ∧ upsert_records_with_composite_key "t" "X" (numbered_records 51) 1000 s1
      = (s2, inr (already_synced_result "t" 50))
    ∧ length (rows s2) = 51.
Proof.
  exists (mk_store (with_ids 1 (numbered_records 51)) 52),
         (final_result "t" (mk_totals 51 0 0 [])),
         (mk_store (with_ids 1 (numbered_records 51)) 52).
  split_and!; by_compute.
Qed.

(** A second run over a batch with two release dates: the February
    record is not found by the existence check of its chunk, its insert
    conflicts, and it is counted as an update. *)
Example second_run_two_releases :
  upsert_records_with_composite_key "t" "X" [jan_record; feb_record] 1000
    two_release_store
  = (two_release_store, inr (final_result "t" (mk_totals 0 2 0 []))).
Proof. by_compute. Qed.

(** A record with a null geozip against a stored row that differs from it
    only by an empty-string geozip: the record is inserted as a new row. *)
Example null_geozip_is_a_new_row :
  ∃ st, upsert_records_with_composite_key "t" "X" [jan_record] 1000
          (mk_store [blank_geozip_row] 8)
        = (st, inr (final_result "t" (mk_totals 1 0 0 [])))
        ∧ length (rows st) = 2.
Proof.
  exists (mk_store [blank_geozip_row; <["id" := PInt 8]> jan_record] 9).
  split; by_compute.
Qed.


(** * Further properties of the code *)

(** ** The Preparer and the release-date lookup *)

Lemma stamped_other (r : record) (src : string) (hg : bool) (k : string) :
  k ≠ "source" → k ≠ "geozip" → stamped r src hg !! k = r !! k.
Proof.
  intros Hs Hg. unfold stamped.
  destruct hg; simpl; [case_match|]; by rewrite ?lookup_insert_ne.
Qed.

(** What a returned record is made of: the stamped input, with the
    release date [d] the Preparer settled on. *)
Lemma prepare_Some_inv (r : record) (src : string) (ex : pyval) (hg : bool)
    (out : record) :
  prepare_record_for_insertion r src ex hg = Some out →
  code_ok (get r "code") = true
  ∧ truthy (get out "release_date") = true
  ∧ ∀ k, k ≠ "release_date" → out !! k = stamped r src hg !! k.
Proof.
  rewrite prepare_unfold.
  destruct (code_ok (get r "code")); [simpl|done].
  destruct (missing_or_falsy r "release_date") eqn:Hrd.
  - destruct (truthy ex) eqn:Hex.
    + intros [= <-]. split_and!; [done| |].
      * unfold get. by rewrite lookup_insert_eq.
      * intros k Hk. by rewrite lookup_insert_ne.
    + destruct (missing_or_falsy r "rel_date") eqn:Hrel; simpl; [done|].
      intros [= <-]. split_and!; [done| |].
      * unfold get at 1. rewrite lookup_insert_eq. simpl.
        rewrite missing_or_falsy_get in Hrel. by apply negb_false_iff.
      * intros k Hk. by rewrite lookup_insert_ne.
  - intros [= <-]. split_and!; [done| |done].
    unfold get. rewrite stamped_release_date.
    rewrite missing_or_falsy_get in Hrd. by apply negb_false_iff.
Qed.

Lemma stamped_geozip_lookup (r : record) (src : string) (hg : bool) :
  stamped r src hg !! "geozip" = Some PNone
  ∨ ∃ v, stamped r src hg !! "geozip" = Some v ∧ truthy v = true.
Proof.
  destruct hg.
  - rewrite stamped_geozip_kept.
    destruct (missing_or_falsy r "geozip") eqn:Hm; [by left|right].
    unfold missing_or_falsy in Hm.
    destruct (r !! "geozip") as [v|]; [|done].
    exists v. split; [done|]. by apply negb_false_iff.
  - left. apply stamped_geozip_forced.
Qed.

(** X1. Whatever the Preparer returns is ready to be keyed, and nothing
    else of the record is touched: [source] is the caller's source name,
    the code passes the code check, the release date is non-empty, the
    geozip entry is present and is null or non-empty, and every other field
    is as in the input, absent fields staying absent. *)
Theorem prepare_output_shape (r : record) (src : string) (ex : pyval)
    (hg : bool) (out : record) :
  prepare_record_for_insertion r src ex hg = Some out →
  out !! "source" = Some (PStr src)
  ∧ code_ok (get out "code") = true
  ∧ truthy (get out "release_date") = true
  ∧ (out !! "geozip" = Some PNone
     ∨ ∃ v, out !! "geozip" = Some v ∧ truthy v = true)
  ∧ ∀ k, k ≠ "source" → k ≠ "geozip" → k ≠ "release_date" →
         out !! k = r !! k.
Proof.
  intros (Hcode & Hrd & Hsame)%prepare_Some_inv. split_and!.
  - rewrite Hsame by done. apply stamped_source.
  - unfold get. rewrite Hsame, stamped_code by done. exact Hcode.
  - exact Hrd.
  - rewrite Hsame by done. apply stamped_geozip_lookup.
  - intros k Hs Hg Hr. rewrite Hsame by done. by apply stamped_other.
Qed.

Lemma prepare_output_shape_witness :
  ∃ out,
    prepare_record_for_insertion stray_geozip_record "Novitas" PNone false
      = Some out
    ∧ out !! "source" = Some (PStr "Novitas")
    ∧ out !! "rate" = stray_geozip_record !! "rate".
Proof.
  exists (stamped stray_geozip_record "Novitas" false).
  assert (H : prepare_record_for_insertion stray_geozip_record "Novitas"
                PNone false
              = Some (stamped stray_geozip_record "Novitas" false))
    by by_compute.
  destruct (prepare_output_shape _ _ _ _ _ H) as (Hs & _ & _ & _ & Hk).
  split_and!; [exact H|exact Hs|]. by apply Hk.
Defined.

(** X2. Preparing is idempotent: a record the Preparer returned is
    returned unchanged when it is prepared again for the same source and
    the same [has_geozip], whatever release date the store tracks by then. *)
Theorem prepare_idempotent (r : record) (src : string) (ex ex' : pyval)
    (hg : bool) (out : record) :
  prepare_record_for_insertion r src ex hg = Some out →
  prepare_record_for_insertion out src ex' hg = Some out.
Proof.
  intros Hout.
  pose proof (prepare_Some_inv _ _ _ _ _ Hout) as (Hcode & Hrd & Hsame).
  assert (Hsrc : out !! "source" = Some (PStr src)).
  { rewrite Hsame by done. apply stamped_source. }
  assert (Hgz : out !! "geozip" = Some PNone
                ∨ ∃ v, out !! "geozip" = Some v ∧ truthy v = true).
  { rewrite Hsame by done. apply stamped_geozip_lookup. }
  assert (Hst : stamped out src hg = out).
  { unfold stamped. rewrite (insert_id out "source") by done.
    destruct hg; simpl.
    - unfold missing_or_falsy.
      destruct Hgz as [Hgz|(v & Hgz & Hv)]; rewrite Hgz; simpl.
      + by apply insert_id.
      + by rewrite Hv.
    - destruct Hgz as [Hgz|(v & Hgz & Hv)].
      + by apply insert_id.
      + exfalso. rewrite Hsame, stamped_geozip_forced in Hgz by done.
        by simplify_eq. }
  rewrite prepare_unfold, Hst.
  assert (Hc : code_ok (get out "code") = true).
  { unfold get. rewrite Hsame, stamped_code by done. exact Hcode. }
  rewrite Hc, missing_or_falsy_get, Hrd. done.
Qed.

Lemma prepare_idempotent_witness :
  ∃ out,
    prepare_record_for_insertion unlabelled_record "X" (PStr "January 2025")
      true = Some out
    ∧ prepare_record_for_insertion out "X" (PStr "March 2026") true
      = Some out.
Proof.
  exists (<["release_date" := PStr "January 2025"]>
            (stamped unlabelled_record "X" true)).
  assert (H : prepare_record_for_insertion unlabelled_record "X"
                (PStr "January 2025") true
              = Some (<["release_date" := PStr "January 2025"]>
                        (stamped unlabelled_record "X" true)))
    by by_compute.
  split; [exact H|].
  exact (prepare_idempotent _ _ _ (PStr "March 2026") _ _ H).
Defined.


(** X4. The aggregate existence check never raises; it answers [False]
    without any query when no record carries a release date, and [False]
    when a count query raises. *)
Theorem check_all_records_exist_degrades {St : Type} `{!Client St}
    (t src : string) (records : list record) (s : St) :
  (∃ s' b, _check_all_records_exist t src records s = (s', inr b))
  ∧ (Forall (λ r, truthy (get r "release_date") = false) records →
     _check_all_records_exist t src records s = (s, inr false))
  ∧ (∀ s1 e,
       count_existing t src (release_dates_of records) 0 s = (s1, inl e) →
       release_dates_of records ≠ [] →
       _check_all_records_exist t src records s = (s1, inr false)).
Proof.
  split_and!.
  - apply check_all_total.
  - intros Hall.
    assert (Hd : release_dates_of records = []).
    { unfold release_dates_of.
      rewrite filter_none; [done|].
      intros d (r & -> & Hr)%list_elem_of_fmap Hd.
      rewrite (proj1 (Forall_forall _ _) Hall r Hr) in Hd. done. }
    unfold _check_all_records_exist, try_catch. by rewrite Hd.
  - intros s1 e Hcount Hne.
    unfold _check_all_records_exist, try_catch.
    destruct (release_dates_of records) as [|d ds]; [done|].
    unfold bind. by rewrite Hcount.
Qed.

(** ** The engine *)

Lemma engine_returns {St : Type} `{!Client St} (t src : string)
    (records : list record) (n : nat) (s : St) :
  0 < n →
  ∃ s' res,
    upsert_records_with_composite_key t src records (Z.of_nat n) s
      = (s', inr res)
    ∧ records_failed res = 0
    ∧ failed_chunks res = []
    ∧ (records = [] ∧ res = no_records_result ∧ s' = s
       ∨ records ≠ []
         ∧ (status res = "success" ∨ status res = "already_synced")).
Proof.
  intros Hn.
  destruct (decide (records = [])) as [->|Hne].
  { exists s, no_records_result. split_and!; try done. by left. }
  assert (Hrem : ∀ start si su s0,
            ∃ s' res,
              process_remaining _process_chunk t src records (Z.of_nat n)
                start si su s0 = (s', inr res)
              ∧ records_failed res = 0 ∧ failed_chunks res = []
              ∧ (records = [] ∧ res = no_records_result ∧ s' = s
                 ∨ records ≠ []
                   ∧ (status res = "success"
                      ∨ status res = "already_synced"))).
  { intros start si su s0. rewrite process_remaining_spec by done. cbv zeta.
    destruct (process_chunk_outcomes_return t src
                (chunks_of n (drop start records)) s0 1) as [Hf Hl].
    eexists _, _. split; [reflexivity|]. simpl. rewrite Hf, Hl.
    split_and!; try done. right. split; [done|by left]. }
  rewrite upsert_unfold by done.
  destruct (Nat.ltb SAMPLE_SIZE (length records)); [|apply Hrem].
  unfold bind at 1.
  destruct (process_chunk_total t src (take SAMPLE_SIZE records) s)
    as (s1 & i & u & -> & _).
  cbn [fst snd]. unfold bind at 1.
  destruct (Nat.eqb i 0 && Nat.ltb 0 u).
  - destruct (check_all_total t src records s1) as (s2 & b & ->).
    destruct b; [|apply Hrem].
    eexists _, _. split; [reflexivity|]. split_and!; try done.
    right. split; [done|by right].
  - unfold ret. apply Hrem.
Qed.

(** X5. No storage failure fails a chunk: [_process_chunk] catches what
    the storage raises, so a run with a positive chunk size always
    returns, with [records_failed = 0] and no failed chunk; its status is
    "no_records" for an empty list and otherwise "success" or
    "already_synced", never "partial_success". *)
Theorem engine_never_fails_a_chunk {St : Type} `{!Client St}
    (t src : string) (records : list record) (chunk_size : Z) (s : St) :
  (0 < chunk_size)%Z →
  ∃ s' res,
    upsert_records_with_composite_key t src records chunk_size s
      = (s', inr res)
    ∧ records_failed res = 0
    ∧ failed_chunks res = []
    ∧ status res ≠ "partial_success"
    ∧ (status res = "no_records" ↔ records = []).
Proof.
  intros Hcs. rewrite <- (Z2Nat.id chunk_size) by lia.
  destruct (engine_returns t src records (Z.to_nat chunk_size) s)
    as (s' & res & Hrun & Hf & Hc & Hst); [lia|].
  exists s', res. split_and!; try done.
  - destruct Hst as [(_ & -> & _)|(_ & [->| ->])]; done.
  - destruct Hst as [(-> & -> & _)|(Hne & [Hs|Hs])]; [done| |];
      rewrite Hs; split; done.
Qed.

Lemma engine_never_fails_a_chunk_witness :
  ∃ s' res,
    upsert_records_with_composite_key "t" "X" [jan_record; feb_record]
      1000 timeouts_store = (s', inr res)
    ∧ records_failed res = 0
    ∧ failed_chunks res = []
    ∧ status res ≠ "partial_success"
    ∧ (status res = "no_records" ↔ [jan_record; feb_record] = []).
Proof.
  apply (engine_never_fails_a_chunk "t" "X" [jan_record; feb_record] 1000
           timeouts_store).
  reflexivity.
Defined.

Lemma process_chunk_outcomes_bounded {St : Type} `{!Client St}
    (t src : string) (chunks : list (list record)) (s : St) :
  sum_list (inserted_in <$> (chunk_outcomes _process_chunk t src chunks s).2)
  + sum_list (updated_in <$> (chunk_outcomes _process_chunk t src chunks s).2)
  ≤ length (concat chunks).
Proof.
  revert s. induction chunks as [|c chunks IH]; intros s; [done|].
  simpl. destruct (process_chunk_total t src c s) as (s1 & i & u & -> & Hiu).
  specialize (IH s1).
  destruct (chunk_outcomes _process_chunk t src chunks s1) as [s2 os].
  simpl in *. rewrite length_app.
  change (list_fmap _ _ inserted_in os) with (inserted_in <$> os).
  change (list_fmap _ _ updated_in os) with (updated_in <$> os).
  lia.
Qed.

(** X6. No record is counted twice. For every storage behaviour and every
    positive chunk size the run returns a dictionary in which
    [records_upserted = records_inserted + records_updated] and this sum
    is at most the number of records. *)
Theorem upsert_counts_bounded {St : Type} `{!Client St} (t src : string)
    (records : list record) (n : nat) (s : St) :
  0 < n →
  ∃ s' res,
    upsert_records_with_composite_key t src records (Z.of_nat n) s
      = (s', inr res)
    ∧ records_upserted res = records_inserted res + records_updated res
    ∧ records_inserted res + records_updated res ≤ length records.
Proof.
  intros Hn.
  assert (Hrem : ∀ start si su s0,
            ∃ s' res,
              process_remaining _process_chunk t src records (Z.of_nat n)
                start si su s0 = (s', inr res)
              ∧ records_upserted res
                = records_inserted res + records_updated res
              ∧ records_inserted res + records_updated res
                ≤ si + su + length (drop start records)).
  { intros start si su s0. rewrite process_remaining_spec by done. cbv zeta.
    pose proof (process_chunk_outcomes_bounded t src
                  (chunks_of n (drop start records)) s0) as Hb.
    rewrite chunks_of_concat in Hb by done.
    eexists _, _. split; [reflexivity|]. simpl. split; [done|lia]. }
  destruct (decide (records = [])) as [->|Hne].
  { exists s, no_records_result. by split_and!. }
  rewrite upsert_unfold by done.
  destruct (Nat.ltb SAMPLE_SIZE (length records)) eqn:Hlen.
  - apply Nat.ltb_lt in Hlen. unfold bind at 1.
    destruct (process_chunk_total t src (take SAMPLE_SIZE records) s)
      as (s1 & i & u & -> & Hiu).
    rewrite length_take in Hiu.
    cbn [fst snd]. unfold bind at 1.
    assert (Hcont : ∀ s0,
              ∃ s' res,
                process_remaining _process_chunk t src records (Z.of_nat n)
                  SAMPLE_SIZE i u s0 = (s', inr res)
                ∧ records_upserted res
                  = records_inserted res + records_updated res
                ∧ records_inserted res + records_updated res
                  ≤ length records).
    { intros s0.
      destruct (Hrem SAMPLE_SIZE i u s0) as (s' & res & Hrun & Hsum & Hle).
      exists s', res. split_and!; try done.
      rewrite length_drop in Hle. lia. }
    destruct (Nat.eqb i 0 && Nat.ltb 0 u) eqn:Hiu0.
    + destruct (check_all_total t src records s1) as (s2 & b & ->).
      destruct b; [|apply Hcont].
      apply andb_true_iff in Hiu0 as [Hi%Nat.eqb_eq _].
      eexists _, _. split; [reflexivity|]. simpl. lia.
    + unfold ret. apply Hcont.
  - destruct (Hrem 0 0 0 s) as (s' & res & Hrun & Hsum & Hle).
    exists s', res. split_and!; try done; simpl in Hle; lia.
Qed.

Lemma upsert_counts_bounded_witness :
  ∃ s' res,
    upsert_records_with_composite_key "t" "X" [jan_record; feb_record]
      (Z.of_nat 1) two_release_store = (s', inr res)
    ∧ records_upserted res = records_inserted res + records_updated res
    ∧ records_inserted res + records_updated res
      ≤ length [jan_record; feb_record].
Proof.
  apply (upsert_counts_bounded "t" "X" [jan_record; feb_record] 1
           two_release_store).
  lia.
Defined.

(** X7. The chunk size at its edges, for a non-empty batch. With
    [chunk_size = 0] the run raises the [ValueError] of [range]: at once
    and without a storage call for at most 50 records. With a negative
    [chunk_size] the loop visits no chunk: a batch of at most 50 records
    is reported as "success" with no insert, no update and no failure,
    and nothing of it reaches the storage. *)
Theorem chunk_size_edges {St : Type} `{!Client St} (t src : string)
    (records : list record) (chunk_size : Z) (s : St) :
  records ≠ [] → length records ≤ SAMPLE_SIZE →
  (chunk_size = 0%Z →
   upsert_records_with_composite_key t src records chunk_size s
   = (s, inl (Exception "range() arg 3 must not be zero")))
  ∧ ((chunk_size < 0)%Z →
     upsert_records_with_composite_key t src records chunk_size s
     = (s, inr (mk_result "success" 0 0 0 0 [] (Some t) None))).
Proof.
  intros Hne Hlen. rewrite upsert_unfold by done.
  rewrite (proj2 (Nat.ltb_ge _ _)) by done.
  unfold process_remaining. split.
  - intros ->. done.
  - intros Hneg.
    rewrite (proj2 (Z.eqb_neq _ 0)) by lia.
    rewrite (proj2 (Z.ltb_lt _ 0)) by lia. done.
Qed.

Lemma chunk_size_edges_witness :
  upsert_records_with_composite_key "t" "X" [jan_record; feb_record] (-5)
    mem_empty
  = (mem_empty, inr (mk_result "success" 0 0 0 0 [] (Some "t") None)).
Proof.
  apply (chunk_size_edges "t" "X" [jan_record; feb_record] (-5) mem_empty);
    [discriminate|simpl; unfold SAMPLE_SIZE; lia|lia].
Defined.

(** ** The early exit as a count *)

Lemma sum_list_fmap_add {A} (f g : A → nat) (l : list A) :
  sum_list ((λ x, f x + g x) <$> l) = sum_list (f <$> l) + sum_list (g <$> l).
Proof.
  induction l as [|x l IH]; [done|].
  rewrite !fmap_cons. simpl. rewrite IH. lia.
Qed.

Lemma sum_list_indicator (x : pyval) (D : list pyval) :
  NoDup D →
  sum_list ((λ d, if bool_decide (x = d) then 1 else 0) <$> D)
  = if bool_decide (x ∈ D) then 1 else 0.
Proof.
  induction 1 as [|d D Hd Hnd IH]; [done|].
  rewrite fmap_cons. simpl. rewrite IH.
  destruct (decide (x = d)) as [->|Hne].
  - rewrite bool_decide_true by done.
    rewrite (bool_decide_false (d ∈ D)) by done.
    by rewrite bool_decide_true by left.
  - rewrite bool_decide_false by done. simpl.
    destruct (decide (x ∈ D)) as [Hin|Hnin].
    + rewrite !bool_decide_true; [done|by right|done].
    + rewrite !bool_decide_false; [done| |done].
      rewrite elem_of_cons. tauto.
Qed.

(** The rows of one source, counted release date by release date. *)
Lemma count_rows_by_dates (src : string) (D : list pyval) (R : list record) :
  NoDup D →
  (∀ row, row ∈ R →
     get row "source" = PStr src ∧ get row "release_date" ∈ D) →
  sum_list ((λ d, length (filter (λ row, row_matches src d row) R)) <$> D)
  = length R.
Proof.
  intros Hnd. induction R as [|row R IH]; intros Hall.
  - apply (sum_zeros D).
  - destruct (Hall row ltac:(left)) as [Hsrc Hrd].
    rewrite (list_fmap_ext _
               (λ d, (if bool_decide (get row "release_date" = d)
                      then 1 else 0)
                     + length (filter (λ row, row_matches src d row) R))).
    + rewrite sum_list_fmap_add, sum_list_indicator by done.
      rewrite bool_decide_true by done.
      rewrite IH by (intros; apply Hall; by right). done.
    + intros _ d _. rewrite filter_cons. unfold row_matches at 1.
      destruct (bool_decide_reflect (get row "source" = PStr src)); [|done].
      destruct (bool_decide_reflect (get row "release_date" = d)); simpl.
      * rewrite decide_True; [done|].
        apply andb_True. split; by apply bool_decide_pack.
      * rewrite decide_False; [done|].
        intros [_ Hd]%andb_True. by apply bool_decide_unpack in Hd.
Qed.

Lemma release_dates_of_elem (records : list record) (r : record) :
  r ∈ records → truthy (get r "release_date") = true →
  get r "release_date" ∈ release_dates_of records.
Proof.
  intros Hr Ht. unfold release_dates_of.
  apply elem_of_remove_dups, list_elem_of_filter. split; [by rewrite Ht|].
  by apply (list_elem_of_fmap_2 (λ r, get r "release_date")).
Qed.

(** The early exit fires whenever the store holds the sample and, in all,
    at least as many rows of the batch's release dates as the batch has
    records. *)
Lemma early_exit_on_count (t src : string) (rs filler : list record)
    (cs : Z) (st : mem_store) :
  SAMPLE_SIZE < length rs →
  stored (take SAMPLE_SIZE rs ++ filler) st →
  NoDup (lookup_key <$> (take SAMPLE_SIZE rs ++ filler)) →
  Forall (λ r, get r "source" = PStr src
               ∧ truthy (get r "release_date") = true)
         (take SAMPLE_SIZE rs) →
  Forall (λ r, get r "source" = PStr src
               ∧ get r "release_date" ∈ release_dates_of rs) filler →
  length rs - SAMPLE_SIZE ≤ length filler →
  upsert_records_with_composite_key t src rs cs st
  = (st, inr (already_synced_result t SAMPLE_SIZE)).
Proof.
  intros Hlen Hst Hnd Hsample Hfiller Hcount.
  assert (Hne : rs ≠ []) by (intros ->; simpl in Hlen; lia).
  rewrite upsert_unfold by done.
  rewrite (proj2 (Nat.ltb_lt _ _)) by done.
  pose proof (second_run_chunk t src _ (take SAMPLE_SIZE rs) st Hst Hnd)
    as Hrun.
  rewrite length_take, Nat.min_l in Hrun by lia.
  unfold bind at 1.
  rewrite Hrun by (intros r Hr; apply elem_of_app; by left).
  cbn [fst snd].
  change (Nat.eqb 0 0 && Nat.ltb 0 SAMPLE_SIZE) with true.
  unfold bind at 1. rewrite mem_check_all.
  assert (Hdates : ∀ row, row ∈ rows st →
            get row "source" = PStr src
            ∧ get row "release_date" ∈ release_dates_of rs).
  { intros row Hrow. destruct Hst as [Hrows _]. rewrite Hrows in Hrow.
    apply with_ids_elem in Hrow as (k & r & Hk & ->).
    rewrite !get_insert_ne by done.
    apply list_elem_of_lookup_2, elem_of_app in Hk as [Hr|Hr].
    - destruct (proj1 (Forall_forall _ _) Hsample r Hr) as [Hs Ht].
      split; [done|]. apply release_dates_of_elem; [|done].
      by eapply subseteq_take.
    - by apply (proj1 (Forall_forall _ _) Hfiller r Hr). }
  assert (Hsum : sum_list ((λ d, existing_rows src d st)
                             <$> release_dates_of rs)
                 = length (rows st)).
  { unfold existing_rows. apply count_rows_by_dates; [|done].
    apply NoDup_remove_dups. }
  rewrite Hsum, (stored_length _ st Hst), length_app, length_take.
  rewrite Nat.min_l by lia.
  rewrite (proj2 (Nat.leb_le _ _)) by lia.
  rewrite bool_decide_true; [done|].
  intros Hd.
  destruct rs as [|r rs]; [done|].
  assert (Hr : r ∈ take SAMPLE_SIZE (r :: rs)) by (simpl; left).
  destruct (proj1 (Forall_forall _ _) Hsample r Hr) as [_ Ht].
  assert (Hin : get r "release_date" ∈ release_dates_of (r :: rs))
    by (apply release_dates_of_elem; [left|done]).
  rewrite Hd in Hin. by apply elem_of_nil in Hin.
Qed.

(** X8. Re-running an unchanged batch of more than 50 records. When every
    record carries the source name and a release date, and no two records
    share the engine's key, a first run against the empty store (positive
    chunk size) stores the batch, and any later run with the same records
    returns "already_synced" after the 50-record sample, with
    [records_updated = 50], leaving the store as it is - whatever chunk
    size that later run is given, zero and negative ones included. *)
Theorem unchanged_batch_is_already_synced (t src : string)
    (rs : list record) (n : nat) (cs : Z) :
  0 < n → SAMPLE_SIZE < length rs →
  NoDup (lookup_key <$> rs) →
  Forall (λ r, get r "source" = PStr src
               ∧ truthy (get r "release_date") = true) rs →
  ∃ s1 res1,
    upsert_records_with_composite_key t src rs (Z.of_nat n) mem_empty
      = (s1, inr res1)
    ∧ records_inserted res1 = length rs
    ∧ upsert_records_with_composite_key t src rs cs s1
      = (s1, inr (already_synced_result t SAMPLE_SIZE)).
Proof.
  intros Hn Hlen Hnd Hgood.
  destruct (first_run t src rs n Hn Hnd) as (s1 & res1 & Hrun1 & Hs1 & Hi1).
  exists s1, res1. split_and!; try done.
  apply (early_exit_on_count t src rs (drop SAMPLE_SIZE rs)).
  - done.
  - by rewrite take_drop.
  - by rewrite take_drop.
  - apply Forall_forall. intros r Hr.
    apply (proj1 (Forall_forall _ _) Hgood). by eapply subseteq_take.
  - apply Forall_forall. intros r Hr.
    assert (r ∈ rs) as Hin by (by eapply subseteq_drop).
    destruct (proj1 (Forall_forall _ _) Hgood r Hin) as [Hs Ht].
    split; [done|]. by apply release_dates_of_elem.
  - rewrite length_drop. lia.
Qed.

Lemma unchanged_batch_is_already_synced_witness :
  ∃ s1 res1,
    upsert_records_with_composite_key "t" "X" (numbered_records 51)
      (Z.of_nat 1000) mem_empty = (s1, inr res1)
    ∧ records_inserted res1 = length (numbered_records 51)
    ∧ upsert_records_with_composite_key "t" "X" (numbered_records 51) 0 s1
      = (s1, inr (already_synced_result "t" SAMPLE_SIZE)).
Proof.
  apply (unchanged_batch_is_already_synced "t" "X" (numbered_records 51)
           1000 0).
  - lia.
  - by_compute.
  - by_compute.
  - by_compute.
Defined.

(** X9. The early exit is a count, not a match. If the store holds the
    first 50 records of a batch and, in all, at least as many rows of the
    batch's source and release dates as the batch has records, the run
    returns "already_synced" and leaves the store as it is; a record after
    the sample whose key is not stored is therefore never written. *)
Theorem early_exit_skips_unstored_records (t src : string)
    (rs filler : list record) (cs : Z) (st : mem_store) :
  SAMPLE_SIZE < length rs →
  stored (take SAMPLE_SIZE rs ++ filler) st →
  NoDup (lookup_key <$> (take SAMPLE_SIZE rs ++ filler)) →
  Forall (λ r, get r "source" = PStr src
               ∧ truthy (get r "release_date") = true)
         (take SAMPLE_SIZE rs) →
  Forall (λ r, get r "source" = PStr src
               ∧ get r "release_date" ∈ release_dates_of rs) filler →
  length rs - SAMPLE_SIZE ≤ length filler →
  ∃ st',
    upsert_records_with_composite_key t src rs cs st
      = (st', inr (already_synced_result t SAMPLE_SIZE))
    ∧ rows st' = rows st
    ∧ ∀ r, r ∈ rs →
        composite_key r ∉ composite_key <$> (take SAMPLE_SIZE rs ++ filler) →
        composite_key r ∉ composite_key <$> rows st'.
Proof.
  intros Hlen Hst Hnd Hsample Hfiller Hcount.
  exists st. split_and!; [|done|].
  - by apply (early_exit_on_count t src rs filler).
  - intros r _ Hr.
    by rewrite (stored_row_keys composite_key _ st)
      by (done || apply composite_key_id).
Qed.

Lemma early_exit_skips_unstored_records_witness :
  ∃ st',
    upsert_records_with_composite_key "t" "X" (numbered_records 51) 1000
      short_store = (st', inr (already_synced_result "t" SAMPLE_SIZE))
    ∧ rows st' = rows short_store
    ∧ composite_key (mk_record "X" "50" "January 2025" PNone 50)
      ∉ composite_key <$> rows st'.
Proof.
  destruct (early_exit_skips_unstored_records "t" "X" (numbered_records 51)
              [other_code_record] 1000 short_store)
    as (st' & Hrun & Hrows & Habsent).
  - by_compute.
  - split; by_compute.
  - by_compute.
  - by_compute.
  - by_compute.
  - by_compute.
  - exists st'. split_and!; [done|done|].
    apply (Habsent (mk_record "X" "50" "January 2025" PNone 50));
      by_compute.
Defined.

(** ** The deduplication loop on any input and with any key *)

Section DedupBy.
Variable kf : record → key.

Lemma dedup_by_inv_init : dedup_inv_by kf [] dedup_init.
Proof. split; simpl; done. Qed.

Lemma dedup_by_inv_step (l : list record) (st : dedup_state) (r : record) :
  dedup_inv_by kf l st → dedup_inv_by kf (l ++ [r]) (dedup_step_by kf st r).
Proof.
  intros [Hkeys Hseen Hlast Hcount].
  assert (Hnd : NoDup (kf <$> deduplicated_records st)).
  { rewrite Hkeys. apply first_seen_NoDup. }
  unfold dedup_step_by.
  destruct (seen_keys st !! kf r) as [index|] eqn:Hlk.
  - pose proof (proj1 (Hseen _ _) Hlk) as Hidx.
    assert (Hin : kf r ∈ kf <$> l).
    { apply first_seen_elem. rewrite <- Hkeys.
      by eapply list_elem_of_lookup_2. }
    assert (Hsame : kf <$> <[index := r]> (deduplicated_records st)
                    = kf <$> deduplicated_records st).
    { rewrite list_fmap_insert. by apply list_insert_id. }
    split; simpl.
    + rewrite Hsame, fmap_app. simpl.
      by rewrite first_seen_snoc, decide_True.
    + by rewrite Hsame.
    + intros i r' Hi.
      destruct (decide (i = index)) as [->|Hne].
      * assert (index < length (deduplicated_records st)) as Hlt.
        { apply lookup_lt_Some in Hidx. by rewrite length_fmap in Hidx. }
        rewrite list_lookup_insert_eq in Hi by done. simplify_eq.
        by apply last_with_snoc_eq.
      * rewrite list_lookup_insert_ne in Hi by done.
        rewrite last_with_snoc_ne; [by eapply Hlast|].
        intros Heq. apply Hne. symmetry.
        eapply NoDup_lookup; [exact Hnd|exact Hidx|].
        rewrite list_lookup_fmap, Hi. simpl. by rewrite Heq.
    + rewrite length_insert, length_app. simpl. lia.
  - assert (Hnin : kf r ∉ kf <$> deduplicated_records st).
    { intros [i Hi]%list_elem_of_lookup_1.
      apply Hseen in Hi. congruence. }
    assert (Hnin' : kf r ∉ kf <$> l).
    { by rewrite <- first_seen_elem, <- Hkeys. }
    split; simpl.
    + rewrite !fmap_app. simpl.
      by rewrite first_seen_snoc, decide_False, Hkeys.
    + intros k i. rewrite fmap_app. simpl.
      rewrite lookup_insert. case_decide as Hk.
      * subst k. split.
        -- intros [= <-]. rewrite lookup_app_r, length_fmap by
             (by rewrite length_fmap).
           by rewrite Nat.sub_diag.
        -- intros Hi. f_equal.
           apply lookup_snoc_Some in Hi as [[_ Hi]|[Hi _]].
           ++ exfalso. apply Hnin. by eapply list_elem_of_lookup_2.
           ++ by rewrite length_fmap in Hi.
      * rewrite Hseen. split.
        -- apply lookup_app_l_Some.
        -- intros Hi. apply lookup_snoc_Some in Hi as [[_ Hi]|[_ Hi]];
             [done|congruence].
    + intros i r' Hi.
      apply lookup_snoc_Some in Hi as [[_ Hi]|[_ <-]].
      * rewrite last_with_snoc_ne; [by eapply Hlast|].
        intros Heq. apply Hnin. rewrite Heq.
        apply list_elem_of_fmap_2. by eapply list_elem_of_lookup_2.
      * by apply last_with_snoc_eq.
    + rewrite !length_app. simpl. lia.
Qed.

Lemma dedup_by_inv_fold (l l0 : list record) (st : dedup_state) :
  dedup_inv_by kf l0 st →
  dedup_inv_by kf (l0 ++ l) (fold_left (dedup_step_by kf) l st).
Proof.
  revert l0 st. induction l as [|r l IH]; intros l0 st Hinv; simpl.
  - by rewrite app_nil_r.
  - rewrite (assoc_L _ l0 [r] l : l0 ++ r :: l = (l0 ++ [r]) ++ l).
    apply IH. by apply dedup_by_inv_step.
Qed.

Lemma dedup_by_inv (l : list record) : dedup_inv_by kf l (dedup_by kf l).
Proof. apply (dedup_by_inv_fold l [] dedup_init), dedup_by_inv_init. Qed.

Lemma dedup_by_output_subset (l : list record) (r : record) :
  r ∈ deduplicated_records (dedup_by kf l) →
  r ∈ l ∧ last_with kf (kf r) l = Some r.
Proof.
  intros [i Hi]%list_elem_of_lookup_1.
  apply (inv_by_last _ _ _ (dedup_by_inv l)) in Hi. split; [|done].
  unfold last_with in Hi.
  apply last_Some_elem_of, list_elem_of_filter in Hi. tauto.
Qed.

Lemma filter_all {A} (P : A → Prop) `{∀ x, Decision (P x)} (l0 : list A) :
  (∀ x, x ∈ l0 → P x) → filter P l0 = l0.
Proof.
  induction l0 as [|x l0 IH]; intros Hl; [done|].
  rewrite filter_cons_True by (apply Hl; left).
  f_equal. apply IH. intros y Hy. apply Hl. by right.
Qed.

Lemma first_seen_NoDup_id (ks : list key) : NoDup ks → first_seen ks = ks.
Proof.
  induction 1 as [|k ks Hk Hnd IH]; [done|].
  simpl. rewrite IH. f_equal. apply filter_all.
  intros k' Hk' ->. done.
Qed.

(** A batch without two records of one key goes through the loop as it
    is. *)
Lemma dedup_by_NoDup (l : list record) :
  NoDup (kf <$> l) →
  deduplicated_records (dedup_by kf l) = l
  ∧ duplicates_removed (dedup_by kf l) = 0.
Proof.
  intros Hnd.
  destruct (dedup_by_inv l) as [Hkeys Hseen Hlast Hcount].
  rewrite first_seen_NoDup_id in Hkeys by done.
  assert (Hlen : length (deduplicated_records (dedup_by kf l)) = length l).
  { by rewrite <- (length_fmap kf), Hkeys, length_fmap. }
  split; [|lia].
  apply list_eq. intros i.
  destruct (deduplicated_records (dedup_by kf l) !! i) as [r'|] eqn:Hi.
  - assert (Hk : (kf <$> l) !! i = Some (kf r')).
    { by rewrite <- Hkeys, list_lookup_fmap, Hi. }
    rewrite list_lookup_fmap in Hk.
    destruct (l !! i) as [r|] eqn:Hr; simplify_eq/=. f_equal.
    apply Hlast in Hi. unfold last_with in Hi.
    apply last_Some_elem_of, list_elem_of_filter in Hi as [_ Hin].
    eapply (NoDup_fmap_eq kf l); eauto.
    by eapply list_elem_of_lookup_2.
  - apply lookup_ge_None in Hi. symmetry. apply lookup_ge_None. lia.
Qed.
End DedupBy.

Lemma dedup_by_dedup_key (l : list record) : dedup_by dedup_key l = dedup l.
Proof. done. Qed.

(** X10. The deduplication loop of [insert_records], on any list of
    records and for the key of any handler: the output holds one record
    per distinct key, the keys in the order of their first occurrence, and
    for each key the last record of the input with that key;
    [duplicates_removed] counts exactly the records left out, and a
    non-empty input gives a non-empty output. *)
Theorem dedup_loop_keeps_last_per_key (kf : record → key)
    (l : list record) :
  let out := deduplicated_records (dedup_by kf l) in
  kf <$> out = first_seen (kf <$> l)
  ∧ NoDup (kf <$> out)
  ∧ (∀ k, k ∈ kf <$> out ↔ k ∈ kf <$> l)
  ∧ (∀ r, r ∈ out ↔ r ∈ l ∧ last_with kf (kf r) l = Some r)
  ∧ duplicates_removed (dedup_by kf l) + length out = length l
  ∧ (l ≠ [] → out ≠ []).
Proof.
  cbv zeta. pose proof (dedup_by_inv kf l) as [Hkeys Hseen Hlast Hcount].
  assert (Hel : ∀ k, k ∈ kf <$> deduplicated_records (dedup_by kf l)
                     ↔ k ∈ kf <$> l).
  { intros k. rewrite Hkeys. apply first_seen_elem. }
  split_and!.
  - exact Hkeys.
  - rewrite Hkeys. apply first_seen_NoDup.
  - exact Hel.
  - intros r. split; [apply dedup_by_output_subset|].
    intros [Hr Hl].
    assert (Hk : kf r ∈ kf <$> deduplicated_records (dedup_by kf l)).
    { apply Hel. by apply list_elem_of_fmap_2. }
    apply list_elem_of_fmap in Hk as (r' & Hkr & Hr').
    pose proof (dedup_by_output_subset kf l r' Hr') as [_ Hl'].
    rewrite <- Hkr, Hl in Hl'. by simplify_eq.
  - exact Hcount.
  - intros Hne Hout. destruct l as [|r l]; [done|].
    assert (Hk : kf r ∈ kf <$> deduplicated_records (dedup_by kf (r :: l))).
    { apply Hel. rewrite fmap_cons. left. }
    rewrite Hout in Hk. by apply elem_of_nil in Hk.
Qed.

(** X11. The deduplication loop is idempotent: run on its own output it
    returns that output and removes nothing. *)
Theorem dedup_loop_idempotent (kf : record → key) (l : list record) :
  let out := deduplicated_records (dedup_by kf l) in
  deduplicated_records (dedup_by kf out) = out
  ∧ duplicates_removed (dedup_by kf out) = 0.
Proof.
  cbv zeta. apply dedup_by_NoDup.
  rewrite (inv_by_keys _ _ _ (dedup_by_inv kf l)). apply first_seen_NoDup.
Qed.

(** X12. The Horizon ASC loop keys on [(source, code, geozip, data_type)]
    and not on the release date: of two records of the batch that agree on
    these four and carry different release dates at most one reaches the
    engine, and the one record the output has for their key is the last of
    the batch with that key. *)
Theorem horizon_dedup_ignores_release_date (l : list record)
    (r r' : record) :
  r ∈ l → r' ∈ l →
  horizon_dedup_key r = horizon_dedup_key r' →
  get r "release_date" ≠ get r' "release_date" →
  let out := deduplicated_records (dedup_by horizon_dedup_key l) in
  ¬ (r ∈ out ∧ r' ∈ out)
  ∧ ∃ w, last_with horizon_dedup_key (horizon_dedup_key r) l = Some w
         ∧ filter (λ x, horizon_dedup_key x = horizon_dedup_key r) out = [w].
Proof.
  intros Hr Hr' Hk Hrd. cbv zeta.
  pose proof (dedup_by_inv horizon_dedup_key l) as [Hkeys _ _ _].
  assert (Hnd : NoDup (horizon_dedup_key
                         <$> deduplicated_records
                               (dedup_by horizon_dedup_key l))).
  { rewrite Hkeys. apply first_seen_NoDup. }
  split.
  - intros [Ho Ho'].
    apply Hrd. f_equal.
    by eapply (NoDup_fmap_eq horizon_dedup_key).
  - assert (Hin : horizon_dedup_key r
                  ∈ horizon_dedup_key
                      <$> deduplicated_records (dedup_by horizon_dedup_key l)).
    { rewrite Hkeys. apply first_seen_elem. by apply list_elem_of_fmap_2. }
    apply list_elem_of_fmap in Hin as (w & Hw & Hwo).
    exists w. split.
    + rewrite Hw. by apply dedup_by_output_subset.
    + revert Hnd Hwo.
      generalize (deduplicated_records (dedup_by horizon_dedup_key l)).
      intros out. induction out as [|x out IH]; intros Hnd Hwo.
      { by apply elem_of_nil in Hwo. }
      rewrite fmap_cons in Hnd. apply NoDup_cons in Hnd as [Hx Hnd].
      rewrite filter_cons.
      destruct (decide (horizon_dedup_key x = horizon_dedup_key r))
        as [Hxr|Hxr].
      * assert (x = w) as ->.
        { apply elem_of_cons in Hwo as [->|Hwo]; [done|].
          exfalso. apply Hx. rewrite Hxr, Hw. by apply list_elem_of_fmap_2. }
        f_equal. apply filter_none. intros y Hy Hyk.
        apply Hx. rewrite <- Hw, <- Hyk. by apply list_elem_of_fmap_2.
      * apply IH; [done|].
        apply elem_of_cons in Hwo as [->|Hwo]; [|done]. congruence.
Qed.

Lemma horizon_dedup_ignores_release_date_witness :
  ¬ (horizon_2024 ∈ deduplicated_records
                      (dedup_by horizon_dedup_key [horizon_2024; horizon_2025])
     ∧ horizon_2025 ∈ deduplicated_records
                        (dedup_by horizon_dedup_key
                                  [horizon_2024; horizon_2025]))
  ∧ ∃ w, last_with horizon_dedup_key (horizon_dedup_key horizon_2024)
           [horizon_2024; horizon_2025] = Some w
         ∧ filter (λ x, horizon_dedup_key x = horizon_dedup_key horizon_2024)
             (deduplicated_records
                (dedup_by horizon_dedup_key [horizon_2024; horizon_2025]))
           = [w].
Proof.
  apply (horizon_dedup_ignores_release_date [horizon_2024; horizon_2025]
           horizon_2024 horizon_2025).
  - by_compute.
  - by_compute.
  - by_compute.
  - by_compute.
Defined.

(** The same two records under the key of the other handlers, which has
    the release date: both are kept. *)
Example release_dates_kept_apart :
  deduplicated_records (dedup [horizon_2024; horizon_2025])
  = [horizon_2024; horizon_2025]
  ∧ deduplicated_records (dedup_by horizon_dedup_key
                                   [horizon_2024; horizon_2025])
    = [horizon_2025].
Proof. split; by_compute. Qed.

(** ** Validation in the handlers *)

Lemma get_existing_release_date_total {St : Type} `{!Client St}
    (t src : string) (s : St) :
  ∃ s' v, get_existing_release_date t src s = (s', inr v)
          ∧ (v = PNone ∨ truthy v = true).
Proof.
  unfold get_existing_release_date, try_catch, bind, ret.
  destruct (select_release_date t src s) as [s1 [e|[|first data]]].
  - exists s1, PNone. split; [done|by left].
  - exists s1, PNone. split; [done|by left].
  - destruct (truthy (get first "release_date")) eqn:Ht.
    + exists s1, (get first "release_date"). split; [done|by right].
    + exists s1, PNone. split; [done|by left].
Qed.

Lemma omap_Forall2 {A B} (f : A → option B) (P : A → Prop)
    `{∀ x, Decision (P x)} (R : A → B → Prop) (l : list A) :
  (∀ x, x ∈ l → ¬ P x → f x = None) →
  (∀ x, x ∈ l → P x → ∃ y, f x = Some y ∧ R x y) →
  Forall2 R (filter P l) (omap f l).
Proof.
  induction l as [|x l IH]; intros Hno Hyes; [constructor|].
  assert (IH' : Forall2 R (filter P l) (omap f l)).
  { apply IH; intros y Hy; [apply Hno|apply Hyes]; by right. }
  rewrite filter_cons. simpl. destruct (decide (P x)) as [Hx|Hx].
  - destruct (Hyes x) as (y & -> & Hy); [left|done|]. by constructor.
  - rewrite (Hno x); [done|left|done].
Qed.

(** The Preparer in one equation: which records it keeps and the release
    date it gives them. *)
Lemma prepare_cases (r : record) (src : string) (ex : pyval) (hg : bool) :
  prepare_record_for_insertion r src ex hg
  = if code_ok (get r "code")
       && (truthy (get r "release_date") || truthy ex
           || truthy (get r "rel_date"))
    then Some (<["release_date" :=
                   py_or (get r "release_date") (py_or ex (get r "rel_date"))]>
                 (stamped r src hg))
    else None.
Proof.
  rewrite prepare_unfold, !missing_or_falsy_get. unfold py_or.
  destruct (code_ok (get r "code")); simpl; [|done].
  destruct (truthy (get r "release_date")) eqn:Hrd; simpl.
  - f_equal. symmetry. apply insert_id.
    rewrite stamped_release_date. unfold get in *.
    by destruct (r !! "release_date").
  - destruct (truthy ex); simpl; [done|].
    by destruct (truthy (get r "rel_date")).
Qed.

(** X13. [_validate_and_prepare_records] as a whole, for any storage: it
    never raises, and it returns, in input order, the records whose code
    passes the code check and for which a release date can be found (their
    own, else the one the lookup returned, else their [rel_date]), each
    with its source stamped, its geozip normalised and that release
    date. So once the store tracks a release date, only the code check
    rejects. *)
Theorem validation_keeps_and_dates {St : Type} `{!Client St} (hg : bool)
    (t src : string) (records : list record) (s : St) :
  ∃ s' ex out,
    get_existing_release_date t src s = (s', inr ex)
    ∧ validate_and_prepare hg t src records s = (s', inr out)
    ∧ Forall2
        (λ r o, o = <["release_date" :=
                        py_or (get r "release_date")
                              (py_or ex (get r "rel_date"))]>
                      (stamped r src hg))
        (filter (λ r, code_ok (get r "code")
                      && (truthy (get r "release_date") || truthy ex
                          || truthy (get r "rel_date")) = true) records)
        out
    ∧ (truthy ex = true →
       length out
       = length (filter (λ r, code_ok (get r "code") = true) records)).
Proof.
  destruct (get_existing_release_date_total t src s) as (s' & ex & Hex & _).
  exists s', ex,
    (omap (λ r, prepare_record_for_insertion r src ex hg) records).
  assert (Hall : Forall2
            (λ r o, o = <["release_date" :=
                            py_or (get r "release_date")
                                  (py_or ex (get r "rel_date"))]>
                          (stamped r src hg))
            (filter (λ r, code_ok (get r "code")
                          && (truthy (get r "release_date") || truthy ex
                              || truthy (get r "rel_date")) = true) records)
            (omap (λ r, prepare_record_for_insertion r src ex hg) records)).
  { apply omap_Forall2.
    - intros r _ Hr. rewrite prepare_cases.
      by destruct (code_ok _ && _).
    - intros r _ Hr. rewrite prepare_cases, Hr. by eexists. }
  split_and!; [done| |done|].
  - unfold validate_and_prepare, bind. by rewrite Hex.
  - intros Ht. rewrite <- (Forall2_length _ _ _ Hall). f_equal.
    apply list_filter_iff. intros r. rewrite Ht, orb_true_r, orb_true_l.
    by rewrite andb_true_r.
Qed.

(** X14. The New Jersey DOBI validation, for any storage: a record is
    rejected by the code check only, never for want of a release date. A
    record without a release date of its own gets the tracked one, else
    its [rel_date], else the constant "January 2024", and a record without
    a [rel_date] keeps the fallback date as its [rel_date]. *)
Theorem nj_dobi_validation_always_dates {St : Type} `{!Client St}
    (t src : string) (records : list record) (s : St) :
  ∃ s' ex out,
    get_existing_release_date t src s = (s', inr ex)
    ∧ New_Jersey_DOBI._validate_and_prepare_records t src records s
      = (s', inr out)
    ∧ Forall2
        (λ r o,
           o = <["release_date" :=
                   py_or (get r "release_date")
                     (py_or ex
                        (py_or (get r "rel_date")
                               (PStr New_Jersey_DOBI.NJ_DOBI_RELEASE_DATE)))]>
                 (stamped
                    (New_Jersey_DOBI.with_fallback_rel_date
                       (py_or ex (PStr New_Jersey_DOBI.NJ_DOBI_RELEASE_DATE))
                       r)
                    src false)
           ∧ truthy (get o "release_date") = true
           ∧ truthy (get o "rel_date") = true)
        (filter (λ r, code_ok (get r "code") = true) records)
        out.
Proof.
  destruct (get_existing_release_date_total t src s) as (s' & ex & Hex & _).
  set (fb := py_or ex (PStr New_Jersey_DOBI.NJ_DOBI_RELEASE_DATE)).
  exists s', ex,
    (omap (λ r, prepare_record_for_insertion
                  (New_Jersey_DOBI.with_fallback_rel_date fb r) src ex false)
          records).
  split_and!; [done| |].
  { unfold New_Jersey_DOBI._validate_and_prepare_records, bind.
    by rewrite Hex. }
  assert (Hfb : truthy fb = true).
  { unfold fb, py_or. by destruct (truthy ex) eqn:Ht. }
  assert (Hk : ∀ r k, k ≠ "rel_date" →
             get (New_Jersey_DOBI.with_fallback_rel_date fb r) k = get r k).
  { intros r k Hne. unfold New_Jersey_DOBI.with_fallback_rel_date.
    destruct (missing_or_falsy r "rel_date"); [|done].
    unfold get. by rewrite lookup_insert_ne. }
  assert (Hrel : ∀ r,
             get (New_Jersey_DOBI.with_fallback_rel_date fb r) "rel_date"
             = py_or (get r "rel_date") fb).
  { intros r. unfold New_Jersey_DOBI.with_fallback_rel_date.
    rewrite missing_or_falsy_get. unfold py_or.
    destruct (truthy (get r "rel_date")); simpl; [done|].
    unfold get. by rewrite lookup_insert_eq. }
  assert (Hrt : ∀ r, truthy (py_or (get r "rel_date") fb) = true).
  { intros r. unfold py_or at 1.
    by destruct (truthy (get r "rel_date")) eqn:Ht. }
  apply omap_Forall2.
  - intros r _ Hr. rewrite prepare_cases, Hk by done.
    by destruct (code_ok (get r "code")).
  - intros r _ Hr.
    rewrite prepare_cases, !Hk, Hrel, Hr, Hrt, orb_true_r by done.
    eexists. split; [reflexivity|].
    assert (Hd : py_or (get r "release_date")
                   (py_or ex (py_or (get r "rel_date") fb))
                 = py_or (get r "release_date")
                     (py_or ex
                        (py_or (get r "rel_date")
                           (PStr New_Jersey_DOBI.NJ_DOBI_RELEASE_DATE)))).
    { unfold fb, py_or.
      destruct (truthy (get r "release_date")); [done|].
      by destruct (truthy ex). }
    rewrite Hd. split_and!; [done| |].
    + unfold get at 1. rewrite lookup_insert_eq. simpl.
      unfold py_or.
      destruct (truthy (get r "release_date")) eqn:H1; [done|].
      destruct (truthy ex) eqn:H2; [done|].
      by destruct (truthy (get r "rel_date")) eqn:H3.
    + unfold get at 1. rewrite lookup_insert_ne, stamped_rel_date by done.
      fold (get (New_Jersey_DOBI.with_fallback_rel_date fb r) "rel_date").
      by rewrite Hrel.
Qed.

(** ** The pipeline of a handler: validate, deduplicate, reconcile *)

Lemma dedup_by_nonempty (kf : record → key) (l : list record) :
  l ≠ [] → deduplicated_records (dedup_by kf l) ≠ [].
Proof.
  intros Hne Hout. destruct l as [|r l]; [done|].
  pose proof (inv_by_keys _ _ _ (dedup_by_inv kf (r :: l))) as Hkeys.
  rewrite Hout in Hkeys. done.
Qed.

Lemma insert_records_with_returns {St : Type} `{!Client St}
    (validate : string → string → list record → M St (list record))
    (kf : record → key) (t src : string) (records : list record) (s : St) :
  (∀ s0, ∃ s1 v, validate t src records s0 = (s1, inr v)) →
  ∃ s' sm,
    insert_records_with validate kf t src records s = (s', inr sm)
    ∧ clean_summary records sm.
Proof.
  intros Hval. destruct records as [|r records].
  { exists s, (Short "no_records" t). split; [done|]. simpl. by left. }
  unfold insert_records_with. unfold bind at 1.
  destruct (Hval s) as (s1 & v & ->).
  destruct v as [|o v].
  { exists s1, (Short "no_valid_records" t). split; [done|]. simpl.
    by right. }
  unfold bind, ret.
  destruct (engine_returns t src
              (deduplicated_records (dedup_by kf (o :: v))) 1000 s1)
    as (s2 & res & Hrun & Hf & Hc & Hst); [lia|].
  change (Z.of_nat 1000) with 1000%Z in Hrun. rewrite Hrun.
  exists s2, (Full res). split; [done|]. simpl. split_and!; try done.
  destruct Hst as [(He & _)|(_ & Hs)]; [|done].
  by apply dedup_by_nonempty in He.
Qed.

Lemma validate_and_prepare_total {St : Type} `{!Client St} (hg : bool)
    (t src : string) (records : list record) (s : St) :
  ∃ s' v, validate_and_prepare hg t src records s = (s', inr v).
Proof.
  destruct (get_existing_release_date_total t src s) as (s' & ex & Hex & _).
  unfold validate_and_prepare, bind. rewrite Hex. by eexists _, _.
Qed.

(** X15. [insert_records] of the Novitas, Horizon ASC and New Jersey DOBI
    handlers never raises, whatever the storage does. It answers
    "no_records" exactly on an empty list and "no_valid_records" only on a
    non-empty one; otherwise it returns the dictionary of an engine run
    that has no failed record and no failed chunk, with status "success"
    or "already_synced": the engine is always handed a non-empty list and
    the chunk size 1000, so its statuses "no_records" and
    "partial_success" and its error on a zero chunk size cannot occur. *)
Theorem insert_records_never_raise {St : Type} `{!Client St}
    (records : list record) (s : St) :
  (∃ s' sm, Novitas.insert_records records s = (s', inr sm)
            ∧ clean_summary records sm)
  ∧ (∃ s' sm, Horizon_ASC.insert_records records s = (s', inr sm)
              ∧ clean_summary records sm)
  ∧ (∃ s' sm, New_Jersey_DOBI.insert_records records s = (s', inr sm)
              ∧ clean_summary records sm).
Proof.
  split_and!; apply insert_records_with_returns; intros s0.
  - apply (validate_and_prepare_total false).
  - apply (validate_and_prepare_total true).
  - destruct (get_existing_release_date_total
                New_Jersey_DOBI.table_name New_Jersey_DOBI.source_name s0)
      as (s1 & ex & Hex & _).
    unfold New_Jersey_DOBI._validate_and_prepare_records, bind.
    rewrite Hex. by eexists _, _.
Qed.

(** X16. The Fair Health Physicians handler never raises either, and its
    [success] flag is [False] when nothing is valid and, after an engine
    run, [True] exactly when the status is "success": a run that ends in
    the early exit "already_synced" is reported with [success = False],
    and these are the only two outcomes of the engine here. *)
Theorem physicians_success_flag {St : Type} `{!Client St}
    (records : list record) (s : St) :
  ∃ s' sm,
    Fair_Health_Physicians.insert_records records s = (s', inr sm)
    ∧ match sm with
      | Fair_Health_Physicians.NoRecords _ => records = [] ∧ s' = s
      | Fair_Health_Physicians.NoValidRecords _ success =>
          records ≠ [] ∧ success = false
      | Fair_Health_Physicians.Upserted res success =>
          records ≠ []
          ∧ records_failed res = 0
          ∧ (success = true ∧ status res = "success"
             ∨ success = false ∧ status res = "already_synced")
      end.
Proof.
  destruct records as [|r records].
  { by exists s, (Fair_Health_Physicians.NoRecords
                    Fair_Health_Physicians.TABLE_NAME). }
  unfold Fair_Health_Physicians.insert_records. unfold bind at 1.
  destruct (validate_and_prepare_total true
              Fair_Health_Physicians.TABLE_NAME
              Fair_Health_Physicians.SOURCE_NAME (r :: records) s)
    as (s1 & v & Hv).
  unfold Fair_Health_Physicians._validate_and_prepare_records.
  rewrite Hv. destruct v as [|o v].
  { by eexists _, _. }
  unfold bind, ret.
  destruct (engine_returns Fair_Health_Physicians.TABLE_NAME
              Fair_Health_Physicians.SOURCE_NAME
              (deduplicated_records (dedup_by dedup_key (o :: v))) 1000 s1)
    as (s2 & res & Hrun & Hf & Hc & Hst); [lia|].
  change (Z.of_nat 1000) with 1000%Z in Hrun. rewrite Hrun.
  eexists _, _. split; [reflexivity|]. split_and!; try done.
  destruct Hst as [(He & _)|(_ & [Hs|Hs])].
  - by apply dedup_by_nonempty in He.
  - left. by rewrite Hs.
  - right. by rewrite Hs.
Qed.

(** A record of a batch whose records all resolve to the release date
    [d] is prepared in the same way whether the store tracks nothing yet
    or tracks [d]. *)
Lemma prepare_single_date (r : record) (src : string) (ex d : pyval)
    (hg : bool) :
  truthy d = true →
  py_or (get r "release_date") (get r "rel_date") = d →
  ex = PNone ∨ ex = d →
  prepare_record_for_insertion r src ex hg
  = if code_ok (get r "code")
    then Some (<["release_date" := d]> (stamped r src hg))
    else None.
Proof.
  intros Hd Hr Hex. rewrite prepare_cases. unfold py_or in *.
  destruct (truthy (get r "release_date")) eqn:H1.
  - subst d. simpl. by rewrite andb_true_r.
  - rewrite Hr, Hd, orb_true_r, andb_true_r.
    destruct Hex as [->| ->]; simpl; [done|by rewrite Hd].
Qed.

Lemma mem_tracks_first_row (t src : string) (o : record)
    (os : list record) (s1 : mem_store) :
  stored (o :: os) s1 →
  get o "source" = PStr src →
  truthy (get o "release_date") = true →
  get_existing_release_date t src s1 = (s1, inr (get o "release_date")).
Proof.
  intros [Hrows _] Hsrc Hrd.
  unfold get_existing_release_date, try_catch, bind. simpl.
  unfold mem_select_release_date. rewrite Hrows, with_ids_cons.
  rewrite filter_cons_True by (by rewrite get_insert_ne).
  rewrite fmap_cons. simpl.
  assert (Hg : get (project ["release_date"] (<["id" := PInt 1]> o))
                 "release_date" = get o "release_date").
  { unfold project, get at 1. simpl. rewrite lookup_insert_eq. simpl.
    by rewrite get_insert_ne. }
  by rewrite Hg, Hrd.
Qed.

(** X17. Re-running a handler on the batch it has just stored, on the
    in-memory store: when every record of the batch resolves to one
    release date (its own [release_date], else its [rel_date]) and the
    codes are strings, the first run against the empty store inserts one
    row per deduplicated record, the second run finds that date tracked,
    prepares and deduplicates to the same records, inserts nothing and
    leaves the store as it is. *)
Theorem single_release_rerun_is_idempotent (hg : bool) (t src : string)
    (records : list record) (d : pyval) :
  truthy d = true →
  Forall (λ r, py_or (get r "release_date") (get r "rel_date") = d
               ∧ ∃ c, get r "code" = PStr c) records →
  ∃ s1 sm1 sm2,
    insert_records_with (validate_and_prepare hg) dedup_key t src records
      mem_empty = (s1, inr sm1)
    ∧ insert_records_with (validate_and_prepare hg) dedup_key t src records
        s1 = (s1, inr sm2)
    ∧ match sm1, sm2 with
      | Short st1 _, Short st2 _ => st1 = st2 ∧ rows s1 = []
      | Full res1, Full res2 =>
          records_inserted res1 = length (rows s1)
          ∧ 0 < length (rows s1)
          ∧ records_inserted res2 = 0
          ∧ (records_updated res2 = length (rows s1)
             ∨ status res2 = "already_synced")
      | _, _ => False
      end.
Proof.
  intros Hd Hall.
  set (V := omap (λ r, prepare_record_for_insertion r src PNone hg) records).
  assert (HV : ∀ ex, ex = PNone ∨ ex = d →
             omap (λ r, prepare_record_for_insertion r src ex hg) records
             = V).
  { intros ex Hex. unfold V. clear V.
    induction Hall as [|r rs [Hr _] _ IH]; [done|]. csimpl.
    rewrite IH, (prepare_single_date r src ex d),
      (prepare_single_date r src PNone d) by (done || by left).
    done. }
  assert (Hel : ∀ o, o ∈ V →
             o !! "source" = Some (PStr src)
             ∧ get o "release_date" = d
             ∧ prepared o
             ∧ ∃ c, get o "code" = PStr c).
  { intros o (r & Hr & Ho)%list_elem_of_omap.
    destruct (proj1 (Forall_forall _ _) Hall r Hr) as [Hdate [c Hc]].
    pose proof Ho as Ho'.
    rewrite (prepare_single_date r src PNone d) in Ho' by (done || by left).
    destruct (code_ok (get r "code")); [|done].
    injection Ho' as <-. split_and!.
    - rewrite lookup_insert_ne by done. apply stamped_source.
    - unfold get. by rewrite lookup_insert_eq.
    - by exists r, src, PNone, hg.
    - exists c. unfold get.
      rewrite lookup_insert_ne, stamped_code by done. exact Hc. }
  assert (Hval1 : validate_and_prepare hg t src records mem_empty
                  = (mem_empty, inr V)) by done.
  destruct records as [|r0 records].
  { exists mem_empty, (Short "no_records" t), (Short "no_records" t).
    by split_and!. }
  destruct V as [|o V'] eqn:HVeq.
  { exists mem_empty, (Short "no_valid_records" t),
           (Short "no_valid_records" t).
    unfold insert_records_with, bind. rewrite Hval1. by split_and!. }
  rewrite <- HVeq in *.
  assert (HVne : V ≠ []) by (by rewrite HVeq).
  clear HVeq.
  set (out := deduplicated_records (dedup_by dedup_key V)).
  assert (Hnd : NoDup (lookup_key <$> out)).
  { apply dedup_output_is_deduplicated; apply Forall_forall; intros o' Ho';
      by destruct (Hel o' Ho') as (_ & _ & ? & ?). }
  destruct (first_run t src out 1000 ltac:(lia) Hnd)
    as (s1 & res1 & Hrun1 & Hs1 & Hi1).
  destruct (second_run t src out 1000 s1 ltac:(lia) Hnd Hs1)
    as (res2 & Hrun2 & Hi2 & Hu2).
  change (Z.of_nat 1000) with 1000%Z in Hrun1, Hrun2.
  assert (Hone : out ≠ []) by (by apply dedup_by_nonempty).
  assert (Hval2 : validate_and_prepare hg t src (r0 :: records) s1
                  = (s1, inr V)).
  { destruct out as [|o1 out'] eqn:Hout; [done|].
    assert (Ho1 : o1 ∈ V).
    { apply (dedup_by_output_subset dedup_key V o1).
      fold out. rewrite Hout. left. }
    destruct (Hel o1 Ho1) as (Hsrc & Hrd & _ & _).
    unfold validate_and_prepare, bind.
    rewrite (mem_tracks_first_row t src o1 out' s1 Hs1); cycle 1.
    { unfold get. by rewrite Hsrc. }
    { by rewrite Hrd. }
    rewrite Hrd, HV by (by right). done. }
  exists s1, (Full res1), (Full res2).
  assert (Hlen : length (rows s1) = length out) by (by apply stored_length).
  assert (Hpos : 0 < length out) by (destruct out; [done|simpl; lia]).
  unfold insert_records_with, bind.
  rewrite Hval1, Hval2. destruct V as [|o2 V2]; [done|].
  fold out. unfold ret. rewrite Hrun1, Hrun2.
  split_and!; try done; rewrite Hlen; try done.
Qed.

Lemma single_release_rerun_is_idempotent_witness :
  ∃ s1 sm1 sm2,
    Novitas.insert_records [jan_label_record; jan_record] mem_empty
      = (s1, inr sm1)
    ∧ Novitas.insert_records [jan_label_record; jan_record] s1
      = (s1, inr sm2)
    ∧ match sm1, sm2 with
      | Short st1 _, Short st2 _ => st1 = st2 ∧ rows s1 = []
      | Full res1, Full res2 =>
          records_inserted res1 = length (rows s1)
          ∧ 0 < length (rows s1)
          ∧ records_inserted res2 = 0
          ∧ (records_updated res2 = length (rows s1)
             ∨ status res2 = "already_synced")
      | _, _ => False
      end.
Proof.
  apply (single_release_rerun_is_idempotent false Novitas.table_name
           Novitas.source_name [jan_label_record; jan_record]
           (PStr "January 2025")).
  - reflexivity.
  - repeat apply Forall_cons_2; [| |apply Forall_nil_2];
      (split; [by_compute|exists "99213"; by_compute]).
Defined.

(** The hypothesis on the release date is needed. A batch of two releases
    whose records carry a [rel_date] only is stored under both dates by the
    first run; the second run finds the date of the first row tracked,
    gives it to both records, and inserts the February record once more
    as a January row. *)
Example rerun_restamps_other_release :
  let batch := [jan_label_record; feb_label_record] in
  let run1 := Novitas.insert_records batch mem_empty in
  let run2 := Novitas.insert_records batch run1.1 in
  run1.2 = inr (Full (final_result Novitas.table_name (mk_totals 2 0 0 [])))
  ∧ run2.2
    = inr (Full (final_result Novitas.table_name (mk_totals 1 1 0 [])))
  ∧ (λ row, (get row "code", get row "release_date")) <$> rows run2.1
    = [(PStr "99213", PStr "January 2025");
       (PStr "99214", PStr "February 2025");
       (PStr "99214", PStr "January 2025")].
Proof. cbv zeta. split_and!; by_compute. Qed.

(** The early exit as the Fair Health Physicians handler reports it: the
    second run over 51 unchanged records ends "already_synced" and carries
    [success = False]. *)
Example physicians_rerun_reports_no_success :
  let run1 :=
    Fair_Health_Physicians.insert_records (numbered_records 51) mem_empty in
  run1.2
  = inr (Fair_Health_Physicians.Upserted
           (final_result Fair_Health_Physicians.TABLE_NAME
              (mk_totals 51 0 0 [])) true)
  ∧ Fair_Health_Physicians.insert_records (numbered_records 51) run1.1
    = (run1.1,
       inr (Fair_Health_Physicians.Upserted
              (already_synced_result Fair_Health_Physicians.TABLE_NAME 50)
              false)).
Proof. cbv zeta. split; by_compute. Qed.

(** ** The update path of [_process_chunk] on the in-memory store *)

Lemma get_payload_id (x row : record) :
  get (delete "id" x ∪ row) "id" = get row "id".
Proof.
  unfold get. rewrite lookup_union, lookup_delete_eq.
  by destruct (row !! "id").
Qed.

Lemma get_payload_field (x row : record) (k : string) :
  k ≠ "id" → get x k = get row k → get (delete "id" x ∪ row) k = get row k.
Proof.
  intros Hk. unfold get. rewrite lookup_union, lookup_delete_ne by done.
  by destruct (x !! k), (row !! k).
Qed.

Lemma apply_update_id (x row : record) :
  get (apply_update x row) "id" = get row "id".
Proof.
  unfold apply_update. case_bool_decide; [apply get_payload_id|done].
Qed.

Lemma apply_update_key (x row : record) :
  (get row "id" = get x "id" → composite_key x = composite_key row) →
  composite_key (apply_update x row) = composite_key row.
Proof.
  unfold apply_update. case_bool_decide as Hid; [|done].
  intros Hk. specialize (Hk Hid). unfold composite_key in *.
  injection Hk as Hs Hc Hr Hg.
  by rewrite !get_payload_field.
Qed.

(** The update loop on the in-memory store, when each record to update
    has the composite key of the row its [id] names. *)
Lemma mem_update_existing_rows (t : string) (upd : list record) (u : nat)
    (st : mem_store) :
  NoDup (composite_key <$> rows st) →
  (∀ x, x ∈ upd →
     x !! "id" ≠ None
     ∧ ∀ row, row ∈ rows st → get row "id" = get x "id" →
              composite_key x = composite_key row) →
  update_existing t upd u st
  = (mk_store ((λ row, fold_left (λ acc x, apply_update x acc) upd row)
                 <$> rows st) (next_id st),
     inr (u + length upd)).
Proof.
  revert u st. induction upd as [|x upd IH]; intros u st Hnd Hupd; simpl.
  - unfold ret. rewrite list_fmap_id, Nat.add_0_r. by destruct st.
  - destruct (Hupd x ltac:(left)) as [Hid Hkey].
    destruct (x !! "id") as [i|] eqn:Hi; [|done].
    assert (Hgi : get x "id" = i) by (unfold get; by rewrite Hi).
    assert (Hkeys : composite_key <$> (apply_update x <$> rows st)
                    = composite_key <$> rows st).
    { rewrite <- list_fmap_compose. apply list_fmap_ext.
      intros j row Hj. simpl. apply apply_update_key.
      apply Hkey. by eapply list_elem_of_lookup_2. }
    unfold bind at 1, try_catch, bind, ret. simpl.
    unfold mem_update_row.
    assert (Hf : (λ row : record,
                    if bool_decide (get row "id" = i)
                    then delete "id" x ∪ row else row) <$> rows st
                 = apply_update x <$> rows st).
    { apply list_fmap_ext. intros j row _. unfold apply_update.
      by rewrite Hgi. }
    rewrite Hf. unfold keys_unique.
    rewrite bool_decide_true by (by rewrite Hkeys).
    rewrite IH; simpl.
    + rewrite <- list_fmap_compose. do 2 f_equal. lia.
    + by rewrite Hkeys.
    + intros y Hy. destruct (Hupd y ltac:(by right)) as [Hyid Hykey].
      split; [done|].
      intros row' (row & -> & Hrow)%list_elem_of_fmap Hrid.
      rewrite apply_update_id in Hrid.
      rewrite apply_update_key by (by apply Hkey).
      by apply Hykey.
Qed.

Lemma fold_updates_other (upd : list record) (row : record) :
  (∀ x, x ∈ upd → get x "id" ≠ get row "id") →
  fold_left (λ acc x, apply_update x acc) upd row = row.
Proof.
  induction upd as [|x upd IH]; intros Hno; [done|]. simpl.
  unfold apply_update at 2.
  rewrite bool_decide_false.
  - apply IH. intros y Hy. apply Hno. by right.
  - intros Heq. by apply (Hno x ltac:(left)).
Qed.

Lemma fold_updates_hit (upd : list record) (x row : record) :
  NoDup ((λ y, get y "id") <$> upd) → x ∈ upd →
  get x "id" = get row "id" →
  fold_left (λ acc y, apply_update y acc) upd row = delete "id" x ∪ row.
Proof.
  revert row. induction upd as [|y upd IH]; intros row Hnd Hx Hid.
  { by apply elem_of_nil in Hx. }
  rewrite fmap_cons in Hnd. apply NoDup_cons in Hnd as [Hy Hnd]. simpl.
  apply elem_of_cons in Hx as [->|Hx].
  - unfold apply_update at 2. rewrite bool_decide_true by done.
    apply fold_updates_other. intros z Hz. rewrite get_payload_id.
    intros Hzid. apply Hy. rewrite Hid, <- Hzid.
    by apply (list_elem_of_fmap_2 (λ y, get y "id")).
  - unfold apply_update at 2. rewrite bool_decide_false.
    + by apply IH.
    + intros Heq. apply Hy. rewrite <- Heq, <- Hid.
      by apply (list_elem_of_fmap_2 (λ y, get y "id")).
Qed.

Lemma Forall2_fmap_diag {A} (R : A → A → Prop) (F : A → A) (l : list A) :
  (∀ x, x ∈ l → R x (F x)) → Forall2 R l (F <$> l).
Proof.
  induction l as [|x l IH]; intros Hl; [constructor|].
  rewrite fmap_cons. constructor; [apply Hl; left|].
  apply IH. intros y Hy. apply Hl. by right.
Qed.

Lemma NoDup_omap_inj {A B C} (g : A → option B) (h : B → C) (l : list A) :
  NoDup l →
  (∀ a1 a2 b1 b2, a1 ∈ l → a2 ∈ l → g a1 = Some b1 → g a2 = Some b2 →
                  h b1 = h b2 → a1 = a2) →
  NoDup (h <$> omap g l).
Proof.
  induction 1 as [|a l Ha Hnd IH]; intros Hinj; [constructor|]. csimpl.
  assert (IH' : NoDup (h <$> omap g l)).
  { apply IH. intros a1 a2 b1 b2 H1 H2. apply Hinj; by right. }
  destruct (g a) as [b|] eqn:Hb; [|done].
  rewrite fmap_cons. apply NoDup_cons. split; [|done].
  intros (b2 & Hh & (a2 & Ha2 & Hg2)%list_elem_of_omap)%list_elem_of_fmap.
  apply Ha.
  rewrite (Hinj a a2 b b2); [done|left|by right|done|done|done].
Qed.

Lemma with_ids_ids (first : Z) (rs : list record) :
  NoDup ((λ row, get row "id") <$> with_ids first rs).
Proof.
  apply NoDup_alt. intros i j v Hi Hj.
  rewrite list_lookup_fmap in Hi, Hj. unfold with_ids in Hi, Hj.
  rewrite list_lookup_imap in Hi, Hj.
  destruct (rs !! i) as [ri|]; [|done]. destruct (rs !! j) as [rj|]; [|done].
  simpl in Hi, Hj. injection Hi as <-. injection Hj as Hj.
  rewrite !get_id_with_id in Hj. injection Hj. lia.
Qed.

Lemma lookup_key_str_codes (r o : record) :
  (∃ c, get r "code" = PStr c) → (∃ c, get o "code" = PStr c) →
  lookup_key r = lookup_key o → composite_key r = composite_key o.
Proof.
  intros [c Hc] [c' Hc']. unfold lookup_key, composite_key.
  rewrite Hc, Hc'. simpl. by intros [= -> -> -> ->].
Qed.

(** The existence check on the in-memory store finds exactly the rows of
    the source, of the release date of the chunk's first record and of a
    code of the chunk. *)
Lemma mem_existing_lookup_spec (t src : string) (c : list record)
    (st : mem_store) :
  NoDup (lookup_key <$> rows st) →
  ∃ ex,
    existing_lookup t src c st = (st, inr ex)
    ∧ (∀ k i, ex !! k = Some i →
         ∃ row, row ∈ rows st ∧ lookup_key row = k ∧ get row "id" = i
                ∧ get row "release_date" = chunk_release_date c)
    ∧ (truthy (chunk_release_date c) = true →
       ∀ row, row ∈ rows st →
         get row "source" = PStr src →
         get row "release_date" = chunk_release_date c →
         get row "code" ∈ filter (λ v, truthy v) ((λ r, get r "code") <$> c) →
         ex !! lookup_key row = Some (get row "id")).
Proof.
  intros Hnd. unfold existing_lookup.
  fold (chunk_release_date c).
  destruct (bool_decide _ && truthy _) eqn:Hcond.
  - simpl. unfold mem_select_keys, try_catch, bind, ret.
    eexists. split; [reflexivity|].
    assert (Hsound : ∀ k i,
              build_lookup
                (project ["id"; "code"; "source"; "release_date"; "geozip"]
                   <$> filter
                         (λ row, row_matches src (chunk_release_date c) row
                                 && bool_decide
                                      (get row "code"
                                       ∈ filter (λ v, truthy v)
                                           ((λ r, get r "code") <$> c)))
                         (rows st)) !! k = Some i →
              ∃ row, row ∈ rows st ∧ lookup_key row = k ∧ get row "id" = i
                     ∧ get row "release_date" = chunk_release_date c).
    { intros k i (row' & Hrow' & Hk & Hid)%build_lookup_Some.
      apply list_elem_of_fmap in Hrow' as (row & -> & Hrow).
      apply list_elem_of_filter in Hrow as [Hm Hrow].
      exists row. rewrite lookup_key_project in Hk.
      rewrite get_project_keys in Hid by set_solver.
      split_and!; try done.
      apply andb_prop_elim in Hm as [Hm _].
      apply andb_prop_elim in Hm as [_ Hd].
      by apply bool_decide_unpack in Hd. }
    split; [exact Hsound|].
    intros _ row Hrow Hsrc Hrd Hcode.
    match goal with
    | |- ?m !! _ = _ => destruct (m !! lookup_key row) as [i|] eqn:Hi
    end.
    + destruct (Hsound _ _ Hi) as (row2 & Hrow2 & Hk2 & Hid2 & _).
      assert (row2 = row) as ->
        by (by eapply (NoDup_fmap_eq lookup_key (rows st))).
      by rewrite Hid2.
    + exfalso. apply build_lookup_None in Hi. apply Hi.
      rewrite <- (lookup_key_project row).
      apply list_elem_of_fmap_2, list_elem_of_fmap_2, list_elem_of_filter.
      split; [|done].
      unfold row_matches. rewrite !bool_decide_true by done. done.
  - exists ∅. split; [done|]. split.
    + intros k i. by rewrite lookup_empty.
    + intros Ht row _ _ _ Hcode. exfalso.
      rewrite Ht, andb_true_r in Hcond.
      apply bool_decide_eq_false in Hcond.
      apply Hcond. intros Hnil. rewrite Hnil in Hcode.
      by apply elem_of_nil in Hcode.
Qed.

(** X18. What a chunk of already stored records does to the in-memory
    store. When every record of the chunk has the source name, a
    non-empty string code, a release date and the key of a stored row,
    [_process_chunk] inserts nothing and counts every record as updated;
    the rows themselves change as follows. A row whose record carries the
    release date of the chunk's first record takes the fields of the
    record and keeps the fields the record lacks, its [id] included. A row
    whose record carries another release date is not written, although
    the record is counted as updated (its insert conflicts). Rows that no
    record of the chunk names stay as they are. *)
Theorem chunk_update_writes_first_release_only (t src : string)
    (old c : list record) (st : mem_store) :
  stored old st →
  NoDup (lookup_key <$> old) →
  NoDup (lookup_key <$> c) →
  Forall (λ o, ∃ code, get o "code" = PStr code) old →
  Forall (λ r, get r "source" = PStr src
               ∧ (∃ code, get r "code" = PStr code ∧ code ≠ "")
               ∧ truthy (get r "release_date") = true
               ∧ lookup_key r ∈ lookup_key <$> old) c →
  ∃ st',
    _process_chunk t src c st = (st', inr (0, length c))
    ∧ next_id st' = next_id st
    ∧ Forall2
        (λ row row',
           (∀ r, r ∈ c → lookup_key r = lookup_key row →
              row' = if bool_decide
                          (get r "release_date" = chunk_release_date c)
                     then delete "id" r ∪ row else row)
           ∧ (lookup_key row ∉ lookup_key <$> c → row' = row))
        (rows st) (rows st').
Proof.
  intros Hst Hndold Hndc Hold Hc.
  pose proof (proj1 (Forall_forall _ _) Hc) as Hc'.
  pose proof (proj1 (Forall_forall _ _) Hold) as Hold'.
  assert (Hrowkeys : lookup_key <$> rows st = lookup_key <$> old)
    by (apply stored_row_keys; [apply lookup_key_id|done]).
  assert (Hndrows : NoDup (lookup_key <$> rows st)) by (by rewrite Hrowkeys).
  assert (Hndcomp : NoDup (composite_key <$> rows st)).
  { rewrite (stored_row_keys composite_key old st)
      by (done || apply composite_key_id).
    by apply NoDup_lookup_composite. }
  assert (Hids : NoDup ((λ row, get row "id") <$> rows st)).
  { destruct Hst as [-> _]. apply with_ids_ids. }
  assert (Hrowstr : ∀ row, row ∈ rows st → ∃ code, get row "code" = PStr code).
  { intros row Hrow. destruct Hst as [Hrows _]. rewrite Hrows in Hrow.
    apply with_ids_elem in Hrow as (k & o & Hk & ->).
    rewrite get_insert_ne by done.
    apply Hold'. by eapply list_elem_of_lookup_2. }
  assert (Hcstr : ∀ r, r ∈ c → ∃ code, get r "code" = PStr code).
  { intros r Hr. destruct (Hc' r Hr) as (_ & (code & Hcode & _) & _).
    by exists code. }
  assert (Hmatch : ∀ r row, r ∈ c → row ∈ rows st →
            lookup_key r = lookup_key row →
            composite_key r = composite_key row).
  { intros r row Hr Hrow. apply lookup_key_str_codes; auto. }
  assert (Hstored : ∀ r, r ∈ c →
            composite_key r ∈ composite_key <$> rows st).
  { intros r Hr. destruct (Hc' r Hr) as (_ & _ & _ & Hin).
    rewrite <- Hrowkeys in Hin.
    apply list_elem_of_fmap in Hin as (row & Hk & Hrow).
    rewrite (Hmatch r row) by done. by apply list_elem_of_fmap_2. }
  destruct (mem_existing_lookup_spec t src c st Hndrows)
    as (ex & Hex & Hsound & Hcomplete).
  destruct (classify_elems ex c) as [Hins Hupd].
  pose proof (classify_lengths ex c) as Hlen.
  pose proof (classify_snd ex c) as Hsnd.
  unfold _process_chunk. unfold bind at 1. rewrite Hex.
  destruct (classify ex c) as [ins upd]. simpl in Hins, Hupd, Hlen, Hsnd.
  assert (Hnew : insert_new t ins st = (st, inr (0, length ins))).
  { destruct ins as [|r ins]; [done|].
    unfold insert_new, try_catch, bind. simpl insert_rows.
    rewrite (mem_insert_conflict (r :: ins) st r)
      by (by left || (apply Hstored, Hins; by left)).
    rewrite mem_fallback_conflicts by (intros; by apply Hstored, Hins).
    done. }
  assert (Hrowof : ∀ r i row, r ∈ c → ex !! lookup_key r = Some i →
            row ∈ rows st → get row "id" = i →
            lookup_key row = lookup_key r
            ∧ get row "release_date" = chunk_release_date c).
  { intros r i row Hr Hi Hrow Hid.
    destruct (Hsound _ _ Hi) as (row2 & Hrow2 & Hk2 & Hid2 & Hd2).
    assert (row2 = row) as ->; [|done].
    eapply (NoDup_fmap_eq (λ row, get row "id") (rows st)); eauto.
    congruence. }
  unfold bind at 1. rewrite Hnew. unfold bind, ret. simpl.
  rewrite mem_update_existing_rows; [|done|].
  2:{ intros x (r & i & Hr & Hi & ->)%Hupd. split.
      - by rewrite lookup_insert_eq.
      - intros row Hrow Hid. rewrite get_id_with_id in Hid.
        rewrite composite_key_id.
        destruct (Hrowof r i row Hr Hi Hrow Hid) as [Hk _].
        by apply Hmatch. }
  exists (mk_store ((λ row, fold_left (λ acc x, apply_update x acc) upd row)
                      <$> rows st) (next_id st)).
  split; [|split; [reflexivity|]].
  { do 3 f_equal. lia. }
  simpl. apply Forall2_fmap_diag. intros row Hrow.
  assert (Hothers : (∀ r i, r ∈ c → ex !! lookup_key r = Some i →
                       get row "id" = i → False) →
            fold_left (λ acc x, apply_update x acc) upd row = row).
  { intros Hno. apply fold_updates_other.
    intros x (r & i & Hr & Hi & ->)%Hupd. rewrite get_id_with_id.
    intros ->. by eapply Hno. }
  split.
  - intros r Hr Hk. case_bool_decide as Hd.
    + destruct (Hc' r Hr) as (Hsrc & (code & Hcode & Hne) & Ht & _).
      assert (Hcomp : composite_key r = composite_key row)
        by (by apply Hmatch).
      unfold composite_key in Hcomp. injection Hcomp as Hs Hco Hr' Hg.
      assert (Hi : ex !! lookup_key row = Some (get row "id")).
      { apply Hcomplete; try done.
        - by rewrite <- Hd.
        - congruence.
        - congruence.
        - rewrite <- Hco. apply list_elem_of_filter. split.
          + rewrite Hcode. simpl.
            destruct (String.eqb code "") eqn:He; [|done].
            by apply String.eqb_eq in He.
          + by apply (list_elem_of_fmap_2 (λ r, get r "code")). }
      rewrite <- Hk in Hi.
      rewrite (fold_updates_hit upd (<["id" := get row "id"]> r) row).
      * by rewrite delete_insert_eq.
      * rewrite Hsnd.
        apply (NoDup_omap_inj _ (λ y, get y "id")).
        { by apply NoDup_fmap_1 in Hndc. }
        intros r1 r2 x1 x2 Hr1 Hr2 Hx1 Hx2 Hxid.
        destruct (ex !! lookup_key r1) as [i1|] eqn:Hi1; [|done].
        destruct (ex !! lookup_key r2) as [i2|] eqn:Hi2; [|done].
        simpl in Hx1, Hx2. injection Hx1 as <-. injection Hx2 as <-.
        rewrite !get_id_with_id in Hxid. subst i2.
        destruct (Hsound _ _ Hi1) as (rw & Hrw & Hkw & Hidw & _).
        destruct (Hrowof r2 i1 rw Hr2 Hi2 Hrw Hidw) as [Hk2 _].
        eapply (NoDup_fmap_eq lookup_key c); eauto. congruence.
      * rewrite Hsnd. apply list_elem_of_omap. exists r. split; [done|].
        by rewrite Hi.
      * by rewrite get_id_with_id.
    + apply Hothers. intros r' i Hr' Hi Hid.
      destruct (Hrowof r' i row Hr' Hi Hrow Hid) as [Hk' Hd'].
      apply Hd. rewrite <- Hd'.
      unfold lookup_key in Hk. by injection Hk.
  - intros Hnot. apply Hothers. intros r' i Hr' Hi Hid.
    destruct (Hrowof r' i row Hr' Hi Hrow Hid) as [Hk' _].
    apply Hnot. rewrite Hk'. by apply list_elem_of_fmap_2.
Qed.

Lemma chunk_update_writes_first_release_only_witness :
  ∃ st',
    _process_chunk "t" "X" [jan_record_repriced; feb_record_repriced]
      two_release_store = (st', inr (0, 2))
    ∧ next_id st' = next_id two_release_store
    ∧ Forall2
        (λ row row',
           (∀ r, r ∈ [jan_record_repriced; feb_record_repriced] →
              lookup_key r = lookup_key row →
              row' = if bool_decide
                          (get r "release_date"
                           = chunk_release_date
                               [jan_record_repriced; feb_record_repriced])
                     then delete "id" r ∪ row else row)
           ∧ (lookup_key row
              ∉ lookup_key <$> [jan_record_repriced; feb_record_repriced] →
              row' = row))
        (rows two_release_store) (rows st').
Proof.
  apply (chunk_update_writes_first_release_only "t" "X"
           [jan_record; feb_record]
           [jan_record_repriced; feb_record_repriced] two_release_store).
  - split; by_compute.
  - by_compute.
  - by_compute.
  - repeat apply Forall_cons_2; [| |apply Forall_nil_2].
    + exists "99213". by_compute.
    + exists "99214". by_compute.
  - repeat apply Forall_cons_2; [| |apply Forall_nil_2].
    + split_and!; [by_compute| |by_compute|by_compute].
      exists "99213". split; by_compute.
    + split_and!; [by_compute| |by_compute|by_compute].
      exists "99214". split; by_compute.
Defined.

(** The two repriced records against the store that holds both: the
    January row takes the new rate, the February row keeps the old one,
    and both records are counted as updated. *)
Example repriced_february_is_not_written :
  _process_chunk "t" "X" [jan_record_repriced; feb_record_repriced]
    two_release_store
  = (mk_store [<["id" := PInt 1]> jan_record_repriced;
               <["id" := PInt 2]> feb_record] 3,
     inr (0, 2)).
Proof. by_compute. Qed.
